(** * Synchronization primitives of synch.c: semaphore, lock, condition variable

    A shallow embedding of [src/synch.c] and a verification of its
    specification.  The kernel heap is a finite map from addresses to typed
    blocks; the create and destroy functions are sequential programs in a
    state-and-error monad over that heap; the operations that can be
    interleaved ([P], [V], [lock_acquire], [lock_release], [lock_do_i_hold],
    [cv_wait], [cv_signal], [cv_broadcast]) are embedded one C statement per
    step, each thread carrying its own program point, so that every
    interleaving of the statements is a run of the machine. *)

From Stdlib Require Import ZArith Lia.
From stdpp Require Import gmap strings list.

Open Scope Z_scope.

(** ** Outcomes

    [KASSERT] failures call [panic], which halts the kernel: [Panic] carries
    the text of the failed assertion.  [Blocked] is a thread that cannot
    advance now (asleep on a wait channel, or spinning on a held spinlock).
    [Fault] is C undefined behaviour (a dangling or ill-typed pointer). *)

Inductive outcome (A : Type) : Type :=
| Next (a : A)
| Panic (msg : string)
| Blocked
| Fault.

Arguments Next {A} a.
Arguments Panic {A} msg.
Arguments Blocked {A}.
Arguments Fault {A}.

Definition obind {A B : Type} (m : outcome A) (f : A -> outcome B) : outcome B :=
  match m with
  | Next a => f a
  | Panic msg => Panic msg
  | Blocked => Blocked
  | Fault => Fault
  end.

Definition of_option {A : Type} (o : option A) : outcome A :=
  match o with
  | Some a => Next a
  | None => Fault
  end.

(** [KASSERT(b)]. *)
Definition KASSERT (b : bool) (msg : string) : outcome unit :=
  if b then Next tt else Panic msg.

(** ** Data model *)

(** [struct thread *]: threads are identified by number; [curthread] is the
    identity of the thread executing the statement. *)
Definition tid := nat.

(** Heap addresses; a C pointer is [None] for [NULL]. *)
Definition addr := nat.
Definition ptr := option addr.

(** Modelled from the spec: the spin-guard collaborator ([struct spinlock],
    spinlock.h is not part of the sources).  The guard records which thread
    holds it, [None] when free. *)
Definition spinlock := option tid.

(** [unsigned]: 32 bits on the kernel's target. *)
Definition UINT_MAX : Z := 2 ^ 32 - 1.
Definition wrap (z : Z) : Z := z mod 2 ^ 32.

(** The structures, with the fields synch.c uses. *)
Record semaphore := mk_semaphore {
  sem_name : ptr;           (* char *sem_name *)
  sem_wchan : ptr;          (* struct wchan *sem_wchan *)
  sem_lock : spinlock;      (* struct spinlock sem_lock *)
  sem_count : Z             (* volatile unsigned sem_count *)
}.

Record lock := mk_lock {
  lk_name : ptr;            (* char *lk_name *)
  holding_thread : option tid;  (* struct thread *holding_thread *)
  lock_lock : spinlock;     (* struct spinlock lock_lock *)
  lock_wchan : ptr          (* struct wchan *lock_wchan *)
}.

Record cv := mk_cv {
  cv_name : ptr             (* char *cv_name *)
}.

(** A heap block: one of the three structures, a string made by [kstrdup],
    or a wait channel with the threads asleep on it. *)
Inductive block :=
| BSem (s : semaphore)
| BLock (l : lock)
| BCv (c : cv)
| BStr (s : string)
| BWchan (wc_name : ptr) (sleepers : list tid).

Abbreviation heap := (gmap addr block).

Definition load_sem (h : heap) (p : ptr) : option (addr * semaphore) :=
  match p with
  | Some a => match h !! a with Some (BSem s) => Some (a, s) | _ => None end
  | None => None
  end.

Definition load_lock (h : heap) (p : ptr) : option (addr * lock) :=
  match p with
  | Some a => match h !! a with Some (BLock l) => Some (a, l) | _ => None end
  | None => None
  end.

Definition load_cv (h : heap) (p : ptr) : option (addr * cv) :=
  match p with
  | Some a => match h !! a with Some (BCv c) => Some (a, c) | _ => None end
  | None => None
  end.

Definition load_wchan (h : heap) (p : ptr) : option (addr * ptr * list tid) :=
  match p with
  | Some a => match h !! a with Some (BWchan n q) => Some (a, n, q) | _ => None end
  | None => None
  end.

Definition set_sem_lock (s : semaphore) (g : spinlock) : semaphore :=
  mk_semaphore (sem_name s) (sem_wchan s) g (sem_count s).
Definition set_sem_count (s : semaphore) (c : Z) : semaphore :=
  mk_semaphore (sem_name s) (sem_wchan s) (sem_lock s) c.
Definition set_sem_name (s : semaphore) (p : ptr) : semaphore :=
  mk_semaphore p (sem_wchan s) (sem_lock s) (sem_count s).
Definition set_sem_wchan (s : semaphore) (p : ptr) : semaphore :=
  mk_semaphore (sem_name s) p (sem_lock s) (sem_count s).

Definition set_lock_lock (l : lock) (g : spinlock) : lock :=
  mk_lock (lk_name l) (holding_thread l) g (lock_wchan l).
Definition set_holding_thread (l : lock) (o : option tid) : lock :=
  mk_lock (lk_name l) o (lock_lock l) (lock_wchan l).
Definition set_lk_name (l : lock) (p : ptr) : lock :=
  mk_lock p (holding_thread l) (lock_lock l) (lock_wchan l).
Definition set_lock_wchan (l : lock) (p : ptr) : lock :=
  mk_lock (lk_name l) (holding_thread l) (lock_lock l) p.

(** ** Collaborators *)

(** Modelled from the spec: [SpinGuard{init, destroy, acquire, release}].
    [spinlock_acquire] succeeds only on a free guard (the caller spins
    otherwise).  The spec does not say what destroying a held guard does:
    [spinlock_cleanup] is taken to assert that the guard is free, and every
    result about destruction below is stated for a free guard, where the
    choice does not matter. *)
Definition spinlock_init : spinlock := None.

Definition spinlock_acquire (t : tid) (g : spinlock) : option spinlock :=
  match g with
  | None => Some (Some t)
  | Some _ => None
  end.

Definition spinlock_release (g : spinlock) : spinlock := None.

Definition spinlock_cleanup (g : spinlock) : outcome unit :=
  KASSERT (bool_decide (g = None)) "lk->lk_holder == NULL".

(** Modelled from the spec: the wait-queue collaborator's [sleep] puts the
    caller on the queue, and [wake_one] moves one queued thread to runnable,
    none when the queue is empty.  The spec promises no order among the
    sleepers, so the thread woken is the scheduler's choice [k]. *)
Definition wchan_enqueue (t : tid) (q : list tid) : list tid := q ++ [t].

Definition wchan_wakeone (k : nat) (q : list tid) : list tid :=
  delete (k mod length q)%nat q.

(** The threads a wake-up made runnable: those on [q] no longer on [q']. *)
Definition woken (q q' : list tid) : nat := (length q - length q')%nat.

(** ** Kernel memory: the state-and-error monad of the sequential code

    The create and destroy functions run to completion without blocking.
    They are programs over the heap and the allocator's future answers:
    [m_avail] says, request by request, whether the next allocation
    succeeds ([[]]: every further one does). *)

Record mem := mk_mem { m_heap : heap; m_avail : list bool }.

Definition M (A : Type) : Type := mem -> outcome (A * mem).

Definition ret {A : Type} (a : A) : M A := fun m => Next (a, m).

Definition bind {A B : Type} (c : M A) (k : A -> M B) : M B :=
  fun m => obind (c m) (fun am => k (fst am) (snd am)).

Definition lift {A : Type} (o : outcome A) : M A :=
  fun m => obind o (fun a => Next (a, m)).

Notation "x <- c ;; k" := (bind c (fun x => k))
  (at level 100, c at next level, right associativity).
Notation "c ;;; k" := (bind c (fun _ => k))
  (at level 100, right associativity).

(** Modelled from the spec: allocation and deallocation are collaborators
    (lib.h is not part of the sources).  An allocation that succeeds
    returns a block at an address that was not live; one that fails returns
    [NULL] and leaves the heap as it was.  The contents of a fresh block
    are unspecified in C: the embedding fills it with [init], and the code
    writes every field before it reads it. *)
Definition alloc (init : block) : M ptr :=
  fun m =>
    match m_avail m with
    | false :: av => Next (None, mk_mem (m_heap m) av)
    | _ =>
        let a := fresh (dom (m_heap m)) in
        Next (Some a, mk_mem (<[a := init]> (m_heap m)) (tail (m_avail m)))
    end.

Definition kmalloc (init : block) : M ptr := alloc init.

Definition kstrdup (s : string) : M ptr := alloc (BStr s).

Definition kfree (p : ptr) : M unit :=
  fun m =>
    match p with
    | None => Next (tt, m)
    | Some a =>
        match m_heap m !! a with
        | Some _ => Next (tt, mk_mem (delete a (m_heap m)) (m_avail m))
        | None => Fault
        end
    end.

(** Modelled from the spec: [WaitQueue{create(label), destroy}]; destroying
    a wait channel with a thread queued on it is fatal (the comment in
    [sem_destroy] says so too). *)
Definition wchan_create (name : ptr) : M ptr := alloc (BWchan name []).

Definition wchan_destroy (wc : ptr) : M unit :=
  fun m =>
    match load_wchan (m_heap m) wc with
    | Some (_, _, q) =>
        (lift (KASSERT (bool_decide (q = [])) "threadlist_isempty(&wc->wc_threads)") ;;;
         kfree wc) m
    | None => Fault
    end.

(** Field reads and writes through a pointer. *)
Definition read_sem (p : ptr) : M semaphore :=
  fun m => obind (of_option (load_sem (m_heap m) p)) (fun x => Next (snd x, m)).
Definition read_lock (p : ptr) : M lock :=
  fun m => obind (of_option (load_lock (m_heap m) p)) (fun x => Next (snd x, m)).
Definition read_cv (p : ptr) : M cv :=
  fun m => obind (of_option (load_cv (m_heap m) p)) (fun x => Next (snd x, m)).

Definition write_sem (p : ptr) (f : semaphore -> semaphore) : M unit :=
  fun m => obind (of_option (load_sem (m_heap m) p))
    (fun x => Next (tt, mk_mem (<[fst x := BSem (f (snd x))]> (m_heap m)) (m_avail m))).
Definition write_lock (p : ptr) (f : lock -> lock) : M unit :=
  fun m => obind (of_option (load_lock (m_heap m) p))
    (fun x => Next (tt, mk_mem (<[fst x := BLock (f (snd x))]> (m_heap m)) (m_avail m))).
Definition write_cv (p : ptr) (f : cv -> cv) : M unit :=
  fun m => obind (of_option (load_cv (m_heap m) p))
    (fun x => Next (tt, mk_mem (<[fst x := BCv (f (snd x))]> (m_heap m)) (m_avail m))).

Definition is_null (p : ptr) : bool := if p is None then true else false.

(** Placeholders for the contents of a block just returned by [kmalloc]. *)
Definition raw_sem : block := BSem (mk_semaphore None None None 0).
Definition raw_lock : block := BLock (mk_lock None None None None).
Definition raw_cv : block := BCv (mk_cv None).

(** ** Semaphore: create and destroy (synch.c 48-87) *)

Definition sem_create (name : string) (initial_count : Z) : M ptr :=
  (* sem = kmalloc(sizeof *sem); if (sem == NULL) return NULL; *)
  sem <- kmalloc raw_sem ;;
  if is_null sem then ret None else
  (* sem->sem_name = kstrdup(name); *)
  nm <- kstrdup name ;;
  write_sem sem (fun s => set_sem_name s nm) ;;;
  (* if (sem->sem_name == NULL) { kfree(sem); return NULL; } *)
  s <- read_sem sem ;;
  if is_null (sem_name s) then kfree sem ;;; ret None else
  (* sem->sem_wchan = wchan_create(sem->sem_name); *)
  wc <- wchan_create (sem_name s) ;;
  write_sem sem (fun s => set_sem_wchan s wc) ;;;
  (* if (sem->sem_wchan == NULL) { kfree(sem->sem_name); kfree(sem); return NULL; } *)
  s <- read_sem sem ;;
  if is_null (sem_wchan s) then kfree (sem_name s) ;;; kfree sem ;;; ret None else
  (* spinlock_init(&sem->sem_lock); sem->sem_count = initial_count; *)
  write_sem sem (fun s => set_sem_lock s spinlock_init) ;;;
  write_sem sem (fun s => set_sem_count s initial_count) ;;;
  (* return sem; *)
  ret sem.

Definition sem_destroy (sem : ptr) : M unit :=
  (* KASSERT(sem != NULL); *)
  lift (KASSERT (negb (is_null sem)) "sem != NULL") ;;;
  (* spinlock_cleanup(&sem->sem_lock); *)
  s <- read_sem sem ;;
  lift (spinlock_cleanup (sem_lock s)) ;;;
  (* wchan_destroy(sem->sem_wchan); *)
  wchan_destroy (sem_wchan s) ;;;
  (* kfree(sem->sem_name); kfree(sem); *)
  kfree (sem_name s) ;;;
  kfree sem.

(** ** Lock: create and destroy (synch.c 142-193)

    The [HANGMAN_*] macros are the optional deadlock detector; they allocate
    nothing and do not touch the fields modelled here. *)

Definition lock_create (name : string) : M ptr :=
  (* lock = kmalloc(sizeof *lock); if (lock == NULL) return NULL; *)
  lock <- kmalloc raw_lock ;;
  if is_null lock then ret None else
  (* lock->lk_name = kstrdup(name); *)
  nm <- kstrdup name ;;
  write_lock lock (fun l => set_lk_name l nm) ;;;
  (* if (lock->lk_name == NULL) { kfree(lock); return NULL; } *)
  l <- read_lock lock ;;
  if is_null (lk_name l) then kfree lock ;;; ret None else
  (* lock->holding_thread = NULL; *)
  write_lock lock (fun l => set_holding_thread l None) ;;;
  (* spinlock_init(&lock->lock_lock); *)
  write_lock lock (fun l => set_lock_lock l spinlock_init) ;;;
  (* lock->lock_wchan = wchan_create(lock->lk_name); *)
  wc <- wchan_create (lk_name l) ;;
  write_lock lock (fun l => set_lock_wchan l wc) ;;;
  (* if (lock->lock_wchan == NULL) { spinlock_cleanup(&lock->lock_lock);
       kfree(lock->lk_name); kfree(lock); return NULL; } *)
  l <- read_lock lock ;;
  if is_null (lock_wchan l) then
    lift (spinlock_cleanup (lock_lock l)) ;;;
    kfree (lk_name l) ;;; kfree lock ;;; ret None
  else
  (* return lock; *)
  ret lock.

Definition lock_destroy (lock : ptr) : M unit :=
  (* KASSERT(lock != NULL); *)
  lift (KASSERT (negb (is_null lock)) "lock != NULL") ;;;
  (* spinlock_cleanup(&lock->lock_lock); *)
  l <- read_lock lock ;;
  lift (spinlock_cleanup (lock_lock l)) ;;;
  (* wchan_destroy(lock->lock_wchan); *)
  wchan_destroy (lock_wchan l) ;;;
  (* kfree(lock->lk_name); kfree(lock); *)
  kfree (lk_name l) ;;;
  kfree lock.

(** ** Condition variable: create and destroy (synch.c 290-320) *)

Definition cv_create (name : string) : M ptr :=
  (* cv = kmalloc(sizeof *cv); if (cv == NULL) return NULL; *)
  c <- kmalloc raw_cv ;;
  if is_null c then ret None else
  (* cv->cv_name = kstrdup(name); *)
  nm <- kstrdup name ;;
  write_cv c (fun _ => mk_cv nm) ;;;
  (* if (cv->cv_name==NULL) { kfree(cv); return NULL; } *)
  x <- read_cv c ;;
  if is_null (cv_name x) then kfree c ;;; ret None else
  (* return cv; *)
  ret c.

Definition cv_destroy (c : ptr) : M unit :=
  (* KASSERT(cv != NULL); *)
  lift (KASSERT (negb (is_null c)) "cv != NULL") ;;;
  (* kfree(cv->cv_name); kfree(cv); *)
  x <- read_cv c ;;
  kfree (cv_name x) ;;;
  kfree c.

(** ** Threads and program points

    The operations that may run concurrently are embedded statement by
    statement.  A thread inside one of them is at a program point, named
    after the statement it executes next, together with the function's
    arguments and locals. *)

Inductive P_point :=
| P_null | P_intr | P_acquire | P_test | P_sleep | P_asleep
| P_assert | P_dec | P_release.

Inductive V_point :=
| V_null | V_acquire | V_inc | V_assert | V_wake | V_release.

Inductive LA_point :=
| LA_null | LA_intr | LA_hold | LA_acquire | LA_splhigh | LA_test
| LA_sleep | LA_asleep | LA_set | LA_splx | LA_release.

Inductive LR_point :=
| LR_null | LR_hold | LR_acquire | LR_splhigh | LR_clear | LR_wake
| LR_splx | LR_release.

Inductive DH_point := DH_null | DH_read.

Inductive pc :=
| Idle
| InP (p : P_point) (sem : ptr)
| InV (p : V_point) (sem : ptr)
| InLA (p : LA_point) (lock : ptr) (spl : Z)
| InLR (p : LR_point) (lock : ptr) (spl : Z)
| InDH (p : DH_point) (lock : ptr)
| InCW (c : ptr) (lock : ptr)
| InCS (c : ptr) (lock : ptr)
| InCB (c : ptr) (lock : ptr).

(** The fields of [struct thread] that synch.c reads, the thread's
    interrupt priority level, and where the thread is. *)
Record thread := mk_thread {
  t_in_interrupt : bool;
  t_curspl : Z;
  t_pc : pc
}.

Definition goto (th : thread) (p : pc) : thread :=
  mk_thread (t_in_interrupt th) (t_curspl th) p.

(** Modelled from the spec: the preemption-suppression scope (spl.h is not
    part of the sources).  [splhigh] raises the level to the highest and
    returns the old one; [splx] sets the level. *)
Definition IPL_NONE : Z := 0.
Definition IPL_HIGH : Z := 1.

Definition splhigh (th : thread) : Z * thread :=
  (t_curspl th, mk_thread (t_in_interrupt th) IPL_HIGH (t_pc th)).

Definition splx (spl : Z) (th : thread) : thread :=
  mk_thread (t_in_interrupt th) spl (t_pc th).

(** What a call returned, recorded when it returns. *)
Inductive event :=
| RetP (t : tid) (sem : addr)
| RetV (t : tid) (sem : addr)
| RetAcquire (t : tid) (lock : addr)
| RetRelease (t : tid) (lock : addr)
| RetDoIHold (t : tid) (lock : addr) (b : bool)
| RetCvWait (t : tid) (c lock : ptr)
| RetCvSignal (t : tid) (c lock : ptr)
| RetCvBroadcast (t : tid) (c lock : ptr).

#[global] Instance outcome_bind : MBind outcome := fun A B f m => obind m f.

Definition step_result : Type := thread * heap * option event.

(** ** Semaphore: P and V (synch.c 89-136) *)

Definition P (t : tid) (th : thread) (p : P_point) (sem : ptr) (h : heap)
  : outcome step_result :=
  match p with
  | P_null =>
      (* KASSERT(sem != NULL); *)
      _ ← KASSERT (negb (is_null sem)) "sem != NULL";
      Next (goto th (InP P_intr sem), h, None)
  | P_intr =>
      (* KASSERT(curthread->t_in_interrupt == false); *)
      _ ← KASSERT (negb (t_in_interrupt th)) "curthread->t_in_interrupt == false";
      Next (goto th (InP P_acquire sem), h, None)
  | P_acquire =>
      (* spinlock_acquire(&sem->sem_lock); *)
      '(a, s) ← of_option (load_sem h sem);
      match spinlock_acquire t (sem_lock s) with
      | Some g => Next (goto th (InP P_test sem), <[a := BSem (set_sem_lock s g)]> h, None)
      | None => Blocked
      end
  | P_test =>
      (* while (sem->sem_count == 0) *)
      '(a, s) ← of_option (load_sem h sem);
      if sem_count s =? 0
      then Next (goto th (InP P_sleep sem), h, None)
      else Next (goto th (InP P_assert sem), h, None)
  | P_sleep =>
      (* wchan_sleep(sem->sem_wchan, &sem->sem_lock);
         first half: queue the caller and let go of the guard, in one step *)
      '(a, s) ← of_option (load_sem h sem);
      '(w, n, q) ← of_option (load_wchan h (sem_wchan s));
      Next (goto th (InP P_asleep sem),
            <[a := BSem (set_sem_lock s (spinlock_release (sem_lock s)))]>
              (<[w := BWchan n (wchan_enqueue t q)]> h),
            None)
  | P_asleep =>
      (* wchan_sleep, second half: suspended while queued; once woken, take
         the guard again and go back to the loop test *)
      '(a, s) ← of_option (load_sem h sem);
      '(w, n, q) ← of_option (load_wchan h (sem_wchan s));
      if bool_decide (t ∈ q) then Blocked else
      match spinlock_acquire t (sem_lock s) with
      | Some g => Next (goto th (InP P_test sem), <[a := BSem (set_sem_lock s g)]> h, None)
      | None => Blocked
      end
  | P_assert =>
      (* KASSERT(sem->sem_count > 0); *)
      '(a, s) ← of_option (load_sem h sem);
      _ ← KASSERT (0 <? sem_count s) "sem->sem_count > 0";
      Next (goto th (InP P_dec sem), h, None)
  | P_dec =>
      (* sem->sem_count--; *)
      '(a, s) ← of_option (load_sem h sem);
      Next (goto th (InP P_release sem),
            <[a := BSem (set_sem_count s (wrap (sem_count s - 1)))]> h, None)
  | P_release =>
      (* spinlock_release(&sem->sem_lock); and return *)
      '(a, s) ← of_option (load_sem h sem);
      Next (goto th Idle,
            <[a := BSem (set_sem_lock s (spinlock_release (sem_lock s)))]> h,
            Some (RetP t a))
  end.

Definition V (k : nat) (t : tid) (th : thread) (p : V_point) (sem : ptr) (h : heap)
  : outcome step_result :=
  match p with
  | V_null =>
      (* KASSERT(sem != NULL); *)
      _ ← KASSERT (negb (is_null sem)) "sem != NULL";
      Next (goto th (InV V_acquire sem), h, None)
  | V_acquire =>
      (* spinlock_acquire(&sem->sem_lock); *)
      '(a, s) ← of_option (load_sem h sem);
      match spinlock_acquire t (sem_lock s) with
      | Some g => Next (goto th (InV V_inc sem), <[a := BSem (set_sem_lock s g)]> h, None)
      | None => Blocked
      end
  | V_inc =>
      (* sem->sem_count++; *)
      '(a, s) ← of_option (load_sem h sem);
      Next (goto th (InV V_assert sem),
            <[a := BSem (set_sem_count s (wrap (sem_count s + 1)))]> h, None)
  | V_assert =>
      (* KASSERT(sem->sem_count > 0); *)
      '(a, s) ← of_option (load_sem h sem);
      _ ← KASSERT (0 <? sem_count s) "sem->sem_count > 0";
      Next (goto th (InV V_wake sem), h, None)
  | V_wake =>
      (* wchan_wakeone(sem->sem_wchan, &sem->sem_lock); *)
      '(a, s) ← of_option (load_sem h sem);
      '(w, n, q) ← of_option (load_wchan h (sem_wchan s));
      Next (goto th (InV V_release sem), <[w := BWchan n (wchan_wakeone k q)]> h, None)
  | V_release =>
      (* spinlock_release(&sem->sem_lock); and return *)
      '(a, s) ← of_option (load_sem h sem);
      Next (goto th Idle,
            <[a := BSem (set_sem_lock s (spinlock_release (sem_lock s)))]> h,
            Some (RetV t a))
  end.

(** ** Lock: acquire, release, do_i_hold (synch.c 195-282) *)

(** [return (lock->holding_thread == curthread);] *)
Definition holds (l : lock) (t : tid) : bool :=
  bool_decide (holding_thread l = Some t).

Definition lock_do_i_hold (t : tid) (th : thread) (p : DH_point) (lock : ptr) (h : heap)
  : outcome step_result :=
  match p with
  | DH_null =>
      (* KASSERT(lock != NULL); *)
      _ ← KASSERT (negb (is_null lock)) "lock != NULL";
      Next (goto th (InDH DH_read lock), h, None)
  | DH_read =>
      (* return (lock->holding_thread == curthread); *)
      '(a, l) ← of_option (load_lock h lock);
      Next (goto th Idle, h, Some (RetDoIHold t a (holds l t)))
  end.

Definition lock_acquire (t : tid) (th : thread) (p : LA_point) (lock : ptr) (spl : Z)
  (h : heap) : outcome step_result :=
  match p with
  | LA_null =>
      (* KASSERT(lock != NULL); *)
      _ ← KASSERT (negb (is_null lock)) "lock != NULL";
      Next (goto th (InLA LA_intr lock spl), h, None)
  | LA_intr =>
      (* KASSERT(curthread->t_in_interrupt == false); *)
      _ ← KASSERT (negb (t_in_interrupt th)) "curthread->t_in_interrupt == false";
      Next (goto th (InLA LA_hold lock spl), h, None)
  | LA_hold =>
      (* KASSERT(!lock_do_i_hold(lock)); the callee asserts lock != NULL
         and reads the holder *)
      _ ← KASSERT (negb (is_null lock)) "lock != NULL";
      '(a, l) ← of_option (load_lock h lock);
      _ ← KASSERT (negb (holds l t)) "!lock_do_i_hold(lock)";
      Next (goto th (InLA LA_acquire lock spl), h, None)
  | LA_acquire =>
      (* spinlock_acquire(&lock->lock_lock); *)
      '(a, l) ← of_option (load_lock h lock);
      match spinlock_acquire t (lock_lock l) with
      | Some g =>
          Next (goto th (InLA LA_splhigh lock spl), <[a := BLock (set_lock_lock l g)]> h, None)
      | None => Blocked
      end
  | LA_splhigh =>
      (* int spl = splhigh();  HANGMAN_WAIT(...); *)
      let '(old, th') := splhigh th in
      Next (goto th' (InLA LA_test lock old), h, None)
  | LA_test =>
      (* while(lock->holding_thread != NULL) *)
      '(a, l) ← of_option (load_lock h lock);
      if holding_thread l is Some _
      then Next (goto th (InLA LA_sleep lock spl), h, None)
      else Next (goto th (InLA LA_set lock spl), h, None)
  | LA_sleep =>
      (* wchan_sleep(lock->lock_wchan, &lock->lock_lock);
         first half: queue the caller and let go of the guard, in one step *)
      '(a, l) ← of_option (load_lock h lock);
      '(w, n, q) ← of_option (load_wchan h (lock_wchan l));
      Next (goto th (InLA LA_asleep lock spl),
            <[a := BLock (set_lock_lock l (spinlock_release (lock_lock l)))]>
              (<[w := BWchan n (wchan_enqueue t q)]> h),
            None)
  | LA_asleep =>
      (* wchan_sleep, second half: suspended while queued; once woken, take
         the guard again and go back to the loop test *)
      '(a, l) ← of_option (load_lock h lock);
      '(w, n, q) ← of_option (load_wchan h (lock_wchan l));
      if bool_decide (t ∈ q) then Blocked else
      match spinlock_acquire t (lock_lock l) with
      | Some g =>
          Next (goto th (InLA LA_test lock spl), <[a := BLock (set_lock_lock l g)]> h, None)
      | None => Blocked
      end
  | LA_set =>
      (* lock->holding_thread = curthread;  HANGMAN_ACQUIRE(...); *)
      '(a, l) ← of_option (load_lock h lock);
      Next (goto th (InLA LA_splx lock spl),
            <[a := BLock (set_holding_thread l (Some t))]> h, None)
  | LA_splx =>
      (* splx(spl); *)
      Next (goto (splx spl th) (InLA LA_release lock spl), h, None)
  | LA_release =>
      (* spinlock_release(&lock->lock_lock); and return *)
      '(a, l) ← of_option (load_lock h lock);
      Next (goto th Idle,
            <[a := BLock (set_lock_lock l (spinlock_release (lock_lock l)))]> h,
            Some (RetAcquire t a))
  end.

Definition lock_release (k : nat) (t : tid) (th : thread) (p : LR_point) (lock : ptr)
  (spl : Z) (h : heap) : outcome step_result :=
  match p with
  | LR_null =>
      (* KASSERT(lock != NULL); *)
      _ ← KASSERT (negb (is_null lock)) "lock != NULL";
      Next (goto th (InLR LR_hold lock spl), h, None)
  | LR_hold =>
      (* KASSERT(lock->holding_thread == curthread); *)
      '(a, l) ← of_option (load_lock h lock);
      _ ← KASSERT (holds l t) "lock->holding_thread == curthread";
      Next (goto th (InLR LR_acquire lock spl), h, None)
  | LR_acquire =>
      (* spinlock_acquire(&lock->lock_lock); *)
      '(a, l) ← of_option (load_lock h lock);
      match spinlock_acquire t (lock_lock l) with
      | Some g =>
          Next (goto th (InLR LR_splhigh lock spl), <[a := BLock (set_lock_lock l g)]> h, None)
      | None => Blocked
      end
  | LR_splhigh =>
      (* int spl = splhigh(); *)
      let '(old, th') := splhigh th in
      Next (goto th' (InLR LR_clear lock old), h, None)
  | LR_clear =>
      (* lock->holding_thread = NULL; *)
      '(a, l) ← of_option (load_lock h lock);
      Next (goto th (InLR LR_wake lock spl),
            <[a := BLock (set_holding_thread l None)]> h, None)
  | LR_wake =>
      (* wchan_wakeone(lock->lock_wchan, &lock->lock_lock);  HANGMAN_RELEASE(...); *)
      '(a, l) ← of_option (load_lock h lock);
      '(w, n, q) ← of_option (load_wchan h (lock_wchan l));
      Next (goto th (InLR LR_splx lock spl), <[w := BWchan n (wchan_wakeone k q)]> h, None)
  | LR_splx =>
      (* splx(spl); *)
      Next (goto (splx spl th) (InLR LR_release lock spl), h, None)
  | LR_release =>
      (* spinlock_release(&lock->lock_lock); and return *)
      '(a, l) ← of_option (load_lock h lock);
      Next (goto th Idle,
            <[a := BLock (set_lock_lock l (spinlock_release (lock_lock l)))]> h,
            Some (RetRelease t a))
  end.

(** ** Condition variable: wait, signal, broadcast (synch.c 322-344)

    Each body is [(void)cv; (void)lock;]: it reads nothing, writes nothing
    and returns. *)

Definition cv_wait (t : tid) (th : thread) (c lock : ptr) (h : heap)
  : outcome step_result :=
  Next (goto th Idle, h, Some (RetCvWait t c lock)).

Definition cv_signal (t : tid) (th : thread) (c lock : ptr) (h : heap)
  : outcome step_result :=
  Next (goto th Idle, h, Some (RetCvSignal t c lock)).

Definition cv_broadcast (t : tid) (th : thread) (c lock : ptr) (h : heap)
  : outcome step_result :=
  Next (goto th Idle, h, Some (RetCvBroadcast t c lock)).

(** ** The machine

    One statement of thread [t]; [k] is the scheduler's choice of the
    thread to wake, for the statements that wake one. *)
Definition exec (k : nat) (t : tid) (th : thread) (h : heap) : outcome step_result :=
  match t_pc th with
  | Idle => Blocked
  | InP p sem => P t th p sem h
  | InV p sem => V k t th p sem h
  | InLA p lock spl => lock_acquire t th p lock spl h
  | InLR p lock spl => lock_release k t th p lock spl h
  | InDH p lock => lock_do_i_hold t th p lock h
  | InCW c lock => cv_wait t th c lock h
  | InCS c lock => cv_signal t th c lock h
  | InCB c lock => cv_broadcast t th c lock h
  end.

Inductive op :=
| OpP (sem : ptr)
| OpV (sem : ptr)
| OpLockAcquire (lock : ptr)
| OpLockRelease (lock : ptr)
| OpLockDoIHold (lock : ptr)
| OpCvWait (c lock : ptr)
| OpCvSignal (c lock : ptr)
| OpCvBroadcast (c lock : ptr).

(** The first statement of each function.  The local [spl] of
    [lock_acquire] and [lock_release] is not yet initialised. *)
Definition entry (o : op) : pc :=
  match o with
  | OpP sem => InP P_null sem
  | OpV sem => InV V_null sem
  | OpLockAcquire lock => InLA LA_null lock 0
  | OpLockRelease lock => InLR LR_null lock 0
  | OpLockDoIHold lock => InDH DH_null lock
  | OpCvWait c lock => InCW c lock
  | OpCvSignal c lock => InCS c lock
  | OpCvBroadcast c lock => InCB c lock
  end.

Record kstate := mk_kstate {
  k_heap : heap;
  k_threads : gmap tid thread;
  k_log : list event        (* newest first *)
}.

(** What the scheduler and the callers decide: an idle thread calls an
    operation, from an interrupt handler or not; or a thread runs its next
    statement. *)
Inductive label :=
| Call (t : tid) (in_interrupt : bool) (o : op)
| Run (t : tid) (k : nat).

Definition step (lb : label) (s : kstate) : outcome kstate :=
  match lb with
  | Call t intr o =>
      match k_threads s !! t with
      | Some th =>
          match t_pc th with
          | Idle =>
              Next (mk_kstate (k_heap s)
                      (<[t := mk_thread intr (t_curspl th) (entry o)]> (k_threads s))
                      (k_log s))
          | _ => Blocked
          end
      | None => Blocked
      end
  | Run t k =>
      match k_threads s !! t with
      | Some th =>
          '(th', h', ev) ← exec k t th (k_heap s);
          Next (mk_kstate h' (<[t := th']> (k_threads s)) (option_list ev ++ k_log s))
      | None => Blocked
      end
  end.

Fixpoint run (ls : list label) (s : kstate) : outcome kstate :=
  match ls with
  | [] => Next s
  | lb :: ls' => s' ← step lb s; run ls' s'
  end.

(** * Specification vocabulary *)

(** ** Creation *)

(** One of the next [n] allocation requests fails. *)
Definition alloc_fails (n : nat) (av : list bool) : bool :=
  negb (forallb id (take n av)).

(** A create function that makes [n] allocations, run from [m], ended in
    [r]: it returned [NULL] exactly when an allocation failed, and then the
    heap is the one before the call, so that everything the call had
    allocated has been freed; otherwise it returned a live block. *)
Definition unwinds (n : nat) (m : mem) (r : outcome (ptr * mem)) : Prop :=
  match r with
  | Next (None, m') => alloc_fails n (m_avail m) = true /\ m_heap m' = m_heap m
  | Next (Some a, m') => alloc_fails n (m_avail m) = false /\ is_Some (m_heap m' !! a)
  | _ => False
  end.

(** ** Runs of the machine *)

(** The run goes through, and the state it ends in. *)
Definition completes (ls : list label) (s : kstate) : bool :=
  match run ls s with
  | Next _ => true
  | _ => false
  end.

Definition after (ls : list label) (s : kstate) : kstate :=
  match run ls s with
  | Next s' => s'
  | _ => s
  end.

(** Where thread [t] is. *)
Definition pc_of (s : kstate) (t : tid) : option pc := t_pc <$> k_threads s !! t.

(** No thread is inside an operation. *)
Definition quiescent (s : kstate) : Prop :=
  forall t th, k_threads s !! t = Some th -> t_pc th = Idle.

(** The pointer is the address [a]. *)
Definition on (a : addr) (p : ptr) : bool := bool_decide (p = Some a).

(** ** Locks *)

(** The thread is inside [lock_acquire] or [lock_release] on the lock at
    [a]. *)
Definition in_lock_call (a : addr) (p : pc) : bool :=
  match p with
  | InLA _ lock _ | InLR _ lock _ => on a lock
  | _ => false
  end.

(** The statements of [lock_acquire] and [lock_release] between
    [spinlock_acquire] and [spinlock_release], a sleep on the wait channel
    apart. *)
Definition LA_guarded (p : LA_point) : bool :=
  match p with
  | LA_splhigh | LA_test | LA_sleep | LA_set | LA_splx | LA_release => true
  | _ => false
  end.

Definition LR_guarded (p : LR_point) : bool :=
  match p with
  | LR_splhigh | LR_clear | LR_wake | LR_splx | LR_release => true
  | _ => false
  end.

Definition guards (a : addr) (p : pc) : bool :=
  match p with
  | InLA q lock _ => on a lock && LA_guarded q
  | InLR q lock _ => on a lock && LR_guarded q
  | _ => false
  end.

(** The thread has found the lock free and is about to take it. *)
Definition sees_free (a : addr) (p : pc) : bool :=
  match p with
  | InLA LA_set lock _ => on a lock
  | _ => false
  end.

(** The thread has made itself the holder and [lock_acquire] has not yet
    returned. *)
Definition acquiring (a : addr) (p : pc) : bool :=
  match p with
  | InLA (LA_splx | LA_release) lock _ => on a lock
  | _ => false
  end.

(** The thread has passed the holder check of [lock_release] and has not
    yet cleared the holder. *)
Definition checked (a : addr) (p : pc) : bool :=
  match p with
  | InLR (LR_acquire | LR_splhigh | LR_clear) lock _ => on a lock
  | _ => false
  end.

(** The thread has cleared the holder and [lock_release] has not yet
    returned. *)
Definition releasing (a : addr) (p : pc) : bool :=
  match p with
  | InLR (LR_wake | LR_splx | LR_release) lock _ => on a lock
  | _ => false
  end.

(** The statements executed at the highest interrupt priority level. *)
Definition at_splhigh (p : pc) : bool :=
  match p with
  | InLA (LA_test | LA_sleep | LA_asleep | LA_set | LA_splx) _ _ => true
  | InLR (LR_clear | LR_wake | LR_splx) _ _ => true
  | _ => false
  end.

(** What thread [t], at point [p], knows of the lock [l] at [a]. *)
Definition lock_thread_inv (a : addr) (l : lock) (t : tid) (p : pc) : Prop :=
  (guards a p = true -> lock_lock l = Some t) /\
  (sees_free a p = true -> holding_thread l = None) /\
  (acquiring a p = true -> holding_thread l = Some t) /\
  (checked a p = true -> holding_thread l = Some t) /\
  (releasing a p = true -> holding_thread l = None).

(** The thread whose [lock_acquire] of the lock at [a] returned last with
    no [lock_release] of it returned since, according to the log. *)
Fixpoint owner (a : addr) (log : list event) : option tid :=
  match log with
  | [] => None
  | RetAcquire t a' :: log' => if bool_decide (a' = a) then Some t else owner a log'
  | RetRelease t a' :: log' => if bool_decide (a' = a) then None else owner a log'
  | _ :: log' => owner a log'
  end.

(** A lock as [lock_create] leaves it, before any thread has called
    [lock_acquire] or [lock_release] on it; the threads may be anywhere
    else. *)
Definition lock_initial (a : addr) (s : kstate) : Prop :=
  (exists l, k_heap s !! a = Some (BLock l) /\
             holding_thread l = None /\ lock_lock l = None) /\
  (forall t th, k_threads s !! t = Some th ->
     in_lock_call a (t_pc th) = false /\
     (at_splhigh (t_pc th) = true -> t_curspl th = IPL_HIGH)) /\
  owner a (k_log s) = None.

(** The holder field against the log. *)
Definition lock_log_inv (a : addr) (l : lock) (ths : gmap tid thread) (log : list event)
  : Prop :=
  (forall t th, ths !! t = Some th -> acquiring a (t_pc th) = true -> owner a log = None) /\
  (forall t th, ths !! t = Some th -> releasing a (t_pc th) = true -> owner a log = Some t) /\
  ((forall t th, ths !! t = Some th ->
      acquiring a (t_pc th) = false /\ releasing a (t_pc th) = false) ->
   holding_thread l = owner a log).

Definition lock_inv (a : addr) (s : kstate) : Prop :=
  exists l, k_heap s !! a = Some (BLock l) /\
    (forall t th, k_threads s !! t = Some th ->
       lock_thread_inv a l t (t_pc th) /\
       (at_splhigh (t_pc th) = true -> t_curspl th = IPL_HIGH)) /\
    lock_log_inv a l (k_threads s) (k_log s).

(** The event does not concern acquisitions and releases of the lock at
    [a]. *)
Definition neutral (a : addr) (ev : option event) : bool :=
  match ev with
  | Some (RetAcquire _ a') | Some (RetRelease _ a') => negb (bool_decide (a' = a))
  | _ => true
  end.

(** What one statement of thread [t] does to the lock at [a]: the thread
    goes from point [p] to [p'], the lock from [l] to [l'], and [ev] is
    logged. *)
Inductive lock_effect (a : addr) (t : tid) :
  pc -> lock -> pc -> lock -> option event -> Prop :=
| eff_off p p' l ev :
    (* a statement that knows nothing of this lock *)
    guards a p = false -> checked a p = false ->
    guards a p' = false -> checked a p' = false ->
    neutral a ev = true ->
    lock_effect a t p l p' l ev
| eff_check p p' l :
    (* the holder check of lock_release passes *)
    guards a p = false -> guards a p' = false ->
    holding_thread l = Some t ->
    lock_effect a t p l p' l None
| eff_take p p' l :
    (* spinlock_acquire, also on the way out of wchan_sleep *)
    lock_lock l = None ->
    guards a p = false -> guards a p' = true ->
    sees_free a p' = false -> acquiring a p' = false -> releasing a p' = false ->
    checked a p' = checked a p ->
    lock_effect a t p l p' (set_lock_lock l (Some t)) None
| eff_sleep p p' l :
    (* wchan_sleep lets go of the guard *)
    guards a p = true -> acquiring a p = false -> releasing a p = false ->
    guards a p' = false -> checked a p' = false ->
    lock_effect a t p l p' (set_lock_lock l None) None
| eff_inside p p' l :
    (* a statement under the guard that leaves the lock as it is *)
    guards a p = true -> guards a p' = true ->
    (sees_free a p' = true -> holding_thread l = None) ->
    acquiring a p' = acquiring a p -> releasing a p' = releasing a p ->
    checked a p' = checked a p ->
    lock_effect a t p l p' l None
| eff_set p p' l :
    (* lock->holding_thread = curthread *)
    sees_free a p = true -> acquiring a p' = true ->
    lock_effect a t p l p' (set_holding_thread l (Some t)) None
| eff_clear p p' l :
    (* lock->holding_thread = NULL *)
    guards a p = true -> checked a p = true -> releasing a p' = true ->
    lock_effect a t p l p' (set_holding_thread l None) None
| eff_ret_acquire p l :
    (* lock_acquire returns *)
    acquiring a p = true ->
    lock_effect a t p l Idle (set_lock_lock l None) (Some (RetAcquire t a))
| eff_ret_release p l :
    (* lock_release returns *)
    releasing a p = true ->
    lock_effect a t p l Idle (set_lock_lock l None) (Some (RetRelease t a)).

(** The holder discipline of the lock at [a], in state [s]:
    - the lock records at most one holder;
    - a thread about to read the holder in [lock_do_i_hold] is answered
      [true] exactly when it is the thread whose [lock_acquire] returned
      last with no [lock_release] returned since;
    - a step that makes [T] the holder is a step of [T] itself, taken with
      the lock free and the lock's guard held by [T];
    - a step that ends [T] being the holder leaves no holder and is a step of
      [T] itself. *)
Definition holder_discipline (a : addr) (s : kstate) : Prop :=
  exists l, k_heap s !! a = Some (BLock l) /\
    (forall t1 t2, holds l t1 = true -> holds l t2 = true -> t1 = t2) /\
    (forall k t th,
       k_threads s !! t = Some th -> t_pc th = InDH DH_read (Some a) ->
       exists b,
         exec k t th (k_heap s) = Next (goto th Idle, k_heap s, Some (RetDoIHold t a b)) /\
         (b = true <-> owner a (k_log s) = Some t)) /\
    (forall lb s', step lb s = Next s' ->
       exists l', k_heap s' !! a = Some (BLock l') /\
         (forall T, holding_thread l' = Some T -> holding_thread l <> Some T ->
            holding_thread l = None /\ lock_lock l = Some T /\ exists k, lb = Run T k) /\
         (forall T, holding_thread l = Some T -> holding_thread l' <> Some T ->
            holding_thread l' = None /\ exists k, lb = Run T k)).

(** The lock at [a] has its wait channel at [w]. *)
Definition lock_wired (a w : addr) (n : ptr) (s : kstate) : Prop :=
  exists l q, k_heap s !! a = Some (BLock l) /\ lock_wchan l = Some w /\
              k_heap s !! w = Some (BWchan n q).

(** What [lock_release] does on the lock at [a], in state [s], statement by
    statement, for a thread [t] at that statement:
    - the holder check halts the kernel unless [t] is the holder;
    - the holder is cleared by the holder, with the lock's guard held by [t]
      and the interrupt priority level at its highest;
    - in that same region, with the holder cleared, the thread woken is one
      of those asleep on the lock's wait channel if there is any, and nobody
      otherwise. *)
Definition release_discipline (a : addr) (s : kstate) : Prop :=
  exists l w n q,
    k_heap s !! a = Some (BLock l) /\ lock_wchan l = Some w /\
    k_heap s !! w = Some (BWchan n q) /\
    forall k t th sp, k_threads s !! t = Some th ->
      (t_pc th = InLR LR_hold (Some a) sp ->
         exec k t th (k_heap s) =
           if holds l t
           then Next (goto th (InLR LR_acquire (Some a) sp), k_heap s, None)
           else Panic "lock->holding_thread == curthread") /\
      (t_pc th = InLR LR_clear (Some a) sp ->
         holding_thread l = Some t /\ lock_lock l = Some t /\ t_curspl th = IPL_HIGH /\
         exec k t th (k_heap s) =
           Next (goto th (InLR LR_wake (Some a) sp),
                 <[a := BLock (set_holding_thread l None)]> (k_heap s), None)) /\
      (t_pc th = InLR LR_wake (Some a) sp ->
         holding_thread l = None /\ lock_lock l = Some t /\ t_curspl th = IPL_HIGH /\
         exec k t th (k_heap s) =
           Next (goto th (InLR LR_splx (Some a) sp),
                 <[w := BWchan n (wchan_wakeone k q)]> (k_heap s), None) /\
         woken q (wchan_wakeone k q) = (if q is [] then 0 else 1)%nat).

(** The threads asleep on the wait channel at [w]. *)
Definition sleepers_of (s : kstate) (w : addr) : list tid :=
  match k_heap s !! w with
  | Some (BWchan _ q) => q
  | _ => []
  end.

(** ** Semaphores *)

(** The thread is inside [P] or [V] on the semaphore at [a]. *)
Definition in_sem_call (a : addr) (p : pc) : bool :=
  match p with
  | InP _ sem | InV _ sem => on a sem
  | _ => false
  end.

Definition P_guarded (p : P_point) : bool :=
  match p with
  | P_test | P_sleep | P_assert | P_dec | P_release => true
  | _ => false
  end.

Definition V_guarded (p : V_point) : bool :=
  match p with
  | V_inc | V_assert | V_wake | V_release => true
  | _ => false
  end.

Definition sem_guards (a : addr) (p : pc) : bool :=
  match p with
  | InP q sem => on a sem && P_guarded q
  | InV q sem => on a sem && V_guarded q
  | _ => false
  end.

(** The thread has passed [KASSERT(sem->sem_count > 0)] of [P]. *)
Definition sees_positive (a : addr) (p : pc) : bool :=
  match p with
  | InP P_dec sem => on a sem
  | _ => false
  end.

(** The thread has decremented the count and [P] has not yet returned. *)
Definition decremented (a : addr) (p : pc) : bool :=
  match p with
  | InP P_release sem => on a sem
  | _ => false
  end.

(** The thread has incremented the count and not yet asserted it. *)
Definition incrementing (a : addr) (p : pc) : bool :=
  match p with
  | InV V_assert sem => on a sem
  | _ => false
  end.

(** The thread has incremented the count, the assertion passed, and [V] has
    not yet returned. *)
Definition incremented (a : addr) (p : pc) : bool :=
  match p with
  | InV (V_wake | V_release) sem => on a sem
  | _ => false
  end.

(** The calls of [P], and of [V], on the semaphore at [a] that have
    returned. *)
Fixpoint completed_P (a : addr) (log : list event) : Z :=
  match log with
  | [] => 0
  | RetP _ a' :: log' => (if bool_decide (a' = a) then 1 else 0) + completed_P a log'
  | _ :: log' => completed_P a log'
  end.

Fixpoint completed_V (a : addr) (log : list event) : Z :=
  match log with
  | [] => 0
  | RetV _ a' :: log' => (if bool_decide (a' = a) then 1 else 0) + completed_V a log'
  | _ :: log' => completed_V a log'
  end.

(** The count the completed calls account for. *)
Definition balance (c0 : Z) (a : addr) (log : list event) : Z :=
  c0 - completed_P a log + completed_V a log.

(** A semaphore as [sem_create] leaves it, with count [c0], before any
    thread has called [P] or [V] on it; the threads may be anywhere else. *)
Definition sem_initial (a : addr) (c0 : Z) (s : kstate) : Prop :=
  (exists sm, k_heap s !! a = Some (BSem sm) /\
              sem_count sm = c0 /\ sem_lock sm = None) /\
  0 <= c0 <= UINT_MAX /\
  (forall t th, k_threads s !! t = Some th -> in_sem_call a (t_pc th) = false) /\
  completed_P a (k_log s) = 0 /\ completed_V a (k_log s) = 0.

Definition sem_thread_inv (a : addr) (sm : semaphore) (t : tid) (p : pc) : Prop :=
  (sem_guards a p = true -> sem_lock sm = Some t) /\
  (sees_positive a p = true -> 0 < sem_count sm).

Definition sem_count_inv (c0 : Z) (a : addr) (sm : semaphore) (ths : gmap tid thread)
  (log : list event) : Prop :=
  0 <= sem_count sm <= UINT_MAX /\
  (forall t th, ths !! t = Some th -> decremented a (t_pc th) = true ->
     sem_count sm = balance c0 a log - 1) /\
  (forall t th, ths !! t = Some th -> incrementing a (t_pc th) = true ->
     sem_count sm = wrap (balance c0 a log + 1) /\ 0 <= balance c0 a log <= UINT_MAX) /\
  (forall t th, ths !! t = Some th -> incremented a (t_pc th) = true ->
     sem_count sm = balance c0 a log + 1) /\
  ((forall t th, ths !! t = Some th ->
      decremented a (t_pc th) = false /\ incrementing a (t_pc th) = false /\
      incremented a (t_pc th) = false) ->
   sem_count sm = balance c0 a log).

Definition sem_inv (c0 : Z) (a : addr) (s : kstate) : Prop :=
  exists sm, k_heap s !! a = Some (BSem sm) /\
    (forall t th, k_threads s !! t = Some th -> sem_thread_inv a sm t (t_pc th)) /\
    sem_count_inv c0 a sm (k_threads s) (k_log s).

(** The event is not the return of a [P] or a [V] on the semaphore at
    [a]. *)
Definition sem_neutral (a : addr) (ev : option event) : bool :=
  match ev with
  | Some (RetP _ a') | Some (RetV _ a') => negb (bool_decide (a' = a))
  | _ => true
  end.

(** The thread is in none of the windows between a change of the count and
    the return of the call that made it. *)
Definition settled (a : addr) (p : pc) : Prop :=
  decremented a p = false /\ incrementing a p = false /\ incremented a p = false.

(** What one statement of thread [t] does to the semaphore at [a]. *)
Inductive sem_effect (a : addr) (t : tid) :
  pc -> semaphore -> pc -> semaphore -> option event -> Prop :=
| seff_off p p' sm ev :
    (* a statement that knows nothing of this semaphore *)
    sem_guards a p = false -> sem_guards a p' = false ->
    sem_neutral a ev = true ->
    sem_effect a t p sm p' sm ev
| seff_take p p' sm :
    (* spinlock_acquire, also on the way out of wchan_sleep *)
    sem_lock sm = None ->
    sem_guards a p = false -> sem_guards a p' = true ->
    sees_positive a p' = false -> settled a p' ->
    sem_effect a t p sm p' (set_sem_lock sm (Some t)) None
| seff_sleep p p' sm :
    (* wchan_sleep lets go of the guard *)
    sem_guards a p = true -> settled a p ->
    sem_guards a p' = false ->
    sem_effect a t p sm p' (set_sem_lock sm None) None
| seff_inside p p' sm :
    (* a statement under the guard that leaves the semaphore as it is *)
    sem_guards a p = true -> sem_guards a p' = true ->
    (sees_positive a p' = true -> 0 < sem_count sm) ->
    decremented a p' = decremented a p ->
    incrementing a p' = incrementing a p ->
    incremented a p' = incremented a p ->
    sem_effect a t p sm p' sm None
| seff_dec p p' sm :
    (* sem->sem_count-- *)
    sees_positive a p = true -> decremented a p' = true ->
    sem_effect a t p sm p' (set_sem_count sm (wrap (sem_count sm - 1))) None
| seff_inc p p' sm :
    (* sem->sem_count++ *)
    sem_guards a p = true -> settled a p -> incrementing a p' = true ->
    sem_effect a t p sm p' (set_sem_count sm (wrap (sem_count sm + 1))) None
| seff_pass p p' sm :
    (* KASSERT(sem->sem_count > 0) of V passes *)
    incrementing a p = true -> incremented a p' = true ->
    0 < sem_count sm ->
    sem_effect a t p sm p' sm None
| seff_ret_P p sm :
    (* P returns *)
    decremented a p = true ->
    sem_effect a t p sm Idle (set_sem_lock sm None) (Some (RetP t a))
| seff_ret_V p sm :
    (* V returns *)
    incremented a p = true ->
    sem_effect a t p sm Idle (set_sem_lock sm None) (Some (RetV t a)).

(** The semaphore at [a] has its wait channel at [w]. *)
Definition sem_wired (a w : addr) (n : ptr) (s : kstate) : Prop :=
  exists sm q, k_heap s !! a = Some (BSem sm) /\ sem_wchan sm = Some w /\
               k_heap s !! w = Some (BWchan n q).

(** The accounting of the semaphore at [a], created with count [c0], in
    state [s]:
    - the count is within the range of [unsigned], so never negative;
    - whenever no call is between its change of the count and its return,
      and so whenever the guard is free, the count is [c0] minus the calls of
      [P] that have returned plus the calls of [V] that have returned;
    - a thread about to decrement sees a positive count. *)
Definition sem_accounting (c0 : Z) (a : addr) (s : kstate) : Prop :=
  exists sm, k_heap s !! a = Some (BSem sm) /\
    0 <= sem_count sm <= UINT_MAX /\
    ((forall t th, k_threads s !! t = Some th -> settled a (t_pc th)) ->
     sem_count sm = c0 - completed_P a (k_log s) + completed_V a (k_log s)) /\
    (sem_lock sm = None ->
     sem_count sm = c0 - completed_P a (k_log s) + completed_V a (k_log s)) /\
    (forall t th, k_threads s !! t = Some th -> t_pc th = InP P_dec (Some a) ->
       0 < sem_count sm).

(** What [V] does on the semaphore at [a], created with count [c0], in
    state [s], statement by statement, for a thread [t] at that statement:
    - the count is incremented with the semaphore's guard held by [t], from
      the value the completed calls account for;
    - the assertion after the increment halts the kernel exactly when the
      increment took the count past [UINT_MAX]; otherwise the count is one
      more than before;
    - then at most one of the threads asleep on the wait channel is
      woken. *)
Definition V_discipline (c0 : Z) (a : addr) (s : kstate) : Prop :=
  exists sm w n q,
    k_heap s !! a = Some (BSem sm) /\ sem_wchan sm = Some w /\
    k_heap s !! w = Some (BWchan n q) /\
    forall k t th, k_threads s !! t = Some th ->
      (t_pc th = InV V_inc (Some a) ->
         sem_lock sm = Some t /\ sem_count sm = balance c0 a (k_log s) /\
         exec k t th (k_heap s) =
           Next (goto th (InV V_assert (Some a)),
                 <[a := BSem (set_sem_count sm (wrap (sem_count sm + 1)))]> (k_heap s),
                 None)) /\
      (t_pc th = InV V_assert (Some a) ->
         sem_lock sm = Some t /\
         sem_count sm = wrap (balance c0 a (k_log s) + 1) /\
         exec k t th (k_heap s) =
           if bool_decide (balance c0 a (k_log s) = UINT_MAX)
           then Panic "sem->sem_count > 0"
           else Next (goto th (InV V_wake (Some a)), k_heap s, None)) /\
      (t_pc th = InV V_wake (Some a) ->
         sem_lock sm = Some t /\ sem_count sm = balance c0 a (k_log s) + 1 /\
         exec k t th (k_heap s) =
           Next (goto th (InV V_release (Some a)),
                 <[w := BWchan n (wchan_wakeone k q)]> (k_heap s), None) /\
         (woken q (wchan_wakeone k q) <= 1)%nat).

(** ** Concrete states used in examples *)

(** A lock at address 0 held by thread 7, its guard free and nobody asleep
    on its wait channel (address 2); its name is at address 1. *)
Definition held_lock : lock := mk_lock (Some 1%nat) (Some 7%nat) None (Some 2%nat).

Definition idle_thread : thread := mk_thread false IPL_NONE Idle.

(** A free lock at address 0 and two idle threads, 1 and 2. *)
Definition free_lock : lock := mk_lock (Some 1%nat) None None (Some 2%nat).

Definition free_lock_state : kstate :=
  mk_kstate
    (<[0%nat := BLock free_lock]>
       (<[1%nat := BStr "lk"]> (<[2%nat := BWchan (Some 1%nat) []]> ∅)))
    (<[1%nat := idle_thread]> (<[2%nat := idle_thread]> ∅))
    [].

(** Thread [t] runs [n] statements, the scheduler's choices being 0. *)
Definition runs (t : tid) (n : nat) : list label := repeat (Run t 0%nat) n.

(** Thread 1 acquires the lock at 0; thread 2 calls [lock_acquire] and goes
    to sleep; thread 1 calls [lock_release] and has just cleared the holder
    and woken thread 2. *)
Definition contended_schedule : list label :=
  Call 1%nat false (OpLockAcquire (Some 0%nat)) :: runs 1%nat 9 ++
  Call 2%nat false (OpLockAcquire (Some 0%nat)) :: runs 2%nat 7 ++
  Call 1%nat false (OpLockRelease (Some 0%nat)) :: runs 1%nat 6.

(** Thread 1 acquires the lock at 0, asks whether it holds it and releases
    it; then thread 2 acquires it. *)
Definition takeover_schedule : list label :=
  Call 1%nat false (OpLockAcquire (Some 0%nat)) :: runs 1%nat 9 ++
  Call 1%nat false (OpLockDoIHold (Some 0%nat)) :: runs 1%nat 2 ++
  Call 1%nat false (OpLockRelease (Some 0%nat)) :: runs 1%nat 8 ++
  Call 2%nat false (OpLockAcquire (Some 0%nat)) :: runs 2%nat 9.

(** Thread 1 acquires the lock at 0, nobody else wants it, and thread 1 is
    about to wake a sleeper in [lock_release]. *)
Definition uncontended_schedule : list label :=
  Call 1%nat false (OpLockAcquire (Some 0%nat)) :: runs 1%nat 9 ++
  Call 1%nat false (OpLockRelease (Some 0%nat)) :: runs 1%nat 5.

(** A semaphore at address 0 with count 0 and two idle threads, 1 and 2. *)
Definition empty_sem : semaphore := mk_semaphore (Some 1%nat) (Some 2%nat) None 0.

Definition empty_sem_state : kstate :=
  mk_kstate
    (<[0%nat := BSem empty_sem]>
       (<[1%nat := BStr "sem"]> (<[2%nat := BWchan (Some 1%nat) []]> ∅)))
    (<[1%nat := idle_thread]> (<[2%nat := idle_thread]> ∅))
    [].

(** Thread 1 calls [P] and goes to sleep; thread 2 calls [V], which
    returns; thread 1 wakes up and its [P] returns. *)
Definition handoff_schedule : list label :=
  Call 1%nat false (OpP (Some 0%nat)) :: runs 1%nat 5 ++
  Call 2%nat false (OpV (Some 0%nat)) :: runs 2%nat 6 ++
  runs 1%nat 5.

(** Thread 1 calls [P] and goes to sleep; thread 2 calls [V] and is about
    to wake a sleeper. *)
Definition waking_schedule : list label :=
  Call 1%nat false (OpP (Some 0%nat)) :: runs 1%nat 5 ++
  Call 2%nat false (OpV (Some 0%nat)) :: runs 2%nat 4.

(** A semaphore at address 0 whose count is [UINT_MAX]. *)
Definition full_sem_state : kstate :=
  mk_kstate
    (<[0%nat := BSem (mk_semaphore (Some 1%nat) (Some 2%nat) None UINT_MAX)]>
       (<[1%nat := BStr "sem"]> (<[2%nat := BWchan (Some 1%nat) []]> ∅)))
    (<[1%nat := idle_thread]> (<[2%nat := idle_thread]> ∅))
    [].

Definition held_lock_heap : heap :=
  <[0%nat := BLock held_lock]>
    (<[1%nat := BStr "lk"]> (<[2%nat := BWchan (Some 1%nat) []]> ∅)).

(** ** Further vocabulary *)

(** A semaphore at address 0 on whose wait channel (address 2) nobody is
    asleep; its name is at address 1. *)
Definition idle_sem_heap : heap :=
  <[0%nat := BSem (mk_semaphore (Some 1%nat) (Some 2%nat) None 3)]>
    (<[1%nat := BStr "sem"]> (<[2%nat := BWchan (Some 1%nat) []]> ∅)).

(** A condition variable at address 0, its name at address 1. *)
Definition cv_heap : heap :=
  <[0%nat := BCv (mk_cv (Some 1%nat))]> (<[1%nat := BStr "cv"]> ∅).


(** The interrupt priority level the thread had when it made the call it is
    in: the level itself before [splhigh] and after [splx], the local [spl]
    in between. *)
Definition level_at_call (th : thread) : Z :=
  match t_pc th with
  | InLA (LA_test | LA_sleep | LA_asleep | LA_set | LA_splx) _ spl => spl
  | InLR (LR_clear | LR_wake | LR_splx) _ spl => spl
  | _ => t_curspl th
  end.

(** A block without what [P], [V] and the lock operations may write: the
    count, the holder, the guards and the threads asleep. *)
Definition frame_of (b : block) : block :=
  match b with
  | BSem s => BSem (mk_semaphore (sem_name s) (sem_wchan s) None 0)
  | BLock l => BLock (mk_lock (lk_name l) None None (lock_wchan l))
  | BWchan n _ => BWchan n []
  | BCv c => BCv c
  | BStr s => BStr s
  end.

(** A call of one of the condition variable operations, or a thread running
    its next statement. *)
Definition cv_label (lb : label) : bool :=
  match lb with
  | Call _ _ (OpCvWait _ _ | OpCvSignal _ _ | OpCvBroadcast _ _) => true
  | Call _ _ _ => false
  | Run _ _ => true
  end.

(** The thread is idle or inside a condition variable operation. *)
Definition cv_pc (p : pc) : bool :=
  match p with
  | Idle | InCW _ _ | InCS _ _ | InCB _ _ => true
  | _ => false
  end.

(** Thread [t] runs [n] statements on its own, the scheduler's choices
    being [k]. *)
Definition solo (t : tid) (k : nat) (n : nat) : list label := repeat (Run t k) n.

(** The guard of the lock at [a] is held by exactly the thread that is
    between [spinlock_acquire] and [spinlock_release] of a [lock_acquire]
    or [lock_release] on it, a sleep on the wait channel apart; so at most
    one thread is there, and the guard is free when none is. *)
Definition lock_guard_exact (a : addr) (s : kstate) : Prop :=
  exists l, k_heap s !! a = Some (BLock l) /\
    (forall g, lock_lock l = Some g <->
               exists th, k_threads s !! g = Some th /\ guards a (t_pc th) = true) /\
    (forall t1 t2 th1 th2,
       k_threads s !! t1 = Some th1 -> k_threads s !! t2 = Some th2 ->
       guards a (t_pc th1) = true -> guards a (t_pc th2) = true -> t1 = t2) /\
    ((forall t th, k_threads s !! t = Some th -> in_lock_call a (t_pc th) = false) ->
     lock_lock l = None).

(** The same for the semaphore at [a] and the calls of [P] and [V]. *)
Definition sem_guard_exact (a : addr) (s : kstate) : Prop :=
  exists sm, k_heap s !! a = Some (BSem sm) /\
    (forall g, sem_lock sm = Some g <->
               exists th, k_threads s !! g = Some th /\ sem_guards a (t_pc th) = true) /\
    (forall t1 t2 th1 th2,
       k_threads s !! t1 = Some th1 -> k_threads s !! t2 = Some th2 ->
       sem_guards a (t_pc th1) = true -> sem_guards a (t_pc th2) = true -> t1 = t2) /\
    ((forall t th, k_threads s !! t = Some th -> in_sem_call a (t_pc th) = false) ->
     sem_lock sm = None).

(** The holder of the guard is inside the guarded statements. *)
Definition lock_guard_inside (a : addr) (s : kstate) : Prop :=
  forall l g, k_heap s !! a = Some (BLock l) -> lock_lock l = Some g ->
    exists th, k_threads s !! g = Some th /\ guards a (t_pc th) = true.

Definition sem_guard_inside (a : addr) (s : kstate) : Prop :=
  forall sm g, k_heap s !! a = Some (BSem sm) -> sem_lock sm = Some g ->
    exists th, k_threads s !! g = Some th /\ sem_guards a (t_pc th) = true.

(** ** Further concrete states *)

(** The semaphore of [idle_sem_heap], count 3, and two idle threads, 1
    and 2. *)
Definition idle_sem : semaphore := mk_semaphore (Some 1%nat) (Some 2%nat) None 3.

Definition idle_sem_state : kstate :=
  mk_kstate idle_sem_heap (<[1%nat := idle_thread]> (<[2%nat := idle_thread]> ∅)) [].

(** A lock at address 0 held by thread 1, with thread 3 asleep on its wait
    channel, and two idle threads, 1 and 2. *)
Definition taken_lock : lock := mk_lock (Some 1%nat) (Some 1%nat) None (Some 2%nat).

Definition taken_lock_state : kstate :=
  mk_kstate
    (<[0%nat := BLock taken_lock]>
       (<[1%nat := BStr "lk"]> (<[2%nat := BWchan (Some 1%nat) [3%nat]]> ∅)))
    (<[1%nat := idle_thread]> (<[2%nat := idle_thread]> ∅))
    [RetAcquire 1%nat 0%nat].

(** Thread 1 acquires the lock at 0. *)
Definition acquire_schedule : list label :=
  Call 1%nat false (OpLockAcquire (Some 0%nat)) :: runs 1%nat 9.

(** ** A call from its entry to its return *)

(** Thread [t] calls [lock_release] on the lock at [a], from an interrupt
    handler or not, and runs [i] statements of it on its own. *)
Definition release_by (t : tid) (intr : bool) (a : addr) (k i : nat) : list label :=
  Call t intr (OpLockRelease (Some a)) :: solo t k i.

(** Thread [t] calls [V] on the semaphore at [a] and runs [i] statements of
    it on its own. *)
Definition V_by (t : tid) (intr : bool) (a : addr) (k i : nat) : list label :=
  Call t intr (OpV (Some a)) :: solo t k i.

(** What a call of [lock_release] on the lock at [a], made in state [s] by
    the idle thread [t], does from its first statement to its return:
    - it halts the kernel at its second statement, the holder check, when
      [t] is not the holder;
    - the holder cannot get past [spinlock_acquire] while another thread
      has the lock's guard;
    - with the guard free the holder reaches the atomic region after four
      statements: it has the guard and the interrupt priority level is at
      its highest.  There the fifth statement sets the holder to none and
      the sixth wakes one of the threads asleep on the wait channel if there
      is any and none otherwise; the call returns after eight statements
      with the holder none, the guard free and the level as it was. *)
Definition release_call (a w : addr) (n : ptr) (s : kstate) (t : tid) (th : thread)
  (intr : bool) (k : nat) : Prop :=
  exists l q,
    k_heap s !! a = Some (BLock l) /\ lock_wchan l = Some w /\
    k_heap s !! w = Some (BWchan n q) /\
    (holding_thread l <> Some t ->
       run (release_by t intr a k 2) s = Panic "lock->holding_thread == curthread") /\
    (holding_thread l = Some t -> lock_lock l <> None ->
       run (release_by t intr a k 3) s = Blocked) /\
    (holding_thread l = Some t -> lock_lock l = None ->
       let inside p := <[t := mk_thread intr IPL_HIGH (InLR p (Some a) (t_curspl th))]>
                         (k_threads s) in
       let guarded := set_lock_lock l (Some t) in
       let cleared := set_holding_thread guarded None in
       run (release_by t intr a k 4) s
       = Next (mk_kstate (<[a := BLock guarded]> (k_heap s)) (inside LR_clear) (k_log s)) /\
       run (release_by t intr a k 5) s
       = Next (mk_kstate (<[a := BLock cleared]> (k_heap s)) (inside LR_wake) (k_log s)) /\
       run (release_by t intr a k 6) s
       = Next (mk_kstate (<[w := BWchan n (wchan_wakeone k q)]>
                            (<[a := BLock cleared]> (k_heap s)))
                 (inside LR_splx) (k_log s)) /\
       woken q (wchan_wakeone k q) = (if q is [] then 0 else 1)%nat /\
       run (release_by t intr a k 8) s
       = Next (mk_kstate (<[w := BWchan n (wchan_wakeone k q)]>
                            (<[a := BLock (set_holding_thread l None)]> (k_heap s)))
                 (<[t := mk_thread intr (t_curspl th) Idle]> (k_threads s))
                 (RetRelease t a :: k_log s))).

(** What a call of [V] on the semaphore at [a], made in state [s] by the
    idle thread [t], does from its first statement to its return:
    - it cannot get past [spinlock_acquire] while another thread has the
      semaphore's guard;
    - with the guard free it has the guard after two statements, and the
      third increments the count, in 32 bits;
    - when the count was [UINT_MAX] the increment has wrapped to 0 and the
      fourth statement, the assertion, halts the kernel;
    - otherwise the count is one more than it was, the fifth statement
      wakes at most one of the threads asleep on the wait channel, and the
      call returns after six statements with the guard free. *)
Definition V_call (a w : addr) (n : ptr) (s : kstate) (t : tid) (th : thread)
  (intr : bool) (k : nat) : Prop :=
  exists sm q,
    k_heap s !! a = Some (BSem sm) /\ sem_wchan sm = Some w /\
    k_heap s !! w = Some (BWchan n q) /\
    0 <= sem_count sm <= UINT_MAX /\
    (sem_lock sm <> None -> run (V_by t intr a k 2) s = Blocked) /\
    (sem_lock sm = None ->
       let inside p := <[t := mk_thread intr (t_curspl th) (InV p (Some a))]>
                         (k_threads s) in
       let guarded := set_sem_lock sm (Some t) in
       let counted := set_sem_count guarded (wrap (sem_count sm + 1)) in
       run (V_by t intr a k 2) s
       = Next (mk_kstate (<[a := BSem guarded]> (k_heap s)) (inside V_inc) (k_log s)) /\
       run (V_by t intr a k 3) s
       = Next (mk_kstate (<[a := BSem counted]> (k_heap s)) (inside V_assert) (k_log s)) /\
       (sem_count sm = UINT_MAX ->
          sem_count counted = 0 /\
          run (V_by t intr a k 4) s = Panic "sem->sem_count > 0") /\
       (sem_count sm < UINT_MAX ->
          sem_count counted = sem_count sm + 1 /\
          run (V_by t intr a k 4) s
          = Next (mk_kstate (<[a := BSem counted]> (k_heap s)) (inside V_wake) (k_log s)) /\
          run (V_by t intr a k 5) s
          = Next (mk_kstate (<[w := BWchan n (wchan_wakeone k q)]>
                               (<[a := BSem counted]> (k_heap s)))
                    (inside V_release) (k_log s)) /\
          (woken q (wchan_wakeone k q) <= 1)%nat /\
          run (V_by t intr a k 6) s
          = Next (mk_kstate (<[w := BWchan n (wchan_wakeone k q)]>
                               (<[a := BSem (set_sem_count sm (sem_count sm + 1))]>
                                  (k_heap s)))
                    (<[t := mk_thread intr (t_curspl th) Idle]> (k_threads s))
                    (RetV t a :: k_log s)))).

(** ** Reachable states for the calls *)

(** Thread 1 holds the lock at 0 and thread 2 has gone to sleep in
    [lock_acquire]. *)
Definition sleeper_schedule : list label :=
  acquire_schedule ++ Call 2%nat false (OpLockAcquire (Some 0%nat)) :: runs 2%nat 7.

Definition queued_lock_state : kstate := after sleeper_schedule free_lock_state.

(** Thread 1 holds the lock at 0 and thread 2, in [lock_acquire], has just
    taken the guard. *)
Definition guarding_schedule : list label :=
  acquire_schedule ++ Call 2%nat false (OpLockAcquire (Some 0%nat)) :: runs 2%nat 4.

Definition guarded_lock_state : kstate := after guarding_schedule free_lock_state.

(** Thread 1 has gone to sleep in [P] on the semaphore at 0. *)
Definition P_asleep_schedule : list label :=
  Call 1%nat false (OpP (Some 0%nat)) :: runs 1%nat 5.

Definition queued_sem_state : kstate := after P_asleep_schedule empty_sem_state.

(** Thread 1, in [P], has just taken the guard of the semaphore at 0. *)
Definition P_guarding_schedule : list label :=
  Call 1%nat false (OpP (Some 0%nat)) :: runs 1%nat 3.

Definition guarded_sem_state : kstate := after P_guarding_schedule empty_sem_state.

(** The semaphore of [full_sem_state]. *)
Definition full_sem : semaphore :=
  mk_semaphore (Some 1%nat) (Some 2%nat) None UINT_MAX.

(** * Verification *)

(** ** Equations of the memory operations *)

Lemma bind_unfold {A B : Type} (c : M A) (k : A -> M B) (m : mem) :
  bind c k m = obind (c m) (fun am => k (fst am) (snd am)).
Proof. reflexivity. Qed.

Lemma alloc_fail (b : block) (h : heap) (av : list bool) :
  alloc b (mk_mem h (false :: av)) = Next (None, mk_mem h av).
Proof. reflexivity. Qed.

Lemma alloc_ok (b : block) (h : heap) (av : list bool) :
  alloc b (mk_mem h (true :: av))
  = Next (Some (fresh (dom h)), mk_mem (<[fresh (dom h) := b]> h) av).
Proof. reflexivity. Qed.

Lemma alloc_ok_nil (b : block) (h : heap) :
  alloc b (mk_mem h [])
  = Next (Some (fresh (dom h)), mk_mem (<[fresh (dom h) := b]> h) []).
Proof. reflexivity. Qed.

Lemma fresh_None (h : heap) : h !! fresh (dom h) = None.
Proof. apply not_elem_of_dom, is_fresh. Qed.

Lemma read_sem_eq (a : addr) (s : semaphore) (h : heap) (av : list bool) :
  h !! a = Some (BSem s) -> read_sem (Some a) (mk_mem h av) = Next (s, mk_mem h av).
Proof. intros H. unfold read_sem, load_sem. simpl. by rewrite H. Qed.

Lemma write_sem_eq (a : addr) (s : semaphore) f (h : heap) (av : list bool) :
  h !! a = Some (BSem s) ->
  write_sem (Some a) f (mk_mem h av) = Next (tt, mk_mem (<[a := BSem (f s)]> h) av).
Proof. intros H. unfold write_sem, load_sem. simpl. by rewrite H. Qed.

Lemma read_lock_eq (a : addr) (l : lock) (h : heap) (av : list bool) :
  h !! a = Some (BLock l) -> read_lock (Some a) (mk_mem h av) = Next (l, mk_mem h av).
Proof. intros H. unfold read_lock, load_lock. simpl. by rewrite H. Qed.

Lemma write_lock_eq (a : addr) (l : lock) f (h : heap) (av : list bool) :
  h !! a = Some (BLock l) ->
  write_lock (Some a) f (mk_mem h av) = Next (tt, mk_mem (<[a := BLock (f l)]> h) av).
Proof. intros H. unfold write_lock, load_lock. simpl. by rewrite H. Qed.

Lemma read_cv_eq (a : addr) (c : cv) (h : heap) (av : list bool) :
  h !! a = Some (BCv c) -> read_cv (Some a) (mk_mem h av) = Next (c, mk_mem h av).
Proof. intros H. unfold read_cv, load_cv. simpl. by rewrite H. Qed.

Lemma write_cv_eq (a : addr) (c : cv) f (h : heap) (av : list bool) :
  h !! a = Some (BCv c) ->
  write_cv (Some a) f (mk_mem h av) = Next (tt, mk_mem (<[a := BCv (f c)]> h) av).
Proof. intros H. unfold write_cv, load_cv. simpl. by rewrite H. Qed.

Lemma kfree_eq (a : addr) (b : block) (h : heap) (av : list bool) :
  h !! a = Some b -> kfree (Some a) (mk_mem h av) = Next (tt, mk_mem (delete a h) av).
Proof. intros H. unfold kfree. simpl. by rewrite H. Qed.

Lemma wchan_destroy_eq (w : addr) (n : ptr) (q : list tid) (h : heap) (av : list bool) :
  h !! w = Some (BWchan n q) ->
  wchan_destroy (Some w) (mk_mem h av)
  = if bool_decide (q = []) then Next (tt, mk_mem (delete w h) av)
    else Panic "threadlist_isempty(&wc->wc_threads)".
Proof.
  intros H. unfold wchan_destroy, load_wchan. simpl. rewrite H.
  rewrite bind_unfold. unfold lift, KASSERT.
  case_bool_decide; cbn [obind fst snd]; [|done]. by erewrite kfree_eq.
Qed.

Lemma lift_cleanup_free (m : mem) :
  lift (spinlock_cleanup None) m = Next (tt, m).
Proof. reflexivity. Qed.

Ltac mem_lookup := simplify_map_eq; try done.

(** Run the next operation of a program in [M]. *)
Ltac mstep :=
  rewrite bind_unfold;
  first
    [ rewrite alloc_fail
    | rewrite alloc_ok
    | rewrite alloc_ok_nil
    | erewrite read_sem_eq by mem_lookup
    | erewrite write_sem_eq by mem_lookup
    | erewrite read_lock_eq by mem_lookup
    | erewrite write_lock_eq by mem_lookup
    | erewrite read_cv_eq by mem_lookup
    | erewrite write_cv_eq by mem_lookup
    | erewrite kfree_eq by mem_lookup
    | erewrite wchan_destroy_eq by mem_lookup
    | rewrite lift_cleanup_free ];
  cbn [obind fst snd is_null ret m_heap m_avail
       set_sem_name set_sem_wchan set_sem_lock set_sem_count sem_name sem_wchan
       set_lk_name set_lock_wchan set_lock_lock set_holding_thread lk_name lock_wchan
       lock_lock sem_lock spinlock_init cv_name].

(** Name the address of the block just allocated, with the fact that it
    was not live. *)
Ltac name_fresh :=
  match goal with
  | |- context [fresh (dom ?h)] =>
      let F := fresh "F" in
      let a := fresh "a" in
      pose proof (fresh_None h) as F;
      generalize dependent (fresh (dom h)); intros a F;
      repeat (rewrite lookup_insert_None in F; destruct F as [F ?])
  end.

(** Two heaps built from the same one by inserts and deletes are equal. *)
Ltac heap_eq :=
  apply map_eq; intros ?i;
  repeat (rewrite lookup_insert || rewrite lookup_delete);
  repeat case_decide; simplify_eq; first [done | congruence].

Ltac mrun := repeat (mstep; try name_fresh).

(** [sem_create]: the result is [NULL] exactly when one of its three
    allocations fails, and then the heap is as before the call; otherwise
    the semaphore, its name and its wait channel are three new blocks. *)
Lemma sem_create_spec (name : string) (c : Z) (m : mem) :
  match sem_create name c m with
  | Next (None, m') => alloc_fails 3 (m_avail m) = true /\ m_heap m' = m_heap m
  | Next (Some a, m') =>
      alloc_fails 3 (m_avail m) = false /\
      exists nm w,
        m_heap m' = <[a := BSem (mk_semaphore (Some nm) (Some w) spinlock_init c)]>
                      (<[w := BWchan (Some nm) []]> (<[nm := BStr name]> (m_heap m))) /\
        m_heap m !! a = None /\ m_heap m !! nm = None /\ m_heap m !! w = None /\
        a <> nm /\ a <> w /\ nm <> w
  | _ => False
  end.
Proof.
  destruct m as [h av].
  unfold sem_create, kmalloc, kstrdup, wchan_create, raw_sem.
  destruct av as [|[] [|[] [|[] av]]]; mrun; simpl;
    (split; [done|]); try heap_eq.
  all: match goal with
       | |- context [<[?w := BWchan (Some ?nm) _]> _] => exists nm, w
       end; split_and!; try done; heap_eq.
Qed.

Lemma lock_create_spec (name : string) (m : mem) :
  match lock_create name m with
  | Next (None, m') => alloc_fails 3 (m_avail m) = true /\ m_heap m' = m_heap m
  | Next (Some a, m') =>
      alloc_fails 3 (m_avail m) = false /\
      exists nm w,
        m_heap m' = <[a := BLock (mk_lock (Some nm) None spinlock_init (Some w))]>
                      (<[w := BWchan (Some nm) []]> (<[nm := BStr name]> (m_heap m))) /\
        m_heap m !! a = None /\ m_heap m !! nm = None /\ m_heap m !! w = None /\
        a <> nm /\ a <> w /\ nm <> w
  | _ => False
  end.
Proof.
  destruct m as [h av].
  unfold lock_create, kmalloc, kstrdup, wchan_create, raw_lock.
  destruct av as [|[] [|[] [|[] av]]]; mrun; simpl;
    (split; [done|]); try heap_eq.
  all: match goal with
       | |- context [<[?w := BWchan (Some ?nm) _]> _] => exists nm, w
       end; split_and!; try done; heap_eq.
Qed.

Lemma cv_create_spec (name : string) (m : mem) :
  match cv_create name m with
  | Next (None, m') => alloc_fails 2 (m_avail m) = true /\ m_heap m' = m_heap m
  | Next (Some a, m') =>
      alloc_fails 2 (m_avail m) = false /\
      exists nm,
        m_heap m' = <[a := BCv (mk_cv (Some nm))]> (<[nm := BStr name]> (m_heap m)) /\
        m_heap m !! a = None /\ m_heap m !! nm = None /\ a <> nm
  | _ => False
  end.
Proof.
  destruct m as [h av].
  unfold cv_create, kmalloc, kstrdup, raw_cv.
  destruct av as [|[] [|[] av]]; mrun; simpl;
    (split; [done|]); try heap_eq.
  all: match goal with
       | |- context [<[?nm := BStr _]> _] => exists nm
       end; split_and!; try done; heap_eq.
Qed.

(** ** Creation *)

(** C9: for each of [sem_create], [lock_create] and [cv_create], if one of
    the allocations the call makes fails (the structure, the name string,
    the wait channel), the call returns [NULL] and leaves the heap exactly
    as it was before the call, so everything it had allocated has been
    freed; it returns a live block only when every allocation succeeded, and
    it never halts or faults. *)
Theorem create_unwinds_on_allocation_failure (name : string) (c : Z) (m : mem) :
  unwinds 3 m (sem_create name c m) /\
  unwinds 3 m (lock_create name m) /\
  unwinds 2 m (cv_create name m).
Proof.
  split_and!.
  - pose proof (sem_create_spec name c m) as H. unfold unwinds.
    destruct (sem_create name c m) as [[[a|] m']| | |]; try done.
    destruct H as (? & nm & w & -> & _). split; [done|].
    rewrite lookup_insert_eq. by eexists.
  - pose proof (lock_create_spec name m) as H. unfold unwinds.
    destruct (lock_create name m) as [[[a|] m']| | |]; try done.
    destruct H as (? & nm & w & -> & _). split; [done|].
    rewrite lookup_insert_eq. by eexists.
  - pose proof (cv_create_spec name m) as H. unfold unwinds.
    destruct (cv_create name m) as [[[a|] m']| | |]; try done.
    destruct H as (? & nm & -> & _). split; [done|].
    rewrite lookup_insert_eq. by eexists.
Qed.

(** ** Destruction *)

(** Creating a primitive and destroying it gives the heap back. *)
Example create_then_destroy :
  (sem <- sem_create "s" 3 ;; sem_destroy sem) (mk_mem ∅ []) = Next (tt, mk_mem ∅ []) /\
  (lk <- lock_create "l" ;; lock_destroy lk) (mk_mem ∅ []) = Next (tt, mk_mem ∅ []) /\
  (c <- cv_create "c" ;; cv_destroy c) (mk_mem ∅ []) = Next (tt, mk_mem ∅ []).
Proof. split_and!; vm_compute; reflexivity. Qed.

(** Destroying a semaphore on whose wait channel a thread is asleep halts
    the kernel. *)
Example sem_destroy_with_waiter :
  sem_destroy (Some 0%nat)
    (mk_mem (<[0%nat := BSem (mk_semaphore (Some 1%nat) (Some 2%nat) None 0)]>
               (<[1%nat := BStr "s"]> (<[2%nat := BWchan (Some 1%nat) [5%nat]]> ∅))) [])
  = Panic "threadlist_isempty(&wc->wc_threads)".
Proof. vm_compute. reflexivity. Qed.

(** A held lock with no waiters is destroyed without complaint. *)
Lemma lock_destroy_held_lock_succeeds :
  load_lock held_lock_heap (Some 0%nat) = Some (0%nat, held_lock) /\
  holding_thread held_lock = Some 7%nat /\
  lock_destroy (Some 0%nat) (mk_mem held_lock_heap []) = Next (tt, mk_mem ∅ []).
Proof. split_and!; vm_compute; reflexivity. Qed.

(** C6, amended: [lock_destroy] of a lock whose guard is free is fatal
    exactly when a thread is queued on the lock's wait channel; whether a
    holder is set is not looked at.  With nobody queued it succeeds and
    frees the wait channel, the name and the structure. *)
Theorem lock_destroy_fatal_iff_waiters (a w nm : addr) (l : lock) (n : ptr)
  (q : list tid) (str : string) (m : mem) :
  m_heap m !! a = Some (BLock l) ->
  lock_wchan l = Some w -> m_heap m !! w = Some (BWchan n q) ->
  lk_name l = Some nm -> m_heap m !! nm = Some (BStr str) ->
  lock_lock l = None ->
  lock_destroy (Some a) m =
    if bool_decide (q = [])
    then Next (tt, mk_mem (delete a (delete nm (delete w (m_heap m)))) (m_avail m))
    else Panic "threadlist_isempty(&wc->wc_threads)".
Proof.
  destruct m as [h av]. simpl. intros Ha Hw Hhw Hnm Hhnm Hg.
  unfold lock_destroy.
  rewrite bind_unfold. simpl.
  mstep. rewrite Hg. mstep. rewrite Hw. mstep.
  case_bool_decide; [|done].
  cbn [obind fst snd]. rewrite Hnm.
  assert (nm <> w) by (intros ->; congruence).
  assert (a <> w) by (intros ->; congruence).
  assert (a <> nm) by (intros ->; congruence).
  mstep. erewrite kfree_eq by mem_lookup. done.
Qed.

Lemma lock_destroy_fatal_iff_waiters_witness :
  lock_destroy (Some 0%nat) (mk_mem held_lock_heap []) =
  Next (tt, mk_mem (delete 0%nat (delete 1%nat (delete 2%nat held_lock_heap))) []).
Proof.
  apply (lock_destroy_fatal_iff_waiters 0%nat 2%nat 1%nat held_lock (Some 1%nat) []
           "lk" (mk_mem held_lock_heap [])); reflexivity.
Defined.

(** ** The lock protocol *)

(** Use every implication whose premise is at hand. *)
Ltac saturate :=
  repeat match goal with
         | H : ?Q -> _, H' : ?Q |- _ =>
             match type of Q with Prop => specialize (H H') end
         | H : ?x = ?x -> _ |- _ => specialize (H eq_refl)
         end.

(** Replace a predicate of the new program point by the one of the old it
    is equal to. *)
Ltac same_as_before :=
  repeat match goal with
         | H : ?f ?a (t_pc ?th') = ?g ?a (t_pc ?th) |- _ => rewrite H in *; clear H
         end.

Section lock_protocol.
Context (a : addr).

Lemma guards_of_sees_free p : sees_free a p = true -> guards a p = true.
Proof. destruct p as [| | |[] ? ?| | | | |]; simpl; try done. by rewrite andb_true_r. Qed.

Lemma guards_of_acquiring p : acquiring a p = true -> guards a p = true.
Proof. destruct p as [| | |[] ? ?| | | | |]; simpl; try done; by rewrite andb_true_r. Qed.

Lemma guards_of_releasing p : releasing a p = true -> guards a p = true.
Proof. destruct p as [| | | |[] ? ?| | | |]; simpl; try done; by rewrite andb_true_r. Qed.

Lemma not_acquiring_and_releasing p :
  acquiring a p = true -> releasing a p = true -> False.
Proof. by destruct p as [| | |[] ? ?| | | | |]. Qed.

Lemma not_acquiring_and_checked p :
  acquiring a p = true -> checked a p = true -> False.
Proof. by destruct p as [| | |[] ? ?| | | | |]. Qed.

Lemma not_sees_free_and_acquiring p :
  sees_free a p = true -> acquiring a p = true -> False.
Proof. by destruct p as [| | |[] ? ?| | | | |]. Qed.

Lemma owner_neutral ev log : neutral a ev = true -> owner a (option_list ev ++ log) = owner a log.
Proof.
  destruct ev as [[]|]; simpl; try done;
    case_bool_decide; simpl; done.
Qed.

Lemma not_releasing_and_checked p :
  releasing a p = true -> checked a p = true -> False.
Proof. by destruct p as [| | | |[] ? ?| | | |]. Qed.

Lemma not_sees_free_and_releasing p :
  sees_free a p = true -> releasing a p = true -> False.
Proof. by destruct p as [| | |[] ? ?| | | | |]. Qed.

Lemma not_sees_free_and_checked p :
  sees_free a p = true -> checked a p = true -> False.
Proof. by destruct p as [| | |[] ? ?| | | | |]. Qed.

(** One statement of thread [t] keeps what every thread knows of the
    lock. *)
Lemma lock_effect_threads t th th' l l' ev (ths : gmap tid thread) :
  ths !! t = Some th ->
  (forall t2 th2, ths !! t2 = Some th2 -> lock_thread_inv a l t2 (t_pc th2)) ->
  lock_effect a t (t_pc th) l (t_pc th') l' ev ->
  forall t2 th2, <[t := th']> ths !! t2 = Some th2 -> lock_thread_inv a l' t2 (t_pc th2).
Proof.
  intros Ht Hinv Heff t2 th2 Hlk.
  pose proof (Hinv t th Ht) as (G & F & A & C & R).
  destruct (decide (t2 = t)) as [->|Hne].
  - rewrite lookup_insert_eq in Hlk. simplify_eq.
    pose proof (guards_of_sees_free (t_pc th2)) as SF'.
    pose proof (guards_of_acquiring (t_pc th2)) as SA'.
    pose proof (guards_of_releasing (t_pc th2)) as SR'.
    pose proof (not_acquiring_and_releasing (t_pc th2)) as NAR.
    pose proof (not_acquiring_and_checked (t_pc th2)) as NAC.
    pose proof (not_sees_free_and_acquiring (t_pc th2)) as NFA.
    pose proof (not_releasing_and_checked (t_pc th2)) as NRC.
    pose proof (not_sees_free_and_releasing (t_pc th2)) as NFR.
    pose proof (not_sees_free_and_checked (t_pc th2)) as NFC.
    pose proof (guards_of_sees_free (t_pc th)) as SF.
    pose proof (guards_of_acquiring (t_pc th)) as SA.
    pose proof (guards_of_releasing (t_pc th)) as SR.
    unfold lock_thread_inv.
    inversion Heff; subst; simpl; split_and!; intros; same_as_before; saturate;
      try congruence; try done.
  - rewrite lookup_insert_ne in Hlk by done.
    pose proof (Hinv t2 th2 Hlk) as (G2 & F2 & A2 & C2 & R2).
    pose proof (guards_of_sees_free (t_pc th2)) as SF2.
    pose proof (guards_of_acquiring (t_pc th2)) as SA2.
    pose proof (guards_of_releasing (t_pc th2)) as SR2.
    pose proof (guards_of_sees_free (t_pc th)) as SF.
    pose proof (guards_of_acquiring (t_pc th)) as SA.
    pose proof (guards_of_releasing (t_pc th)) as SR.
    unfold lock_thread_inv.
    inversion Heff; subst; simpl; split_and!; intros; same_as_before; saturate;
      try congruence; try done.
Qed.

Lemma log_inv_frame t th th' l l' (ths : gmap tid thread) log log' :
  ths !! t = Some th ->
  acquiring a (t_pc th') = acquiring a (t_pc th) ->
  releasing a (t_pc th') = releasing a (t_pc th) ->
  holding_thread l' = holding_thread l ->
  owner a log' = owner a log ->
  lock_log_inv a l ths log ->
  lock_log_inv a l' (<[t := th']> ths) log'.
Proof.
  intros Ht EA ER EH EO (L1 & L2 & L3).
  unfold lock_log_inv. rewrite EH, EO. split_and!.
  - intros t2 th2 Hlk Hacq. destruct (decide (t2 = t)) as [->|Hne].
    + rewrite lookup_insert_eq in Hlk. simplify_eq. rewrite EA in Hacq. eauto.
    + rewrite lookup_insert_ne in Hlk by done. eauto.
  - intros t2 th2 Hlk Hrel. destruct (decide (t2 = t)) as [->|Hne].
    + rewrite lookup_insert_eq in Hlk. simplify_eq. rewrite ER in Hrel. eauto.
    + rewrite lookup_insert_ne in Hlk by done. eauto.
  - intros Hnone. apply L3. intros t2 th2 Hlk.
    destruct (decide (t2 = t)) as [->|Hne].
    + simplify_eq. rewrite <- EA, <- ER. apply (Hnone t th'). by rewrite lookup_insert_eq.
    + apply (Hnone t2 th2). by rewrite lookup_insert_ne.
Qed.

(** While [t] has the guard, no other thread is between setting the
    holder and returning, or between clearing it and returning. *)
Lemma guard_excludes t l (ths : gmap tid thread) t2 th2 :
  (forall t2 th2, ths !! t2 = Some th2 -> lock_thread_inv a l t2 (t_pc th2)) ->
  lock_lock l = Some t ->
  ths !! t2 = Some th2 ->
  acquiring a (t_pc th2) = true \/ releasing a (t_pc th2) = true ->
  t2 = t.
Proof.
  intros Hinv Hg Hlk Hor.
  destruct (Hinv t2 th2 Hlk) as (G & _).
  assert (guards a (t_pc th2) = true) as Hgu
    by (destruct Hor; [by apply guards_of_acquiring | by apply guards_of_releasing]).
  specialize (G Hgu). congruence.
Qed.

(** While [t] has the guard and is itself not in one of those two
    windows, nobody is. *)
Lemma guard_no_window t th l (ths : gmap tid thread) :
  (forall t2 th2, ths !! t2 = Some th2 -> lock_thread_inv a l t2 (t_pc th2)) ->
  lock_lock l = Some t ->
  ths !! t = Some th ->
  acquiring a (t_pc th) = false -> releasing a (t_pc th) = false ->
  forall t2 th2, ths !! t2 = Some th2 ->
    acquiring a (t_pc th2) = false /\ releasing a (t_pc th2) = false.
Proof.
  intros Hinv Hg Ht HA HR t2 th2 Hlk.
  destruct (acquiring a (t_pc th2)) eqn:EA.
  { assert (t2 = t) as -> by (eapply guard_excludes; eauto). simplify_eq. congruence. }
  destruct (releasing a (t_pc th2)) eqn:ER; [|done].
  assert (t2 = t) as -> by (eapply guard_excludes; eauto). simplify_eq. congruence.
Qed.

(** One statement of thread [t] keeps the holder field in step with the
    log. *)
Lemma lock_effect_log t th th' l l' ev (ths : gmap tid thread) log :
  ths !! t = Some th ->
  (forall t2 th2, ths !! t2 = Some th2 -> lock_thread_inv a l t2 (t_pc th2)) ->
  lock_log_inv a l ths log ->
  lock_effect a t (t_pc th) l (t_pc th') l' ev ->
  lock_log_inv a l' (<[t := th']> ths) (option_list ev ++ log).
Proof.
  intros Ht Hinv Hlog Heff.
  pose proof (Hinv t th Ht) as (G & F & A & C & R).
  pose proof (guards_of_sees_free (t_pc th)) as SF.
  pose proof (guards_of_acquiring (t_pc th)) as SA.
  pose proof (guards_of_releasing (t_pc th)) as SR.
  pose proof (guards_of_acquiring (t_pc th')) as SA'.
  pose proof (guards_of_releasing (t_pc th')) as SR'.
  inversion Heff; subst.
  - (* off *)
    eapply (log_inv_frame t th th' _ _ ths log); eauto using owner_neutral.
    + destruct (acquiring a (t_pc th')) eqn:?, (acquiring a (t_pc th)) eqn:?;
        saturate; congruence.
    + destruct (releasing a (t_pc th')) eqn:?, (releasing a (t_pc th)) eqn:?;
        saturate; congruence.
  - (* check *)
    eapply (log_inv_frame t th th' _ _ ths log); eauto.
    + destruct (acquiring a (t_pc th')) eqn:?, (acquiring a (t_pc th)) eqn:?;
        saturate; congruence.
    + destruct (releasing a (t_pc th')) eqn:?, (releasing a (t_pc th)) eqn:?;
        saturate; congruence.
  - (* take *)
    eapply (log_inv_frame t th th' _ _ ths log); eauto.
    + destruct (acquiring a (t_pc th)) eqn:?; saturate; congruence.
    + destruct (releasing a (t_pc th)) eqn:?; saturate; congruence.
  - (* sleep *)
    eapply (log_inv_frame t th th' _ _ ths log); eauto.
    + destruct (acquiring a (t_pc th')) eqn:?; saturate; congruence.
    + destruct (releasing a (t_pc th')) eqn:?; saturate; congruence.
  - (* inside *)
    eapply (log_inv_frame t th th' _ _ ths log); eauto.
  - (* set *)
    saturate. simpl.
    assert (acquiring a (t_pc th) = false) as NA.
    { destruct (acquiring a (t_pc th)) eqn:?; [|done].
      exfalso. eapply (not_sees_free_and_acquiring (t_pc th)); eauto. }
    assert (releasing a (t_pc th) = false) as NR.
    { destruct (releasing a (t_pc th)) eqn:?; [|done].
      exfalso. eapply (not_sees_free_and_releasing (t_pc th)); eauto. }
    destruct Hlog as (L1 & L2 & L3).
    assert (owner a log = None) as HO.
    { rewrite <- L3; [done|]. eapply guard_no_window; eauto. }
    split_and!.
    + done.
    + intros t2 th2 Hlk Hrel. exfalso.
      destruct (decide (t2 = t)) as [->|Hne].
      * rewrite lookup_insert_eq in Hlk. simplify_eq.
        eapply (not_acquiring_and_releasing (t_pc th2)); eauto.
      * rewrite lookup_insert_ne in Hlk by done.
        apply Hne. eapply guard_excludes; eauto.
    + intros Hnone. destruct (Hnone t th') as [? _]; [by rewrite lookup_insert_eq|].
      congruence.
  - (* clear *)
    saturate. simpl.
    assert (acquiring a (t_pc th) = false) as NA.
    { destruct (acquiring a (t_pc th)) eqn:?; [|done].
      exfalso. eapply (not_acquiring_and_checked (t_pc th)); eauto. }
    assert (releasing a (t_pc th) = false) as NR.
    { destruct (releasing a (t_pc th)) eqn:?; [|done].
      exfalso. eapply (not_releasing_and_checked (t_pc th)); eauto. }
    destruct Hlog as (L1 & L2 & L3).
    assert (owner a log = Some t) as HO.
    { rewrite <- L3; [done|]. eapply guard_no_window; eauto. }
    split_and!.
    + intros t2 th2 Hlk Hacq. exfalso.
      destruct (decide (t2 = t)) as [->|Hne].
      * rewrite lookup_insert_eq in Hlk. simplify_eq.
        eapply (not_acquiring_and_releasing (t_pc th2)); eauto.
      * rewrite lookup_insert_ne in Hlk by done.
        apply Hne. eapply guard_excludes; eauto.
    + intros t2 th2 Hlk Hrel.
      destruct (decide (t2 = t)) as [->|Hne]; [done|].
      rewrite lookup_insert_ne in Hlk by done.
      exfalso. apply Hne. eapply guard_excludes; eauto.
    + intros Hnone. destruct (Hnone t th') as [_ ?]; [by rewrite lookup_insert_eq|].
      congruence.
  - (* lock_acquire returns *)
    match goal with H : Idle = t_pc th' |- _ => rename H into Hidle end.
    saturate. unfold lock_log_inv. simpl. rewrite bool_decide_eq_true_2 by done.
    split_and!.
    + intros t2 th2 Hlk Hacq. exfalso.
      destruct (decide (t2 = t)) as [->|Hne].
      * rewrite lookup_insert_eq in Hlk. simplify_eq. by rewrite <- Hidle in Hacq.
      * rewrite lookup_insert_ne in Hlk by done.
        apply Hne. eapply guard_excludes; eauto.
    + intros t2 th2 Hlk Hrel. exfalso.
      destruct (decide (t2 = t)) as [->|Hne].
      * rewrite lookup_insert_eq in Hlk. simplify_eq. by rewrite <- Hidle in Hrel.
      * rewrite lookup_insert_ne in Hlk by done.
        apply Hne. eapply guard_excludes; eauto.
    + done.
  - (* lock_release returns *)
    match goal with H : Idle = t_pc th' |- _ => rename H into Hidle end.
    saturate. unfold lock_log_inv. simpl. rewrite bool_decide_eq_true_2 by done.
    split_and!.
    + intros t2 th2 Hlk Hacq. exfalso.
      destruct (decide (t2 = t)) as [->|Hne].
      * rewrite lookup_insert_eq in Hlk. simplify_eq. by rewrite <- Hidle in Hacq.
      * rewrite lookup_insert_ne in Hlk by done.
        apply Hne. eapply guard_excludes; eauto.
    + intros t2 th2 Hlk Hrel. exfalso.
      destruct (decide (t2 = t)) as [->|Hne].
      * rewrite lookup_insert_eq in Hlk. simplify_eq. by rewrite <- Hidle in Hrel.
      * rewrite lookup_insert_ne in Hlk by done.
        apply Hne. eapply guard_excludes; eauto.
    + done.
Qed.
End lock_protocol.

(** ** The statements against the heap *)

Lemma load_sem_Some (h : heap) (p : ptr) (a : addr) (s : semaphore) :
  load_sem h p = Some (a, s) -> p = Some a /\ h !! a = Some (BSem s).
Proof.
  unfold load_sem. destruct p as [a'|]; [|done].
  destruct (h !! a') as [[]|] eqn:E; try done. by intros [= -> ->].
Qed.

Lemma load_lock_Some (h : heap) (p : ptr) (a : addr) (l : lock) :
  load_lock h p = Some (a, l) -> p = Some a /\ h !! a = Some (BLock l).
Proof.
  unfold load_lock. destruct p as [a'|]; [|done].
  destruct (h !! a') as [[]|] eqn:E; try done. by intros [= -> ->].
Qed.

Lemma load_wchan_Some (h : heap) (p : ptr) (w : addr) (n : ptr) (q : list tid) :
  load_wchan h p = Some (w, n, q) -> p = Some w /\ h !! w = Some (BWchan n q).
Proof.
  unfold load_wchan. destruct p as [a'|]; [|done].
  destruct (h !! a') as [[]|] eqn:E; try done. by intros [= -> -> ->].
Qed.

Lemma on_eq (a : addr) : on a (Some a) = true.
Proof. unfold on. by rewrite bool_decide_eq_true_2. Qed.

Lemma on_ne (a a' : addr) : a' <> a -> on a (Some a') = false.
Proof. intros. unfold on. rewrite bool_decide_eq_false_2; congruence. Qed.

Lemma on_None (a : addr) : on a None = false.
Proof. done. Qed.

Ltac load_facts :=
  repeat match goal with
         | H : load_sem _ _ = Some _ |- _ => apply load_sem_Some in H as [? ?]
         | H : load_lock _ _ = Some _ |- _ => apply load_lock_Some in H as [? ?]
         | H : load_wchan _ _ = Some _ |- _ => apply load_wchan_Some in H as [? ?]
         end.

(** Compare every address of the heap in sight with [a]. *)
Ltac split_addr a :=
  repeat match goal with
         | H : _ !! ?x = Some _ |- _ =>
             lazymatch x with a => fail | _ => idtac end;
             lazymatch goal with _ : x <> a |- _ => fail | _ => idtac end;
             destruct (decide (x = a)) as [->|?]; [simplify_eq|]
         end.

Ltac heap_lookup :=
  repeat first [rewrite lookup_insert_eq | rewrite lookup_insert_ne by done];
  first [reflexivity | eassumption].

Ltac on_simpl :=
  simpl; rewrite ?on_eq, ?on_None; rewrite ?on_ne by done;
  repeat match goal with H : on _ _ = _ |- _ => rewrite H end;
  simpl;
  rewrite ?bool_decide_eq_true_2 by done;
  rewrite ?bool_decide_eq_false_2 by done; simpl.

Ltac solve_lock_effect :=
  simpl;
  first
    [ solve [eapply eff_off; on_simpl; done]
    | solve [eapply eff_check; on_simpl; done]
    | solve [eapply eff_take; on_simpl; done]
    | solve [eapply eff_sleep; on_simpl; done]
    | solve [eapply eff_inside; on_simpl; done]
    | solve [eapply eff_set; on_simpl; done]
    | solve [eapply eff_clear; on_simpl; done]
    | solve [eapply eff_ret_acquire; on_simpl; done]
    | solve [eapply eff_ret_release; on_simpl; done] ].

Ltac exec_unfold H :=
  cbv [P V lock_acquire lock_release
       lock_do_i_hold cv_wait cv_signal cv_broadcast
       mbind outcome_bind obind of_option KASSERT splhigh spinlock_acquire] in H.

(** Take one statement apart: the thread's program point and the outcome
    of each load and assertion of the statement. *)
Ltac exec_inv H :=
  match type of H with
  | exec _ _ ?th _ = _ =>
      let i := fresh "i" in
      let spl := fresh "spl" in
      let p := fresh "p" in
      let q := fresh "q" in
      destruct th as [i spl p]; unfold exec in H; simpl in H;
      destruct p as [|q sem|q sem|q lock sp|q lock sp|q lock|c lock|c lock|c lock];
      try destruct q; exec_unfold H;
      repeat (case_match; try done); simplify_eq; load_facts; simplify_eq
  end.

Ltac guard_facts :=
  repeat match goal with
         | H : holds _ _ = true |- _ => apply bool_decide_eq_true_1 in H
         | H : negb (holds _ _) = true |- _ =>
             apply negb_true_iff, bool_decide_eq_false_1 in H
         end.

Lemma exec_lock_effect (a : addr) (l : lock) k t th h th' h' ev :
  exec k t th h = Next (th', h', ev) ->
  h !! a = Some (BLock l) ->
  exists l', h' !! a = Some (BLock l') /\ lock_effect a t (t_pc th) l (t_pc th') l' ev.
Proof.
  intros H Ha.
  exec_inv H; guard_facts; split_addr a.
  all: try (eexists; split; [heap_lookup|solve_lock_effect]).
  all: destruct (on a lock) eqn:Hon; eexists; (split; [heap_lookup|solve_lock_effect]).
Qed.

Lemma exec_splhigh k t th h th' h' ev :
  exec k t th h = Next (th', h', ev) ->
  (at_splhigh (t_pc th) = true -> t_curspl th = IPL_HIGH) ->
  at_splhigh (t_pc th') = true -> t_curspl th' = IPL_HIGH.
Proof.
  intros H.
  exec_inv H; simpl; try done.
  all: intros HH; by apply HH.
Qed.

Lemma entry_off (a : addr) (o : op) :
  guards a (entry o) = false /\ checked a (entry o) = false.
Proof. destruct o; simpl; rewrite ?andb_false_r; done. Qed.

(** ** The lock invariant holds in every reachable state *)

Lemma outside_lock_call (a : addr) (p : pc) :
  in_lock_call a p = false ->
  guards a p = false /\ sees_free a p = false /\ acquiring a p = false /\
  checked a p = false /\ releasing a p = false.
Proof.
  destruct p as [| | |q ? ?|q ? ?| | | |]; simpl; try done; intros ->; by destruct q.
Qed.

Lemma lock_inv_initial (a : addr) (s : kstate) : lock_initial a s -> lock_inv a s.
Proof.
  intros ((l & Hl & Hh & Hg) & Hq & Hlog).
  exists l. split; [done|]. split.
  - intros t th Hlk. destruct (Hq t th Hlk) as [Hout Hspl].
    destruct (outside_lock_call a _ Hout) as (E1 & E2 & E3 & E4 & E5).
    unfold lock_thread_inv. rewrite E1, E2, E3, E4, E5. by repeat split.
  - unfold lock_log_inv. rewrite Hlog. split_and!.
    + intros t th Hlk. destruct (Hq t th Hlk) as [Hout _].
      destruct (outside_lock_call a _ Hout) as (_ & _ & -> & _). done.
    + intros t th Hlk. destruct (Hq t th Hlk) as [Hout _].
      destruct (outside_lock_call a _ Hout) as (_ & _ & _ & _ & ->). done.
    + intros _. congruence.
Qed.

Lemma lock_inv_effect (a : addr) (s : kstate) t th th' l l' h' ev :
  k_heap s !! a = Some (BLock l) ->
  (forall t th, k_threads s !! t = Some th ->
     lock_thread_inv a l t (t_pc th) /\
     (at_splhigh (t_pc th) = true -> t_curspl th = IPL_HIGH)) ->
  lock_log_inv a l (k_threads s) (k_log s) ->
  k_threads s !! t = Some th ->
  h' !! a = Some (BLock l') ->
  lock_effect a t (t_pc th) l (t_pc th') l' ev ->
  (at_splhigh (t_pc th') = true -> t_curspl th' = IPL_HIGH) ->
  lock_inv a (mk_kstate h' (<[t := th']> (k_threads s)) (option_list ev ++ k_log s)).
Proof.
  intros Hl Hth Hlog Ht Hl' Heff Hspl.
  exists l'. simpl. split; [done|]. split.
  - intros t2 th2 Hlk. split.
    + eapply (lock_effect_threads a t th th' l l' ev (k_threads s)); try done.
      intros ? ? Hx. by destruct (Hth _ _ Hx).
    + destruct (decide (t2 = t)) as [->|Hne].
      * rewrite lookup_insert_eq in Hlk. by simplify_eq.
      * rewrite lookup_insert_ne in Hlk by done. by destruct (Hth _ _ Hlk).
  - eapply (lock_effect_log a t th th' l l' ev (k_threads s)); try done.
    intros ? ? Hx. by destruct (Hth _ _ Hx).
Qed.

Lemma lock_inv_step (a : addr) (lb : label) (s s' : kstate) :
  lock_inv a s -> step lb s = Next s' -> lock_inv a s'.
Proof.
  intros (l & Hl & Hth & Hlog) Hstep.
  destruct lb as [t intr o|t k]; simpl in Hstep.
  - destruct (k_threads s !! t) as [th|] eqn:Ht; [|done].
    destruct (t_pc th) eqn:Hpc; try done. simplify_eq.
    destruct (entry_off a o) as [E1 E2].
    eapply (lock_inv_effect a s t th (mk_thread intr (t_curspl th) (entry o)) l l _ None);
      eauto.
    + rewrite Hpc. simpl. by apply eff_off.
    + simpl. by destruct o.
  - destruct (k_threads s !! t) as [th|] eqn:Ht; [|done].
    destruct (exec k t th (k_heap s)) as [[[th' h'] ev]| | |] eqn:Hx; try done.
    simpl in Hstep. simplify_eq.
    destruct (exec_lock_effect a l _ _ _ _ _ _ _ Hx Hl) as (l' & Hl' & Heff).
    eapply lock_inv_effect; eauto.
    eapply exec_splhigh; eauto. by destruct (Hth _ _ Ht).
Qed.

Lemma lock_inv_run (a : addr) (ls : list label) (s s' : kstate) :
  lock_inv a s -> run ls s = Next s' -> lock_inv a s'.
Proof.
  revert s. induction ls as [|lb ls IH]; intros s Hinv Hrun; simpl in Hrun.
  - by simplify_eq.
  - destruct (step lb s) as [s1| | |] eqn:Hs; try done.
    eapply IH; [|exact Hrun]. by eapply lock_inv_step.
Qed.

(** ** Mutual exclusion *)

(** Either the holder field agrees with the log, or the thread that has the
    guard is about to return from the call that will make them agree. *)
Lemma holder_vs_owner (a : addr) (l : lock) (ths : gmap tid thread) (log : list event) :
  (forall t th, ths !! t = Some th -> lock_thread_inv a l t (t_pc th)) ->
  lock_log_inv a l ths log ->
  holding_thread l = owner a log \/
  (exists g thg, ths !! g = Some thg /\ acquiring a (t_pc thg) = true /\
                 holding_thread l = Some g /\ owner a log = None) \/
  (exists g thg, ths !! g = Some thg /\ releasing a (t_pc thg) = true /\
                 holding_thread l = None /\ owner a log = Some g).
Proof.
  intros Hinv (L1 & L2 & L3).
  destruct (lock_lock l) as [g|] eqn:Hg.
  - destruct (ths !! g) as [thg|] eqn:Hthg.
    + destruct (Hinv g thg Hthg) as (_ & _ & A & _ & R).
      destruct (acquiring a (t_pc thg)) eqn:EA.
      { right; left. exists g, thg. split_and!; eauto. }
      destruct (releasing a (t_pc thg)) eqn:ER.
      { right; right. exists g, thg. split_and!; eauto. }
      left. apply L3. by eapply guard_no_window.
    + left. apply L3. intros t2 th2 Hlk.
      destruct (acquiring a (t_pc th2)) eqn:EA.
      { assert (t2 = g) as -> by (eapply guard_excludes; eauto). congruence. }
      destruct (releasing a (t_pc th2)) eqn:ER; [|done].
      assert (t2 = g) as -> by (eapply guard_excludes; eauto). congruence.
  - left. apply L3. intros t2 th2 Hlk.
    destruct (Hinv t2 th2 Hlk) as (G & _).
    destruct (acquiring a (t_pc th2)) eqn:EA.
    { apply guards_of_acquiring in EA. specialize (G EA). congruence. }
    destruct (releasing a (t_pc th2)) eqn:ER; [|done].
    apply guards_of_releasing in ER. specialize (G ER). congruence.
Qed.

(** The holder field changes only where [lock_acquire] sets it and where
    [lock_release] clears it. *)
Lemma lock_effect_holder (a : addr) t p l p' l' ev :
  lock_thread_inv a l t p ->
  lock_effect a t p l p' l' ev ->
  (forall T, holding_thread l' = Some T -> holding_thread l <> Some T ->
     holding_thread l = None /\ lock_lock l = Some T /\ T = t) /\
  (forall T, holding_thread l = Some T -> holding_thread l' <> Some T ->
     holding_thread l' = None /\ T = t).
Proof.
  intros (G & F & A & C & R) Heff.
  pose proof (guards_of_sees_free a p) as SF.
  inversion Heff; subst; simpl; saturate;
    (split; intros T HT1 HT2; simplify_eq; try done).
Qed.

Lemma completes_run (ls : list label) (s : kstate) :
  completes ls s = true -> exists s', run ls s = Next s'.
Proof. unfold completes. destruct (run ls s); try done. by eexists. Qed.

Lemma after_run (ls : list label) (s s' : kstate) :
  run ls s = Next s' -> after ls s = s'.
Proof. unfold after. by intros ->. Qed.

Lemma two_idle_threads_quiescent (h : heap) (log : list event) :
  quiescent (mk_kstate h (<[1%nat := idle_thread]> (<[2%nat := idle_thread]> ∅)) log).
Proof.
  intros t th Hlk. simpl in Hlk.
  destruct (decide (t = 1%nat)) as [->|]; [by simplify_map_eq|].
  destruct (decide (t = 2%nat)) as [->|]; [by simplify_map_eq|].
  by simplify_map_eq.
Qed.

Lemma free_lock_state_initial : lock_initial 0%nat free_lock_state.
Proof.
  split_and!.
  - exists free_lock. split_and!; reflexivity.
  - intros t th Hlk.
    by rewrite (two_idle_threads_quiescent _ _ t th Hlk).
  - reflexivity.
Qed.

Lemma free_lock_state_wired : lock_wired 0%nat 2%nat (Some 1%nat) free_lock_state.
Proof. exists free_lock, []. split_and!; reflexivity. Qed.

(** C1: in every state a lock can reach from its creation, under any
    interleaving of the statements of any threads: the lock records at most
    one holder; [lock_do_i_hold] answers [true] to exactly the thread whose
    [lock_acquire] returned last with no [lock_release] returned since; the
    holder goes from none to [T] only by a step of [T] itself, with the
    lock's guard held by [T] and the lock free; and it goes from [T] to
    none, and to nothing else, only by a step of [T]. *)
Theorem lock_mutual_exclusion (a : addr) (s0 s : kstate) (ls : list label) :
  lock_initial a s0 ->
  run ls s0 = Next s ->
  holder_discipline a s.
Proof.
  intros Hinit Hrun.
  pose proof (lock_inv_run a ls s0 s (lock_inv_initial a s0 Hinit) Hrun)
    as (l & Hl & Hth & Hlog).
  assert (forall t th, k_threads s !! t = Some th -> lock_thread_inv a l t (t_pc th))
    as Hinv by (intros ? ? Hx; by destruct (Hth _ _ Hx)).
  exists l. split; [done|]. split_and!.
  - intros t1 t2 H1 H2.
    apply bool_decide_eq_true_1 in H1. apply bool_decide_eq_true_1 in H2. congruence.
  - intros k t th Ht Hpc. exists (holds l t). split.
    + unfold exec. rewrite Hpc. simpl. unfold load_lock. rewrite Hl. done.
    + unfold holds. rewrite bool_decide_eq_true.
      destruct (holder_vs_owner a l _ _ Hinv Hlog)
        as [E|[(g & thg & Hg & HA & HH & HO)|(g & thg & Hg & HR & HH & HO)]].
      * by rewrite E.
      * rewrite HH, HO. split; [|done]. intros [= ->]. simplify_eq.
        rewrite Hpc in HA. done.
      * rewrite HH, HO. split; [done|]. intros [= ->]. simplify_eq.
        rewrite Hpc in HR. done.
  - intros lb s' Hstep.
    destruct lb as [t intr o|t k]; simpl in Hstep.
    + destruct (k_threads s !! t) as [th|] eqn:Ht; [|done].
      destruct (t_pc th); try done. simplify_eq. simpl.
      exists l. split; [done|]. split; intros T H1 H2; congruence.
    + destruct (k_threads s !! t) as [th|] eqn:Ht; [|done].
      destruct (exec k t th (k_heap s)) as [[[th' h'] ev]| | |] eqn:Hx; try done.
      simpl in Hstep. simplify_eq. simpl.
      destruct (exec_lock_effect a l _ _ _ _ _ _ _ Hx Hl) as (l' & Hl' & Heff).
      exists l'. split; [done|].
      destruct (lock_effect_holder a t _ _ _ _ _ (Hinv t th Ht) Heff) as [E1 E2].
      split; intros T H1 H2.
      * destruct (E1 T H1 H2) as (? & ? & ->). eauto.
      * destruct (E2 T H1 H2) as (? & ->). eauto.
Qed.

Lemma lock_mutual_exclusion_witness :
  lock_initial 0%nat free_lock_state /\
  (exists s, run contended_schedule free_lock_state = Next s /\ holder_discipline 0%nat s).
Proof.
  split; [exact free_lock_state_initial|].
  destruct (completes_run contended_schedule free_lock_state) as [s Hrun];
    [vm_compute; reflexivity|].
  exists s. split; [exact Hrun|].
  exact (lock_mutual_exclusion 0%nat free_lock_state s contended_schedule
           free_lock_state_initial Hrun).
Defined.

(** ** The semaphore protocol *)

(** A thread is in at most one window, and in none when settled. *)
Ltac window_contra HH :=
  solve [ destruct HH as (? & ? & ?); congruence
        | match goal with
          | X : _ = true -> _ = false /\ _ = false |- _ =>
              destruct (X HH); congruence
          end ].

Section sem_protocol.
Context (a : addr).

Lemma sem_guards_of_sees_positive p : sees_positive a p = true -> sem_guards a p = true.
Proof. destruct p as [|[] ?| | | | | | |]; simpl; try done; by rewrite andb_true_r. Qed.

Lemma sem_guards_of_decremented p : decremented a p = true -> sem_guards a p = true.
Proof. destruct p as [|[] ?| | | | | | |]; simpl; try done; by rewrite andb_true_r. Qed.

Lemma sem_guards_of_incrementing p : incrementing a p = true -> sem_guards a p = true.
Proof. destruct p as [| |[] ?| | | | | |]; simpl; try done; by rewrite andb_true_r. Qed.

Lemma sem_guards_of_incremented p : incremented a p = true -> sem_guards a p = true.
Proof. destruct p as [| |[] ?| | | | | |]; simpl; try done; by rewrite andb_true_r. Qed.

Lemma settled_of_unguarded p : sem_guards a p = false -> settled a p.
Proof.
  intros H. unfold settled.
  destruct (decremented a p) eqn:E1;
    [apply sem_guards_of_decremented in E1; congruence|].
  destruct (incrementing a p) eqn:E2;
    [apply sem_guards_of_incrementing in E2; congruence|].
  destruct (incremented a p) eqn:E3;
    [apply sem_guards_of_incremented in E3; congruence|].
  done.
Qed.

Lemma settled_of_sees_positive p : sees_positive a p = true -> settled a p.
Proof. by destruct p as [|[] ?| | | | | | |]. Qed.

Lemma not_positive_of_decremented p : decremented a p = true -> sees_positive a p = false.
Proof. by destruct p as [|[] ?| | | | | | |]. Qed.

Lemma not_positive_of_incrementing p : incrementing a p = true -> sees_positive a p = false.
Proof. by destruct p as [| |[] ?| | | | | |]. Qed.

Lemma not_positive_of_incremented p : incremented a p = true -> sees_positive a p = false.
Proof. by destruct p as [| |[] ?| | | | | |]. Qed.

Lemma window_exclusive p :
  (decremented a p = true -> incrementing a p = false /\ incremented a p = false) /\
  (incrementing a p = true -> decremented a p = false /\ incremented a p = false) /\
  (incremented a p = true -> decremented a p = false /\ incrementing a p = false).
Proof. destruct p as [|[] ?|[] ?| | | | | |]; simpl; done. Qed.

Lemma balance_neutral c0 ev log :
  sem_neutral a ev = true -> balance c0 a (option_list ev ++ log) = balance c0 a log.
Proof.
  unfold balance.
  destruct ev as [[]|]; simpl; try done; case_bool_decide; simpl; try done; lia.
Qed.

(** One statement of thread [t] keeps what every thread knows of the
    semaphore. *)
Lemma sem_effect_threads t th th' sm sm' ev (ths : gmap tid thread) :
  ths !! t = Some th ->
  0 <= sem_count sm <= UINT_MAX ->
  (forall t2 th2, ths !! t2 = Some th2 -> sem_thread_inv a sm t2 (t_pc th2)) ->
  sem_effect a t (t_pc th) sm (t_pc th') sm' ev ->
  forall t2 th2, <[t := th']> ths !! t2 = Some th2 -> sem_thread_inv a sm' t2 (t_pc th2).
Proof.
  intros Ht Hrange Hinv Heff t2 th2 Hlk.
  pose proof (Hinv t th Ht) as (G & Pos).
  pose proof (sem_guards_of_sees_positive (t_pc th)) as SP.
  pose proof (sem_guards_of_decremented (t_pc th)) as SD.
  pose proof (sem_guards_of_incrementing (t_pc th)) as SI.
  pose proof (sem_guards_of_incremented (t_pc th)) as SJ.
  destruct (decide (t2 = t)) as [->|Hne].
  - rewrite lookup_insert_eq in Hlk. simplify_eq.
    pose proof (sem_guards_of_sees_positive (t_pc th2)) as SP'.
    pose proof (not_positive_of_decremented (t_pc th2)) as ND.
    pose proof (not_positive_of_incrementing (t_pc th2)) as NI.
    pose proof (not_positive_of_incremented (t_pc th2)) as NJ.
    unfold sem_thread_inv.
    inversion Heff; subst; simpl; split; intros; same_as_before; saturate;
      try congruence; try done.
  - rewrite lookup_insert_ne in Hlk by done.
    pose proof (Hinv t2 th2 Hlk) as (G2 & Pos2).
    pose proof (sem_guards_of_sees_positive (t_pc th2)) as SP2.
    unfold sem_thread_inv.
    inversion Heff; subst; simpl; split; intros; same_as_before; saturate;
      try congruence; try done.
Qed.

Lemma count_inv_frame c0 t th th' sm sm' (ths : gmap tid thread) log log' :
  ths !! t = Some th ->
  decremented a (t_pc th') = decremented a (t_pc th) ->
  incrementing a (t_pc th') = incrementing a (t_pc th) ->
  incremented a (t_pc th') = incremented a (t_pc th) ->
  sem_count sm' = sem_count sm ->
  balance c0 a log' = balance c0 a log ->
  sem_count_inv c0 a sm ths log ->
  sem_count_inv c0 a sm' (<[t := th']> ths) log'.
Proof.
  intros Ht ED EI EJ EC EB (R & D & I & J & S).
  unfold sem_count_inv. rewrite EC, EB. split; [done|]. split_and!.
  - intros t2 th2 Hlk Hw. destruct (decide (t2 = t)) as [->|Hne].
    + rewrite lookup_insert_eq in Hlk. simplify_eq. rewrite ED in Hw. eauto.
    + rewrite lookup_insert_ne in Hlk by done. eauto.
  - intros t2 th2 Hlk Hw. destruct (decide (t2 = t)) as [->|Hne].
    + rewrite lookup_insert_eq in Hlk. simplify_eq. rewrite EI in Hw. eauto.
    + rewrite lookup_insert_ne in Hlk by done. eauto.
  - intros t2 th2 Hlk Hw. destruct (decide (t2 = t)) as [->|Hne].
    + rewrite lookup_insert_eq in Hlk. simplify_eq. rewrite EJ in Hw. eauto.
    + rewrite lookup_insert_ne in Hlk by done. eauto.
  - intros Hnone. apply S. intros t2 th2 Hlk.
    destruct (decide (t2 = t)) as [->|Hne].
    + simplify_eq. rewrite <- ED, <- EI, <- EJ. apply (Hnone t th').
      by rewrite lookup_insert_eq.
    + apply (Hnone t2 th2). by rewrite lookup_insert_ne.
Qed.

(** While [t] has the guard, no other thread is in a window. *)
Lemma sem_guard_excludes t sm (ths : gmap tid thread) t2 th2 :
  (forall t2 th2, ths !! t2 = Some th2 -> sem_thread_inv a sm t2 (t_pc th2)) ->
  sem_lock sm = Some t ->
  ths !! t2 = Some th2 ->
  ~ settled a (t_pc th2) ->
  t2 = t.
Proof.
  intros Hinv Hg Hlk Hw.
  destruct (Hinv t2 th2 Hlk) as (G & _).
  destruct (sem_guards a (t_pc th2)) eqn:E.
  - specialize (G eq_refl). congruence.
  - exfalso. by apply Hw, settled_of_unguarded.
Qed.

Lemma settled_dec p : Decision (settled a p).
Proof. unfold settled. apply _. Qed.

Lemma sem_guard_settled t th sm (ths : gmap tid thread) :
  (forall t2 th2, ths !! t2 = Some th2 -> sem_thread_inv a sm t2 (t_pc th2)) ->
  sem_lock sm = Some t ->
  ths !! t = Some th ->
  settled a (t_pc th) ->
  forall t2 th2, ths !! t2 = Some th2 -> settled a (t_pc th2).
Proof.
  intros Hinv Hg Ht Hs t2 th2 Hlk.
  destruct (settled_dec (t_pc th2)) as [|Hn]; [done|].
  assert (t2 = t) as -> by (eapply sem_guard_excludes; eauto). by simplify_eq.
Qed.

Lemma wrap_small z : 0 <= z <= UINT_MAX -> wrap z = z.
Proof. unfold wrap, UINT_MAX. intros. apply Z.mod_small. lia. Qed.

Lemma wrap_range z : 0 <= wrap z <= UINT_MAX.
Proof.
  unfold wrap, UINT_MAX. pose proof (Z.mod_pos_bound z (2 ^ 32)). lia.
Qed.

Lemma wrap_overflow : wrap (UINT_MAX + 1) = 0.
Proof. reflexivity. Qed.

Lemma settled_same p p' :
  settled a p -> settled a p' ->
  decremented a p' = decremented a p /\ incrementing a p' = incrementing a p /\
  incremented a p' = incremented a p.
Proof. intros (-> & -> & ->) (-> & -> & ->). done. Qed.

(** After a statement of the thread that has the guard, the windows are
    those of that thread. *)
Lemma count_inv_update c0 t th th' sm sm' (ths : gmap tid thread) log' :
  ths !! t = Some th ->
  (forall t2 th2, ths !! t2 = Some th2 -> sem_thread_inv a sm t2 (t_pc th2)) ->
  sem_lock sm = Some t ->
  0 <= sem_count sm' <= UINT_MAX ->
  (decremented a (t_pc th') = true -> sem_count sm' = balance c0 a log' - 1) ->
  (incrementing a (t_pc th') = true ->
     sem_count sm' = wrap (balance c0 a log' + 1) /\ 0 <= balance c0 a log' <= UINT_MAX) ->
  (incremented a (t_pc th') = true -> sem_count sm' = balance c0 a log' + 1) ->
  (settled a (t_pc th') -> sem_count sm' = balance c0 a log') ->
  sem_count_inv c0 a sm' (<[t := th']> ths) log'.
Proof.
  intros Ht Hinv Hg HR HD HI HJ HS.
  assert (forall t2 th2, <[t := th']> ths !! t2 = Some th2 ->
            ~ settled a (t_pc th2) -> t2 = t /\ th2 = th') as Honly.
  { intros t2 th2 Hlk Hn. destruct (decide (t2 = t)) as [->|Hne].
    - rewrite lookup_insert_eq in Hlk. by simplify_eq.
    - rewrite lookup_insert_ne in Hlk by done.
      exfalso. apply Hne. eapply sem_guard_excludes; eauto. }
  split; [done|]. split_and!.
  - intros t2 th2 Hlk Hw.
    destruct (Honly t2 th2 Hlk) as [-> ->]; [|by apply HD].
    intros (? & _). congruence.
  - intros t2 th2 Hlk Hw.
    destruct (Honly t2 th2 Hlk) as [-> ->]; [|by apply HI].
    intros (_ & ? & _). congruence.
  - intros t2 th2 Hlk Hw.
    destruct (Honly t2 th2 Hlk) as [-> ->]; [|by apply HJ].
    intros (_ & _ & ?). congruence.
  - intros Hnone. apply HS. apply (Hnone t th'). by rewrite lookup_insert_eq.
Qed.

(** One statement of thread [t] keeps the count in step with the log. *)
Lemma sem_effect_count c0 t th th' sm sm' ev (ths : gmap tid thread) log :
  ths !! t = Some th ->
  (forall t2 th2, ths !! t2 = Some th2 -> sem_thread_inv a sm t2 (t_pc th2)) ->
  sem_count_inv c0 a sm ths log ->
  sem_effect a t (t_pc th) sm (t_pc th') sm' ev ->
  sem_count_inv c0 a sm' (<[t := th']> ths) (option_list ev ++ log).
Proof.
  intros Ht Hinv Hcnt Heff.
  pose proof (Hinv t th Ht) as (G & Pos).
  pose proof Hcnt as (R & D & I & J & S).
  pose proof (window_exclusive (t_pc th')) as (XD & XI & XJ).
  inversion Heff; subst.
  - (* off *)
    destruct (settled_same (t_pc th) (t_pc th')) as (? & ? & ?);
      [by apply settled_of_unguarded..|].
    eapply (count_inv_frame c0 t th th' _ _ ths log); eauto using balance_neutral.
  - (* take *)
    destruct (settled_same (t_pc th) (t_pc th')) as (? & ? & ?);
      [by apply settled_of_unguarded|done|].
    eapply (count_inv_frame c0 t th th' _ _ ths log); eauto.
  - (* sleep *)
    destruct (settled_same (t_pc th) (t_pc th')) as (? & ? & ?);
      [done|by apply settled_of_unguarded|].
    eapply (count_inv_frame c0 t th th' _ _ ths log); eauto.
  - (* inside *)
    eapply (count_inv_frame c0 t th th' _ _ ths log); eauto.
  - (* decrement *)
    assert (sem_lock sm = Some t) as Hg by (by apply G, sem_guards_of_sees_positive).
    assert (sem_count sm = balance c0 a log) as HC.
    { apply S. eapply sem_guard_settled; eauto. by apply settled_of_sees_positive. }
    specialize (Pos ltac:(done)).
    assert (wrap (sem_count sm - 1) = sem_count sm - 1) as HW
      by (apply wrap_small; lia).
    eapply (count_inv_update c0 t th th' sm _ ths); eauto; simpl; rewrite HW;
      try (intros HH; window_contra HH); try lia.
  - (* increment *)
    assert (sem_lock sm = Some t) as Hg by (by apply G).
    assert (sem_count sm = balance c0 a log) as HC.
    { apply S. eapply sem_guard_settled; eauto. }
    eapply (count_inv_update c0 t th th' sm _ ths); eauto; simpl;
      try (intros HH; window_contra HH).
    + apply wrap_range.
    + intros _. rewrite HC in *. done.
  - (* the assertion passes *)
    assert (sem_lock sm' = Some t) as Hg by (by apply G, sem_guards_of_incrementing).
    destruct (I t th Ht) as [HC HB]; [done|].
    assert (balance c0 a log + 1 <= UINT_MAX) as HU.
    { destruct (decide (balance c0 a log = UINT_MAX)) as [E|]; [|lia].
      rewrite E, wrap_overflow in HC. lia. }
    rewrite wrap_small in HC by lia.
    eapply (count_inv_update c0 t th th' sm' _ ths); eauto; simpl;
      try (intros HH; window_contra HH).
  - (* P returns *)
    assert (sem_lock sm = Some t) as Hg by (by apply G, sem_guards_of_decremented).
    specialize (D t th Ht ltac:(done)).
    match goal with H : Idle = t_pc th' |- _ => rename H into Hidle end.
    assert (balance c0 a (RetP t a :: log) = balance c0 a log - 1) as HB.
    { unfold balance. simpl. rewrite bool_decide_eq_true_2 by done. lia. }
    eapply (count_inv_update c0 t th th' sm _ ths); eauto;
      rewrite <- ?Hidle; simpl; try rewrite HB; try done.
  - (* V returns *)
    assert (sem_lock sm = Some t) as Hg by (by apply G, sem_guards_of_incremented).
    specialize (J t th Ht ltac:(done)).
    match goal with H : Idle = t_pc th' |- _ => rename H into Hidle end.
    assert (balance c0 a (RetV t a :: log) = balance c0 a log + 1) as HB.
    { unfold balance. simpl. rewrite bool_decide_eq_true_2 by done. lia. }
    eapply (count_inv_update c0 t th th' sm _ ths); eauto;
      rewrite <- ?Hidle; simpl; try rewrite HB; try done.
Qed.
End sem_protocol.

Ltac solve_sem_effect :=
  simpl;
  first
    [ solve [eapply seff_off; unfold settled; on_simpl; done]
    | solve [eapply seff_take; unfold settled; on_simpl; done]
    | solve [eapply seff_sleep; unfold settled; on_simpl; done]
    | solve [eapply seff_inside; unfold settled; on_simpl; done]
    | solve [eapply seff_dec; unfold settled; on_simpl; done]
    | solve [eapply seff_inc; unfold settled; on_simpl; done]
    | solve [eapply seff_pass; unfold settled; on_simpl; done]
    | solve [eapply seff_ret_P; unfold settled; on_simpl; done]
    | solve [eapply seff_ret_V; unfold settled; on_simpl; done] ].

Ltac count_facts :=
  repeat match goal with
         | H : (0 <? _) = true |- _ => apply Z.ltb_lt in H
         | H : (_ =? 0) = true |- _ => apply Z.eqb_eq in H
         | H : (_ =? 0) = false |- _ => apply Z.eqb_neq in H
         end.

Lemma exec_sem_effect (a : addr) (sm : semaphore) k t th h th' h' ev :
  exec k t th h = Next (th', h', ev) ->
  h !! a = Some (BSem sm) ->
  exists sm', h' !! a = Some (BSem sm') /\ sem_effect a t (t_pc th) sm (t_pc th') sm' ev.
Proof.
  intros H Ha.
  exec_inv H; count_facts; split_addr a.
  all: try (eexists; split; [heap_lookup|solve_sem_effect]).
  all: destruct (on a sem) eqn:Hon; eexists; (split; [heap_lookup|solve_sem_effect]).
Qed.

(** ** The semaphore invariant holds in every reachable state *)

Lemma outside_sem_call (a : addr) (p : pc) :
  in_sem_call a p = false ->
  sem_guards a p = false /\ sees_positive a p = false /\ settled a p.
Proof.
  unfold settled.
  destruct p as [|q ?|q ?| | | | | |]; simpl; try done; intros ->; by destruct q.
Qed.

Lemma sem_inv_initial (a : addr) (c0 : Z) (s : kstate) :
  sem_initial a c0 s -> sem_inv c0 a s.
Proof.
  intros ((sm & Hsm & Hc & Hg) & Hr & Hq & HP & HV).
  exists sm. split; [done|]. split.
  - intros t th Hlk.
    destruct (outside_sem_call a _ (Hq t th Hlk)) as (E1 & E2 & _).
    unfold sem_thread_inv. rewrite E1, E2. by split.
  - unfold sem_count_inv, balance. rewrite HP, HV, Hc.
    split; [done|]. split_and!.
    + intros t th Hlk.
      destruct (outside_sem_call a _ (Hq t th Hlk)) as (_ & _ & -> & _). done.
    + intros t th Hlk.
      destruct (outside_sem_call a _ (Hq t th Hlk)) as (_ & _ & _ & -> & _). done.
    + intros t th Hlk.
      destruct (outside_sem_call a _ (Hq t th Hlk)) as (_ & _ & _ & _ & ->). done.
    + intros _. lia.
Qed.

Lemma entry_unguarded (a : addr) (o : op) : sem_guards a (entry o) = false.
Proof. destruct o; simpl; rewrite ?andb_false_r; done. Qed.

Lemma sem_inv_effect (c0 : Z) (a : addr) (s : kstate) t th th' sm sm' h' ev :
  k_heap s !! a = Some (BSem sm) ->
  (forall t th, k_threads s !! t = Some th -> sem_thread_inv a sm t (t_pc th)) ->
  sem_count_inv c0 a sm (k_threads s) (k_log s) ->
  k_threads s !! t = Some th ->
  h' !! a = Some (BSem sm') ->
  sem_effect a t (t_pc th) sm (t_pc th') sm' ev ->
  sem_inv c0 a (mk_kstate h' (<[t := th']> (k_threads s)) (option_list ev ++ k_log s)).
Proof.
  intros Hsm Hth Hcnt Ht Hsm' Heff.
  exists sm'. simpl. split; [done|]. split.
  - eapply (sem_effect_threads a t th th' sm sm' ev (k_threads s)); try done.
    by destruct Hcnt.
  - by eapply (sem_effect_count a c0 t th th' sm sm' ev (k_threads s)).
Qed.

Lemma sem_inv_step (c0 : Z) (a : addr) (lb : label) (s s' : kstate) :
  sem_inv c0 a s -> step lb s = Next s' -> sem_inv c0 a s'.
Proof.
  intros (sm & Hsm & Hth & Hcnt) Hstep.
  destruct lb as [t intr o|t k]; simpl in Hstep.
  - destruct (k_threads s !! t) as [th|] eqn:Ht; [|done].
    destruct (t_pc th) eqn:Hpc; try done. simplify_eq.
    eapply (sem_inv_effect c0 a s t th (mk_thread intr (t_curspl th) (entry o)) sm sm _ None);
      eauto.
    rewrite Hpc. simpl. apply seff_off; try done. apply entry_unguarded.
  - destruct (k_threads s !! t) as [th|] eqn:Ht; [|done].
    destruct (exec k t th (k_heap s)) as [[[th' h'] ev]| | |] eqn:Hx; try done.
    simpl in Hstep. simplify_eq.
    destruct (exec_sem_effect a sm _ _ _ _ _ _ _ Hx Hsm) as (sm' & Hsm' & Heff).
    eapply sem_inv_effect; eauto.
Qed.

Lemma sem_inv_run (c0 : Z) (a : addr) (ls : list label) (s s' : kstate) :
  sem_inv c0 a s -> run ls s = Next s' -> sem_inv c0 a s'.
Proof.
  revert s. induction ls as [|lb ls IH]; intros s Hinv Hrun; simpl in Hrun.
  - by simplify_eq.
  - destruct (step lb s) as [s1| | |] eqn:Hs; try done.
    eapply IH; [|exact Hrun]. by eapply sem_inv_step.
Qed.

(** ** Wait channels stay where they are *)

Lemma exec_keeps_wchan (w : addr) (n : ptr) (q : list tid) k t th h th' h' ev :
  exec k t th h = Next (th', h', ev) ->
  h !! w = Some (BWchan n q) ->
  exists q', h' !! w = Some (BWchan n q').
Proof.
  intros H Hw.
  exec_inv H; split_addr w; eexists; heap_lookup.
Qed.

Lemma lock_effect_wchan (a : addr) t p l p' l' ev :
  lock_effect a t p l p' l' ev -> lock_wchan l' = lock_wchan l.
Proof. by inversion 1. Qed.

Lemma sem_effect_wchan (a : addr) t p sm p' sm' ev :
  sem_effect a t p sm p' sm' ev -> sem_wchan sm' = sem_wchan sm.
Proof. by inversion 1. Qed.

Lemma lock_wired_run (a w : addr) (n : ptr) (ls : list label) (s s' : kstate) :
  lock_wired a w n s -> run ls s = Next s' -> lock_wired a w n s'.
Proof.
  revert s. induction ls as [|lb ls IH]; intros s Hw Hrun; simpl in Hrun.
  { by simplify_eq. }
  destruct (step lb s) as [s1| | |] eqn:Hs; try done.
  eapply IH; [|exact Hrun]. clear IH Hrun.
  destruct Hw as (l & q & Hl & Hlw & Hq).
  destruct lb as [t intr o|t k]; simpl in Hs.
  - destruct (k_threads s !! t) as [th|] eqn:Ht; [|done].
    destruct (t_pc th); try done. simplify_eq. by exists l, q.
  - destruct (k_threads s !! t) as [th|] eqn:Ht; [|done].
    destruct (exec k t th (k_heap s)) as [[[th' h'] ev]| | |] eqn:Hx; try done.
    simpl in Hs. simplify_eq.
    destruct (exec_lock_effect a l _ _ _ _ _ _ _ Hx Hl) as (l' & Hl' & Heff).
    destruct (exec_keeps_wchan w n q _ _ _ _ _ _ _ Hx Hq) as (q' & Hq').
    exists l', q'. simpl. split_and!; try done.
    by rewrite (lock_effect_wchan _ _ _ _ _ _ _ Heff).
Qed.

Lemma sem_wired_run (a w : addr) (n : ptr) (ls : list label) (s s' : kstate) :
  sem_wired a w n s -> run ls s = Next s' -> sem_wired a w n s'.
Proof.
  revert s. induction ls as [|lb ls IH]; intros s Hw Hrun; simpl in Hrun.
  { by simplify_eq. }
  destruct (step lb s) as [s1| | |] eqn:Hs; try done.
  eapply IH; [|exact Hrun]. clear IH Hrun.
  destruct Hw as (sm & q & Hsm & Hsw & Hq).
  destruct lb as [t intr o|t k]; simpl in Hs.
  - destruct (k_threads s !! t) as [th|] eqn:Ht; [|done].
    destruct (t_pc th); try done. simplify_eq. by exists sm, q.
  - destruct (k_threads s !! t) as [th|] eqn:Ht; [|done].
    destruct (exec k t th (k_heap s)) as [[[th' h'] ev]| | |] eqn:Hx; try done.
    simpl in Hs. simplify_eq.
    destruct (exec_sem_effect a sm _ _ _ _ _ _ _ Hx Hsm) as (sm' & Hsm' & Heff).
    destruct (exec_keeps_wchan w n q _ _ _ _ _ _ _ Hx Hq) as (q' & Hq').
    exists sm', q'. simpl. split_and!; try done.
    by rewrite (sem_effect_wchan _ _ _ _ _ _ _ Heff).
Qed.

(** ** Waking one *)

Lemma woken_one (k : nat) (q : list tid) :
  woken q (wchan_wakeone k q) = (if q is [] then 0 else 1)%nat.
Proof.
  unfold woken, wchan_wakeone. destruct q as [|x q]; [done|].
  rewrite length_delete.
  - simpl. lia.
  - apply lookup_lt_is_Some_2. apply Nat.mod_upper_bound. done.
Qed.

(** The thread woken was asleep on the channel, and the others still are. *)
Lemma wakeone_sublist (k : nat) (q : list tid) : wchan_wakeone k q `sublist_of` q.
Proof. unfold wchan_wakeone. apply sublist_delete. Qed.

(** ** From creation to the first call *)

(** What [lock_create] returns is a lock no thread holds, with a free guard
    and an empty wait channel. *)
Lemma lock_create_initial (name : string) (m m' : mem) (a : addr)
  (ths : gmap tid thread) :
  lock_create name m = Next (Some a, m') ->
  (forall t th, ths !! t = Some th ->
     in_lock_call a (t_pc th) = false /\
     (at_splhigh (t_pc th) = true -> t_curspl th = IPL_HIGH)) ->
  lock_initial a (mk_kstate (m_heap m') ths []) /\
  exists w n, lock_wired a w n (mk_kstate (m_heap m') ths []).
Proof.
  intros Hc Hq. pose proof (lock_create_spec name m) as H. rewrite Hc in H.
  destruct H as (_ & nm & w & -> & _ & _ & _ & _ & Haw & _).
  split.
  - split; [|by split]. eexists. simpl. rewrite lookup_insert_eq. done.
  - exists w, (Some nm). eexists _, []. simpl.
    rewrite lookup_insert_eq, lookup_insert_ne, lookup_insert_eq by done. done.
Qed.

(** What [sem_create] returns is a semaphore with the count asked for, a
    free guard and an empty wait channel. *)
Lemma sem_create_initial (name : string) (c0 : Z) (m m' : mem) (a : addr)
  (ths : gmap tid thread) :
  sem_create name c0 m = Next (Some a, m') ->
  0 <= c0 <= UINT_MAX ->
  (forall t th, ths !! t = Some th -> in_sem_call a (t_pc th) = false) ->
  sem_initial a c0 (mk_kstate (m_heap m') ths []) /\
  exists w n, sem_wired a w n (mk_kstate (m_heap m') ths []).
Proof.
  intros Hc Hr Hq. pose proof (sem_create_spec name c0 m) as H. rewrite Hc in H.
  destruct H as (_ & nm & w & -> & _ & _ & _ & _ & Haw & _).
  split.
  - split; [|split_and!; try done; lia].
    eexists. simpl. rewrite lookup_insert_eq. done.
  - exists w, (Some nm). eexists _, []. simpl.
    rewrite lookup_insert_eq, lookup_insert_ne, lookup_insert_eq by done. done.
Qed.

(** The scenario of the specification: thread 1 acquires the lock, is told
    that it holds it, and releases it; thread 2 then acquires it without
    sleeping. *)
Example lock_taken_over :
  completes takeover_schedule free_lock_state = true /\
  k_log (after takeover_schedule free_lock_state)
    = [RetAcquire 2%nat 0%nat; RetRelease 1%nat 0%nat;
       RetDoIHold 1%nat 0%nat true; RetAcquire 1%nat 0%nat] /\
  load_lock (k_heap (after takeover_schedule free_lock_state)) (Some 0%nat)
    = Some (0%nat, set_holding_thread free_lock (Some 2%nat)).
Proof. split_and!; vm_compute; reflexivity. Qed.

(** ** Release *)

(** With nobody asleep on the wait channel, [lock_release] wakes no thread:
    thread 1, the holder, is at the wake-up with the channel empty, and the
    channel is empty after it. *)
Lemma lock_release_wakes_nobody :
  completes uncontended_schedule free_lock_state = true /\
  pc_of (after uncontended_schedule free_lock_state) 1%nat
    = Some (InLR LR_wake (Some 0%nat) IPL_NONE) /\
  sleepers_of (after uncontended_schedule free_lock_state) 2%nat = [] /\
  completes (uncontended_schedule ++ [Run 1%nat 0%nat]) free_lock_state = true /\
  pc_of (after (uncontended_schedule ++ [Run 1%nat 0%nat]) free_lock_state) 1%nat
    = Some (InLR LR_splx (Some 0%nat) IPL_NONE) /\
  sleepers_of (after (uncontended_schedule ++ [Run 1%nat 0%nat]) free_lock_state) 2%nat = [] /\
  woken (sleepers_of (after uncontended_schedule free_lock_state) 2%nat)
        (sleepers_of (after (uncontended_schedule ++ [Run 1%nat 0%nat]) free_lock_state)
           2%nat) = 0%nat.
Proof. split_and!; vm_compute; reflexivity. Qed.

(** Statement by statement: in every state a lock can reach from its
    creation, a thread at the holder check of [lock_release] halts the
    kernel unless it is the holder; the holder is cleared by the holder with
    the lock's guard held and the interrupt priority level at its highest;
    and there, after the holder has been cleared, one of the threads asleep
    on the lock's wait channel is woken when there is any, and none when
    there is not. *)
Lemma release_discipline_run (a w : addr) (n : ptr) (s0 s : kstate) (ls : list label) :
  lock_initial a s0 ->
  lock_wired a w n s0 ->
  run ls s0 = Next s ->
  release_discipline a s.
Proof.
  intros Hinit Hwired Hrun.
  pose proof (lock_inv_run a ls s0 s (lock_inv_initial a s0 Hinit) Hrun)
    as (l & Hl & Hth & Hlog).
  pose proof (lock_wired_run a w n ls s0 s Hwired Hrun) as (l2 & q & Hl2 & Hlw & Hq).
  simplify_eq.
  exists l, w, n, q. split_and!; try done.
  intros k t th sp Ht.
  destruct (Hth t th Ht) as ((G & F & A & C & R) & Hspl).
  split_and!; intros Hpc; rewrite Hpc in *; simpl in *; rewrite on_eq in *.
  - unfold exec. rewrite Hpc. simpl. unfold load_lock. rewrite Hl. simpl.
    by destruct (holds l t).
  - split_and!; try by auto.
    unfold exec. rewrite Hpc. simpl. unfold load_lock. by rewrite Hl.
  - split_and!; try by auto.
    + unfold exec. rewrite Hpc. simpl. unfold load_lock. rewrite Hl. simpl.
      rewrite Hlw. simpl. by rewrite Hq.
    + apply woken_one.
Qed.

(** ** Semaphore accounting *)

Lemma empty_sem_state_initial : sem_initial 0%nat 0 empty_sem_state.
Proof.
  split_and!; try done.
  - exists empty_sem. split_and!; reflexivity.
  - intros t th Hlk.
    by rewrite (two_idle_threads_quiescent _ _ t th Hlk).
Qed.

Lemma empty_sem_state_wired : sem_wired 0%nat 2%nat (Some 1%nat) empty_sem_state.
Proof. exists empty_sem, []. split_and!; reflexivity. Qed.

(** The scenario of the specification: the count is 0, thread 1 blocks in
    [P], thread 2 calls [V], thread 1 comes back and the count is 0
    again. *)
Example P_blocks_until_V :
  run (Call 1%nat false (OpP (Some 0%nat)) :: runs 1%nat 6) empty_sem_state = Blocked /\
  completes handoff_schedule empty_sem_state = true /\
  k_log (after handoff_schedule empty_sem_state) = [RetP 1%nat 0%nat; RetV 2%nat 0%nat] /\
  load_sem (k_heap (after handoff_schedule empty_sem_state)) (Some 0%nat)
    = Some (0%nat, empty_sem) /\
  sleepers_of (after handoff_schedule empty_sem_state) 2%nat = [].
Proof. split_and!; vm_compute; reflexivity. Qed.

(** C2: for a semaphore created with count [c0], in every state it can
    reach under any interleaving of the statements of any threads, the count
    is never negative (it stays within the range of [unsigned]); at every
    point where no call is between changing the count and returning, so
    whenever the semaphore's guard is free, the count is [c0 - n + m] for
    the [n] calls of [P] and the [m] calls of [V] that have returned; and no
    [P] decrements a count of 0. *)
Theorem semaphore_accounting (c0 : Z) (a : addr) (s0 s : kstate) (ls : list label) :
  sem_initial a c0 s0 ->
  run ls s0 = Next s ->
  sem_accounting c0 a s.
Proof.
  intros Hinit Hrun.
  pose proof (sem_inv_run c0 a ls s0 s (sem_inv_initial a c0 s0 Hinit) Hrun)
    as (sm & Hsm & Hth & (R & D & I & J & S)).
  exists sm. split; [done|]. split; [done|]. split_and!.
  - intros Hs. by apply S.
  - intros Hfree. apply S. intros t th Ht.
    apply settled_of_unguarded.
    destruct (Hth t th Ht) as (G & _).
    destruct (sem_guards a (t_pc th)); [|done].
    specialize (G eq_refl). congruence.
  - intros t th Ht Hpc. destruct (Hth t th Ht) as (_ & Pos).
    apply Pos. rewrite Hpc. simpl. apply on_eq.
Qed.

Lemma semaphore_accounting_witness :
  sem_initial 0%nat 0 empty_sem_state /\
  (exists s, run handoff_schedule empty_sem_state = Next s /\ sem_accounting 0 0%nat s).
Proof.
  split; [exact empty_sem_state_initial|].
  destruct (completes_run handoff_schedule empty_sem_state) as [s Hrun];
    [vm_compute; reflexivity|].
  exists s. split; [exact Hrun|].
  exact (semaphore_accounting 0 0%nat empty_sem_state s handoff_schedule
           empty_sem_state_initial Hrun).
Defined.

(** ** V *)

(** Statement by statement: in every state a semaphore can reach from its
    creation, a thread at the increment of [V] increments the count with
    the semaphore's guard held; the assertion that follows halts the kernel
    exactly when the increment went past [UINT_MAX] and wrapped to 0, and
    otherwise the count is one more than before; after it at most one of
    the threads asleep on the wait channel is woken. *)
Lemma V_discipline_run (c0 : Z) (a w : addr) (n : ptr) (s0 s : kstate)
  (ls : list label) :
  sem_initial a c0 s0 ->
  sem_wired a w n s0 ->
  run ls s0 = Next s ->
  V_discipline c0 a s.
Proof.
  intros Hinit Hwired Hrun.
  pose proof (sem_inv_run c0 a ls s0 s (sem_inv_initial a c0 s0 Hinit) Hrun)
    as (sm & Hsm & Hth & (R & D & I & J & S)).
  pose proof (sem_wired_run a w n ls s0 s Hwired Hrun) as (sm2 & q & Hsm2 & Hsw & Hq).
  simplify_eq.
  exists sm, w, n, q. split_and!; try done.
  intros k t th Ht.
  destruct (Hth t th Ht) as (G & _).
  split_and!; intros Hpc.
  - assert (sem_lock sm = Some t) as Hg
      by (apply G; rewrite Hpc; simpl; by rewrite on_eq).
    split_and!; [done| |].
    + apply S. eapply sem_guard_settled; eauto. by rewrite Hpc.
    + unfold exec. rewrite Hpc. simpl. unfold load_sem. by rewrite Hsm.
  - assert (sem_lock sm = Some t) as Hg
      by (apply G; rewrite Hpc; simpl; by rewrite on_eq).
    destruct (I t th Ht) as [HC HB]; [rewrite Hpc; simpl; apply on_eq|].
    split_and!; [done..|].
    unfold exec. rewrite Hpc. simpl. unfold load_sem. rewrite Hsm. simpl.
    case_bool_decide as E.
    + rewrite HC, E, wrap_overflow. done.
    + rewrite wrap_small in HC by lia.
      replace (0 <? sem_count sm) with true by (symmetry; apply Z.ltb_lt; lia). done.
  - assert (sem_lock sm = Some t) as Hg
      by (apply G; rewrite Hpc; simpl; by rewrite on_eq).
    split_and!; [done| | |].
    + apply (J t th Ht). rewrite Hpc. simpl. apply on_eq.
    + unfold exec. rewrite Hpc. simpl. unfold load_sem. rewrite Hsm. simpl.
      rewrite Hsw. simpl. by rewrite Hq.
    + rewrite woken_one. destruct q; lia.
Qed.

(** A [V] on a semaphore whose count is [UINT_MAX] halts the kernel. *)
Example V_overflow_panics :
  run (Call 1%nat false (OpV (Some 0%nat)) :: runs 1%nat 4) full_sem_state
  = Panic "sem->sem_count > 0".
Proof. vm_compute. reflexivity. Qed.

(** ** Condition variables *)

(** C3: [cv_wait] as it is in synch.c.  Whoever calls it, holder of the
    lock or not, the call returns at its first statement: no assertion is
    made, the heap is as before, so the lock has not been released and
    nobody has been queued, and the caller is not suspended. *)
Theorem cv_wait_returns_at_once (k : nat) (t : tid) (i : bool) (spl : Z)
  (c lock : ptr) (h : heap) :
  exec k t (mk_thread i spl (entry (OpCvWait c lock))) h
  = Next (mk_thread i spl Idle, h, Some (RetCvWait t c lock)).
Proof. reflexivity. Qed.

(** C4: [cv_broadcast] as it is in synch.c.  Whoever calls it, holder of
    the lock or not, the call returns at its first statement: no assertion
    is made and the heap is as before, so every thread asleep on a wait
    channel is still asleep on it. *)
Theorem cv_broadcast_returns_at_once (k : nat) (t : tid) (i : bool) (spl : Z)
  (c lock : ptr) (h : heap) :
  exec k t (mk_thread i spl (entry (OpCvBroadcast c lock))) h
  = Next (mk_thread i spl Idle, h, Some (RetCvBroadcast t c lock)).
Proof. reflexivity. Qed.

(** ** Interrupt context *)

(** C7: called from an interrupt handler, [P] and [lock_acquire] halt the
    kernel at the statement that follows the null check, before they look at
    the semaphore or the lock, so also when the call would not block;
    [cv_wait] makes no such check and returns. *)
Theorem blocking_calls_in_interrupt (k : nat) (t : tid) (spl sp : Z)
  (sem lock c : ptr) (h : heap) :
  exec k t (mk_thread true spl (InP P_intr sem)) h
  = Panic "curthread->t_in_interrupt == false" /\
  exec k t (mk_thread true spl (InLA LA_intr lock sp)) h
  = Panic "curthread->t_in_interrupt == false" /\
  exec k t (mk_thread true spl (entry (OpCvWait c lock))) h
  = Next (mk_thread true spl Idle, h, Some (RetCvWait t c lock)).
Proof. split_and!; reflexivity. Qed.

(** ** Null handles *)

(** C10: [P], [V], [sem_destroy], [lock_acquire], [lock_release],
    [lock_destroy], [lock_do_i_hold] and [cv_destroy] called with a null
    handle halt the kernel on their first statement, the assertion that the
    handle is not null: nothing has been read or written before it. *)
Theorem null_handle_is_fatal (k : nat) (t : tid) (i : bool) (spl : Z) (h : heap)
  (m : mem) :
  exec k t (mk_thread i spl (entry (OpP None))) h = Panic "sem != NULL" /\
  exec k t (mk_thread i spl (entry (OpV None))) h = Panic "sem != NULL" /\
  sem_destroy None m = Panic "sem != NULL" /\
  exec k t (mk_thread i spl (entry (OpLockAcquire None))) h = Panic "lock != NULL" /\
  exec k t (mk_thread i spl (entry (OpLockRelease None))) h = Panic "lock != NULL" /\
  lock_destroy None m = Panic "lock != NULL" /\
  exec k t (mk_thread i spl (entry (OpLockDoIHold None))) h = Panic "lock != NULL" /\
  cv_destroy None m = Panic "cv != NULL".
Proof. split_and!; reflexivity. Qed.

(** * Further properties of the code *)

(** ** What the create functions build *)

(** X1: when [sem_create] returns a semaphore, the heap is the one before
    the call plus three new, distinct blocks: a copy of the name, an empty
    wait channel labelled with that copy, and the semaphore itself, with
    the count asked for and a free guard.  No block that was live is
    changed. *)
Theorem sem_create_builds (name : string) (c : Z) (m : mem) :
  match sem_create name c m with
  | Next (Some a, m') =>
      exists nm w,
        m_heap m' = <[a := BSem (mk_semaphore (Some nm) (Some w) None c)]>
                      (<[w := BWchan (Some nm) []]> (<[nm := BStr name]> (m_heap m))) /\
        m_heap m !! a = None /\ m_heap m !! nm = None /\ m_heap m !! w = None /\
        a <> nm /\ a <> w /\ nm <> w /\
        (forall b x, m_heap m !! b = Some x -> m_heap m' !! b = Some x)
  | _ => True
  end.
Proof.
  pose proof (sem_create_spec name c m) as H.
  destruct (sem_create name c m) as [[[a|] m']| | |]; try done.
  destruct H as (_ & nm & w & -> & Ha & Hnm & Hw & ? & ? & ?).
  exists nm, w. split_and!; try done.
  intros b x Hb.
  rewrite !lookup_insert_ne by congruence. done.
Qed.

(** X2: when [lock_create] returns a lock, the heap is the one before the
    call plus three new, distinct blocks: a copy of the name, an empty wait
    channel labelled with that copy, and the lock itself, with no holder and
    a free guard.  No block that was live is changed. *)
Theorem lock_create_builds (name : string) (m : mem) :
  match lock_create name m with
  | Next (Some a, m') =>
      exists nm w,
        m_heap m' = <[a := BLock (mk_lock (Some nm) None None (Some w))]>
                      (<[w := BWchan (Some nm) []]> (<[nm := BStr name]> (m_heap m))) /\
        m_heap m !! a = None /\ m_heap m !! nm = None /\ m_heap m !! w = None /\
        a <> nm /\ a <> w /\ nm <> w /\
        (forall b x, m_heap m !! b = Some x -> m_heap m' !! b = Some x)
  | _ => True
  end.
Proof.
  pose proof (lock_create_spec name m) as H.
  destruct (lock_create name m) as [[[a|] m']| | |]; try done.
  destruct H as (_ & nm & w & -> & Ha & Hnm & Hw & ? & ? & ?).
  exists nm, w. split_and!; try done.
  intros b x Hb.
  rewrite !lookup_insert_ne by congruence. done.
Qed.

(** X3: when [cv_create] returns a condition variable, the heap is the one
    before the call plus two new, distinct blocks: a copy of the name and the
    structure pointing to it.  No wait channel is made, and no block that
    was live is changed. *)
Theorem cv_create_builds (name : string) (m : mem) :
  match cv_create name m with
  | Next (Some a, m') =>
      exists nm,
        m_heap m' = <[a := BCv (mk_cv (Some nm))]> (<[nm := BStr name]> (m_heap m)) /\
        m_heap m !! a = None /\ m_heap m !! nm = None /\ a <> nm /\
        (forall b x, m_heap m !! b = Some x -> m_heap m' !! b = Some x)
  | _ => True
  end.
Proof.
  pose proof (cv_create_spec name m) as H.
  destruct (cv_create name m) as [[[a|] m']| | |]; try done.
  destruct H as (_ & nm & -> & Ha & Hnm & ?).
  exists nm. split_and!; try done.
  intros b x Hb.
  rewrite !lookup_insert_ne by congruence. done.
Qed.

(** ** What the destroy functions free *)

Lemma sem_destroy_eq (a w nm : addr) (sm : semaphore) (n : ptr)
  (q : list tid) (str : string) (h : heap) (av : list bool) :
  h !! a = Some (BSem sm) ->
  sem_wchan sm = Some w -> h !! w = Some (BWchan n q) ->
  sem_name sm = Some nm -> h !! nm = Some (BStr str) ->
  sem_lock sm = None ->
  sem_destroy (Some a) (mk_mem h av) =
    if bool_decide (q = [])
    then Next (tt, mk_mem (delete a (delete nm (delete w h))) av)
    else Panic "threadlist_isempty(&wc->wc_threads)".
Proof.
  intros Ha Hw Hhw Hnm Hhnm Hg.
  unfold sem_destroy.
  rewrite bind_unfold. simpl.
  mstep. rewrite Hg. mstep. rewrite Hw. mstep.
  case_bool_decide; [|done].
  cbn [obind fst snd]. rewrite Hnm.
  assert (nm <> w) by (intros ->; congruence).
  assert (a <> w) by (intros ->; congruence).
  assert (a <> nm) by (intros ->; congruence).
  mstep. erewrite kfree_eq by mem_lookup. done.
Qed.

Lemma lock_destroy_eq (a w nm : addr) (l : lock) (n : ptr)
  (q : list tid) (str : string) (h : heap) (av : list bool) :
  h !! a = Some (BLock l) ->
  lock_wchan l = Some w -> h !! w = Some (BWchan n q) ->
  lk_name l = Some nm -> h !! nm = Some (BStr str) ->
  lock_lock l = None ->
  lock_destroy (Some a) (mk_mem h av) =
    if bool_decide (q = [])
    then Next (tt, mk_mem (delete a (delete nm (delete w h))) av)
    else Panic "threadlist_isempty(&wc->wc_threads)".
Proof.
  intros Ha Hw Hhw Hnm Hhnm Hg.
  unfold lock_destroy.
  rewrite bind_unfold. simpl.
  mstep. rewrite Hg. mstep. rewrite Hw. mstep.
  case_bool_decide; [|done].
  cbn [obind fst snd]. rewrite Hnm.
  assert (nm <> w) by (intros ->; congruence).
  assert (a <> w) by (intros ->; congruence).
  assert (a <> nm) by (intros ->; congruence).
  mstep. erewrite kfree_eq by mem_lookup. done.
Qed.

Lemma cv_destroy_eq (a nm : addr) (c : cv) (str : string) (h : heap) (av : list bool) :
  h !! a = Some (BCv c) ->
  cv_name c = Some nm -> h !! nm = Some (BStr str) ->
  cv_destroy (Some a) (mk_mem h av) = Next (tt, mk_mem (delete a (delete nm h)) av).
Proof.
  intros Ha Hnm Hhnm.
  unfold cv_destroy.
  rewrite bind_unfold. simpl.
  mstep. rewrite Hnm.
  assert (a <> nm) by (intros ->; congruence).
  mstep. erewrite kfree_eq by mem_lookup. done.
Qed.

(** X4: [sem_destroy] of a semaphore whose guard is free halts the kernel
    exactly when a thread is asleep on the semaphore's wait channel;
    otherwise it frees the wait channel, the name and the structure, and
    nothing else.  The count is not looked at. *)
Theorem sem_destroy_fatal_iff_waiters (a w nm : addr) (sm : semaphore) (n : ptr)
  (q : list tid) (str : string) (m : mem) :
  m_heap m !! a = Some (BSem sm) ->
  sem_wchan sm = Some w -> m_heap m !! w = Some (BWchan n q) ->
  sem_name sm = Some nm -> m_heap m !! nm = Some (BStr str) ->
  sem_lock sm = None ->
  sem_destroy (Some a) m =
    if bool_decide (q = [])
    then Next (tt, mk_mem (delete a (delete nm (delete w (m_heap m)))) (m_avail m))
    else Panic "threadlist_isempty(&wc->wc_threads)".
Proof. destruct m as [h av]. apply sem_destroy_eq. Qed.

Lemma sem_destroy_fatal_iff_waiters_witness :
  sem_destroy (Some 0%nat) (mk_mem idle_sem_heap []) =
  Next (tt, mk_mem (delete 0%nat (delete 1%nat (delete 2%nat idle_sem_heap))) []).
Proof.
  apply (sem_destroy_fatal_iff_waiters 0%nat 2%nat 1%nat
           (mk_semaphore (Some 1%nat) (Some 2%nat) None 3) (Some 1%nat) []
           "sem" (mk_mem idle_sem_heap [])); reflexivity.
Defined.

(** X5: [cv_destroy] of a condition variable frees its name and the
    structure, and nothing else; it makes no check for waiting threads. *)
Theorem cv_destroy_frees (a nm : addr) (c : cv) (str : string) (m : mem) :
  m_heap m !! a = Some (BCv c) ->
  cv_name c = Some nm -> m_heap m !! nm = Some (BStr str) ->
  cv_destroy (Some a) m = Next (tt, mk_mem (delete a (delete nm (m_heap m))) (m_avail m)).
Proof. destruct m as [h av]. apply cv_destroy_eq. Qed.

Lemma cv_destroy_frees_witness :
  cv_destroy (Some 0%nat) (mk_mem cv_heap []) =
  Next (tt, mk_mem (delete 0%nat (delete 1%nat cv_heap)) []).
Proof.
  apply (cv_destroy_frees 0%nat 1%nat (mk_cv (Some 1%nat)) "cv" (mk_mem cv_heap []));
    reflexivity.
Defined.

(** X6: destroying what a create function has just returned gives back the
    heap of before the creation, whatever that heap holds: nothing is
    leaked and nothing else is freed. *)
Theorem create_destroy_round_trip (name : string) (c : Z) (m : mem) :
  match sem_create name c m with
  | Next (Some a, m') =>
      exists m'', sem_destroy (Some a) m' = Next (tt, m'') /\ m_heap m'' = m_heap m
  | _ => True
  end /\
  match lock_create name m with
  | Next (Some a, m') =>
      exists m'', lock_destroy (Some a) m' = Next (tt, m'') /\ m_heap m'' = m_heap m
  | _ => True
  end /\
  match cv_create name m with
  | Next (Some a, m') =>
      exists m'', cv_destroy (Some a) m' = Next (tt, m'') /\ m_heap m'' = m_heap m
  | _ => True
  end.
Proof.
  split_and!.
  - pose proof (sem_create_spec name c m) as H.
    destruct (sem_create name c m) as [[[a|] [h' av']]| | |]; try done.
    simpl in H. destruct H as (_ & nm & w & -> & Ha & Hnm & Hw & ? & ? & ?).
    eexists. split.
    + eapply (sem_destroy_eq a w nm _ (Some nm) [] name); simplify_map_eq; done.
    + simpl. heap_eq.
  - pose proof (lock_create_spec name m) as H.
    destruct (lock_create name m) as [[[a|] [h' av']]| | |]; try done.
    simpl in H. destruct H as (_ & nm & w & -> & Ha & Hnm & Hw & ? & ? & ?).
    eexists. split.
    + eapply (lock_destroy_eq a w nm _ (Some nm) [] name); simplify_map_eq; done.
    + simpl. heap_eq.
  - pose proof (cv_create_spec name m) as H.
    destruct (cv_create name m) as [[[a|] [h' av']]| | |]; try done.
    simpl in H. destruct H as (_ & nm & -> & Ha & Hnm & ?).
    eexists. split.
    + eapply (cv_destroy_eq a nm _ name); simplify_map_eq; done.
    + simpl. heap_eq.
Qed.

(** ** Mutual exclusion as the callers see it *)

Lemma lock_step_effect (a : addr) (l : lock) (lb : label) (s s' : kstate) :
  k_heap s !! a = Some (BLock l) ->
  step lb s = Next s' ->
  exists t th th' l' ev,
    k_threads s !! t = Some th /\
    k_threads s' = <[t := th']> (k_threads s) /\
    k_heap s' !! a = Some (BLock l') /\
    k_log s' = option_list ev ++ k_log s /\
    lock_effect a t (t_pc th) l (t_pc th') l' ev.
Proof.
  intros Hl Hstep.
  destruct lb as [t intr o|t k]; simpl in Hstep.
  - destruct (k_threads s !! t) as [th|] eqn:Ht; [|done].
    destruct (t_pc th) eqn:Hpc; try done. simplify_eq.
    destruct (entry_off a o) as [E1 E2].
    exists t, th, (mk_thread intr (t_curspl th) (entry o)), l, None.
    split_and!; try done. rewrite Hpc. by apply eff_off.
  - destruct (k_threads s !! t) as [th|] eqn:Ht; [|done].
    destruct (exec k t th (k_heap s)) as [[[th' h'] ev]| | |] eqn:Hx; try done.
    simpl in Hstep. simplify_eq.
    destruct (exec_lock_effect a l _ _ _ _ _ _ _ Hx Hl) as (l' & Hl' & Heff).
    exists t, th, th', l', ev. done.
Qed.




(** ** Who has the guard *)

Lemma lock_guard_inside_step (a : addr) (l : lock) (lb : label) (s s' : kstate) :
  k_heap s !! a = Some (BLock l) ->
  lock_guard_inside a s ->
  step lb s = Next s' -> lock_guard_inside a s'.
Proof.
  intros Hl Hin Hstep l1 g Hl1 Hg.
  destruct (lock_step_effect a l lb s s' Hl Hstep)
    as (t & th & th' & l' & ev & Ht & -> & Hl' & _ & Heff).
  simplify_eq.
  pose proof (guards_of_acquiring a (t_pc th')).
  pose proof (guards_of_releasing a (t_pc th')).
  destruct (decide (g = t)) as [->|Hne].
  - exists th'. rewrite lookup_insert_eq. split; [done|].
    inversion Heff; subst; simpl in *; try done; saturate; try done;
      destruct (Hin _ _ Hl Hg) as (th0 & ? & ?); simplify_eq; congruence.
  - rewrite lookup_insert_ne by done.
    inversion Heff; subst; simpl in *; simplify_eq; by eapply Hin.
Qed.

Lemma lock_guard_inside_run (a : addr) (ls : list label) (s s' : kstate) :
  lock_inv a s -> lock_guard_inside a s ->
  run ls s = Next s' -> lock_guard_inside a s'.
Proof.
  revert s. induction ls as [|lb ls IH]; intros s Hinv Hin Hrun; simpl in Hrun.
  - by simplify_eq.
  - destruct (step lb s) as [s1| | |] eqn:Hs; try done.
    eapply (IH s1); [by eapply lock_inv_step| |done].
    destruct Hinv as (l & Hl & _). by eapply lock_guard_inside_step.
Qed.

(** X8: in every state a lock can reach, its guard is held by exactly the
    thread that is between [spinlock_acquire] and [spinlock_release] in
    [lock_acquire] or [lock_release], sleeping in [wchan_sleep] apart: at
    most one thread is there, no call sleeps or returns with the guard, and
    the guard is free whenever no thread is inside one of the two calls. *)
Theorem lock_guard_discipline (a : addr) (s0 s : kstate) (ls : list label) :
  lock_initial a s0 ->
  run ls s0 = Next s ->
  lock_guard_exact a s.
Proof.
  intros Hinit Hrun.
  pose proof (lock_inv_initial a s0 Hinit) as Hinv0.
  assert (lock_guard_inside a s0) as Hin0.
  { intros l g Hl Hg. destruct Hinit as ((l0 & Hl0 & _ & Hfree) & _). congruence. }
  pose proof (lock_guard_inside_run a ls s0 s Hinv0 Hin0 Hrun) as Hin.
  pose proof (lock_inv_run a ls s0 s Hinv0 Hrun) as (l & Hl & Hth & _).
  exists l. split; [done|]. split_and!.
  - intros g. split; [by apply Hin|].
    intros (th & Hlk & Hgu). destruct (Hth g th Hlk) as ((G & _) & _). by apply G.
  - intros t1 t2 th1 th2 H1 H2 G1 G2.
    destruct (Hth t1 th1 H1) as ((E1 & _) & _).
    destruct (Hth t2 th2 H2) as ((E2 & _) & _).
    specialize (E1 G1). specialize (E2 G2). congruence.
  - intros Hout. destruct (lock_lock l) as [g|] eqn:Hg; [|done].
    destruct (Hin l g Hl Hg) as (th & Hlk & Hgu).
    destruct (outside_lock_call a _ (Hout g th Hlk)) as (E & _). congruence.
Qed.

Lemma lock_guard_discipline_witness :
  lock_initial 0%nat free_lock_state /\
  (exists s, run contended_schedule free_lock_state = Next s /\ lock_guard_exact 0%nat s).
Proof.
  split; [exact free_lock_state_initial|].
  destruct (completes_run contended_schedule free_lock_state) as [s Hrun];
    [vm_compute; reflexivity|].
  exists s. split; [exact Hrun|].
  exact (lock_guard_discipline 0%nat free_lock_state s contended_schedule
           free_lock_state_initial Hrun).
Defined.

Lemma sem_step_effect (a : addr) (sm : semaphore) (lb : label) (s s' : kstate) :
  k_heap s !! a = Some (BSem sm) ->
  step lb s = Next s' ->
  exists t th th' sm' ev,
    k_threads s !! t = Some th /\
    k_threads s' = <[t := th']> (k_threads s) /\
    k_heap s' !! a = Some (BSem sm') /\
    k_log s' = option_list ev ++ k_log s /\
    sem_effect a t (t_pc th) sm (t_pc th') sm' ev.
Proof.
  intros Hsm Hstep.
  destruct lb as [t intr o|t k]; simpl in Hstep.
  - destruct (k_threads s !! t) as [th|] eqn:Ht; [|done].
    destruct (t_pc th) eqn:Hpc; try done. simplify_eq.
    exists t, th, (mk_thread intr (t_curspl th) (entry o)), sm, None.
    split_and!; try done. rewrite Hpc. apply seff_off; try done.
    apply entry_unguarded.
  - destruct (k_threads s !! t) as [th|] eqn:Ht; [|done].
    destruct (exec k t th (k_heap s)) as [[[th' h'] ev]| | |] eqn:Hx; try done.
    simpl in Hstep. simplify_eq.
    destruct (exec_sem_effect a sm _ _ _ _ _ _ _ Hx Hsm) as (sm' & Hsm' & Heff).
    exists t, th, th', sm', ev. done.
Qed.

Lemma sem_guard_inside_step (a : addr) (sm : semaphore) (lb : label) (s s' : kstate) :
  k_heap s !! a = Some (BSem sm) ->
  sem_guard_inside a s ->
  step lb s = Next s' -> sem_guard_inside a s'.
Proof.
  intros Hsm Hin Hstep sm1 g Hsm1 Hg.
  destruct (sem_step_effect a sm lb s s' Hsm Hstep)
    as (t & th & th' & sm' & ev & Ht & -> & Hsm' & _ & Heff).
  simplify_eq.
  pose proof (sem_guards_of_decremented a (t_pc th')).
  pose proof (sem_guards_of_incrementing a (t_pc th')).
  pose proof (sem_guards_of_incremented a (t_pc th')).
  destruct (decide (g = t)) as [->|Hne].
  - exists th'. rewrite lookup_insert_eq. split; [done|].
    inversion Heff; subst; simpl in *; try done; saturate; try done;
      destruct (Hin _ _ Hsm Hg) as (th0 & ? & ?); simplify_eq; congruence.
  - rewrite lookup_insert_ne by done.
    inversion Heff; subst; simpl in *; simplify_eq; by eapply Hin.
Qed.

Lemma sem_guard_inside_run (c0 : Z) (a : addr) (ls : list label) (s s' : kstate) :
  sem_inv c0 a s -> sem_guard_inside a s ->
  run ls s = Next s' -> sem_guard_inside a s'.
Proof.
  revert s. induction ls as [|lb ls IH]; intros s Hinv Hin Hrun; simpl in Hrun.
  - by simplify_eq.
  - destruct (step lb s) as [s1| | |] eqn:Hs; try done.
    eapply (IH s1); [by eapply sem_inv_step| |done].
    destruct Hinv as (sm & Hsm & _). by eapply sem_guard_inside_step.
Qed.

(** X9: in every state a semaphore can reach, its guard is held by exactly
    the thread that is between [spinlock_acquire] and [spinlock_release] in
    [P] or [V], sleeping in [wchan_sleep] apart: at most one thread is
    there, no call sleeps or returns with the guard, and the guard is free
    whenever no thread is inside one of the two calls. *)
Theorem sem_guard_discipline (c0 : Z) (a : addr) (s0 s : kstate) (ls : list label) :
  sem_initial a c0 s0 ->
  run ls s0 = Next s ->
  sem_guard_exact a s.
Proof.
  intros Hinit Hrun.
  pose proof (sem_inv_initial a c0 s0 Hinit) as Hinv0.
  assert (sem_guard_inside a s0) as Hin0.
  { intros sm g Hsm Hg. destruct Hinit as ((sm0 & Hsm0 & _ & Hfree) & _). congruence. }
  pose proof (sem_guard_inside_run c0 a ls s0 s Hinv0 Hin0 Hrun) as Hin.
  pose proof (sem_inv_run c0 a ls s0 s Hinv0 Hrun) as (sm & Hsm & Hth & _).
  exists sm. split; [done|]. split_and!.
  - intros g. split; [by apply Hin|].
    intros (th & Hlk & Hgu). destruct (Hth g th Hlk) as (G & _). by apply G.
  - intros t1 t2 th1 th2 H1 H2 G1 G2.
    destruct (Hth t1 th1 H1) as (E1 & _).
    destruct (Hth t2 th2 H2) as (E2 & _).
    specialize (E1 G1). specialize (E2 G2). congruence.
  - intros Hout. destruct (sem_lock sm) as [g|] eqn:Hg; [|done].
    destruct (Hin sm g Hsm Hg) as (th & Hlk & Hgu).
    destruct (outside_sem_call a _ (Hout g th Hlk)) as (E & _). congruence.
Qed.

Lemma sem_guard_discipline_witness :
  sem_initial 0%nat 0 empty_sem_state /\
  (exists s, run waking_schedule empty_sem_state = Next s /\ sem_guard_exact 0%nat s).
Proof.
  split; [exact empty_sem_state_initial|].
  destruct (completes_run waking_schedule empty_sem_state) as [s Hrun];
    [vm_compute; reflexivity|].
  exists s. split; [exact Hrun|].
  exact (sem_guard_discipline 0 0%nat empty_sem_state s waking_schedule
           empty_sem_state_initial Hrun).
Defined.

(** ** P never takes what is not there *)



(** ** The interrupt priority level *)

Lemma exec_level_at_call k t th h th' h' ev :
  exec k t th h = Next (th', h', ev) -> level_at_call th' = level_at_call th.
Proof. intros H. exec_inv H; reflexivity. Qed.

Lemma step_level_at_call (lb : label) (s s' : kstate) (t : tid) (th : thread) :
  step lb s = Next s' ->
  k_threads s !! t = Some th ->
  exists th', k_threads s' !! t = Some th' /\ level_at_call th' = level_at_call th.
Proof.
  intros Hstep Ht.
  destruct lb as [t0 intr o|t0 k]; simpl in Hstep.
  - destruct (k_threads s !! t0) as [th0|] eqn:Ht0; [|done].
    destruct (t_pc th0) eqn:Hpc; try done. simplify_eq. simpl.
    destruct (decide (t = t0)) as [->|Hne].
    + simplify_eq. eexists. rewrite lookup_insert_eq. split; [done|].
      unfold level_at_call. rewrite Hpc. by destruct o.
    + exists th. by rewrite lookup_insert_ne.
  - destruct (k_threads s !! t0) as [th0|] eqn:Ht0; [|done].
    destruct (exec k t0 th0 (k_heap s)) as [[[th' h'] ev]| | |] eqn:Hx; try done.
    simpl in Hstep. simplify_eq. simpl.
    destruct (decide (t = t0)) as [->|Hne].
    + simplify_eq. exists th'. rewrite lookup_insert_eq. split; [done|].
      by eapply exec_level_at_call.
    + exists th. by rewrite lookup_insert_ne.
Qed.

(** X11: [lock_acquire] and [lock_release] leave the interrupt priority
    level as they found it: along any run, whatever the other threads do
    and however often the thread sleeps, the level a thread had when it made
    its call is kept, in the level itself or in the local [spl], and it is
    the thread's level again once the call has returned.  The other
    operations never change the level. *)
Theorem spl_restored (ls : list label) (s s' : kstate) (t : tid) (th : thread) :
  run ls s = Next s' ->
  k_threads s !! t = Some th ->
  exists th', k_threads s' !! t = Some th' /\
    level_at_call th' = level_at_call th /\
    (t_pc th = Idle -> t_pc th' = Idle -> t_curspl th' = t_curspl th).
Proof.
  intros Hrun Ht.
  cut (exists th', k_threads s' !! t = Some th' /\ level_at_call th' = level_at_call th).
  { intros (th' & Hlk & Hlev). exists th'. split_and!; try done.
    intros H1 H2. unfold level_at_call in Hlev. by rewrite H1, H2 in Hlev. }
  revert s th Ht Hrun. induction ls as [|lb ls IH]; intros s th Ht Hrun; simpl in Hrun.
  - simplify_eq. by exists th.
  - destruct (step lb s) as [s1| | |] eqn:Hs; try done.
    destruct (step_level_at_call lb s s1 t th Hs Ht) as (th1 & Ht1 & E1).
    destruct (IH s1 th1 Ht1 Hrun) as (th' & Ht' & E'). exists th'. split; [done|].
    congruence.
Qed.

Lemma spl_restored_witness :
  exists th', k_threads (after takeover_schedule free_lock_state) !! 1%nat = Some th' /\
    level_at_call th' = level_at_call idle_thread /\
    (t_pc idle_thread = Idle -> t_pc th' = Idle -> t_curspl th' = t_curspl idle_thread).
Proof.
  destruct (completes_run takeover_schedule free_lock_state) as [s Hrun];
    [vm_compute; reflexivity|].
  rewrite (after_run _ _ _ Hrun).
  apply (spl_restored takeover_schedule free_lock_state s 1%nat idle_thread Hrun).
  reflexivity.
Defined.

(** ** What the operations leave alone *)

Lemma exec_frame (a : addr) k t th h th' h' ev :
  exec k t th h = Next (th', h', ev) ->
  frame_of <$> h' !! a = frame_of <$> h !! a.
Proof.
  intros H. exec_inv H; try done.
  all: split_addr a;
    repeat first [rewrite lookup_insert_eq | rewrite lookup_insert_ne by done];
    try done.
  all: repeat match goal with
             | H : ?h !! ?x = Some _ |- context [?h !! ?x] => rewrite H
             end; done.
Qed.

(** X12: [P], [V], the lock operations and the condition variable
    operations never allocate and never free, and they write nothing but
    counts, holders, guards and the lists of sleeping threads: along any
    run every address keeps a block of the same kind, with the same name
    and the same wait channel, and strings and condition variables are
    untouched. *)
Theorem operations_keep_the_frame (ls : list label) (s s' : kstate) (a : addr) :
  run ls s = Next s' ->
  frame_of <$> k_heap s' !! a = frame_of <$> k_heap s !! a.
Proof.
  revert s. induction ls as [|lb ls IH]; intros s Hrun; simpl in Hrun.
  - by simplify_eq.
  - destruct (step lb s) as [s1| | |] eqn:Hs; try done.
    rewrite (IH s1 Hrun). clear IH Hrun.
    destruct lb as [t intr o|t k]; simpl in Hs.
    + destruct (k_threads s !! t) as [th|]; [|done].
      destruct (t_pc th); try done. by simplify_eq.
    + destruct (k_threads s !! t) as [th|]; [|done].
      destruct (exec k t th (k_heap s)) as [[[th' h'] ev]| | |] eqn:Hx; try done.
      simpl in Hs. simplify_eq. simpl. by eapply exec_frame.
Qed.

Lemma operations_keep_the_frame_witness :
  frame_of <$> k_heap (after contended_schedule free_lock_state) !! 0%nat
  = frame_of <$> k_heap free_lock_state !! 0%nat.
Proof.
  destruct (completes_run contended_schedule free_lock_state) as [s Hrun];
    [vm_compute; reflexivity|].
  rewrite (after_run _ _ _ Hrun).
  exact (operations_keep_the_frame contended_schedule free_lock_state s 0%nat Hrun).
Defined.

(** ** The condition variable operations as they are *)

(** X13: as long as the threads call nothing but [cv_wait], [cv_signal] and
    [cv_broadcast], with whatever arguments, null or dangling pointers and
    locks they do not hold included, and from interrupt handlers or not, the
    kernel never halts and never faults, and the heap stays as it was: no
    lock is released or taken, no thread is put to sleep and none is
    woken. *)
Theorem cv_operations_touch_nothing (ls : list label) (s : kstate) :
  (forall t th, k_threads s !! t = Some th -> cv_pc (t_pc th) = true) ->
  forallb cv_label ls = true ->
  match run ls s with
  | Next s' => k_heap s' = k_heap s
  | Blocked => True
  | _ => False
  end.
Proof.
  revert s. induction ls as [|lb ls IH]; intros s Hpc Hls; simpl; [done|].
  simpl in Hls. apply andb_true_iff in Hls as [Hlb Hls].
  assert (match step lb s with
          | Next s1 => k_heap s1 = k_heap s /\
              (forall t th, k_threads s1 !! t = Some th -> cv_pc (t_pc th) = true)
          | Blocked => True
          | _ => False
          end) as Hstep.
  { destruct lb as [t intr o|t k]; simpl.
    - destruct (k_threads s !! t) as [th|] eqn:Ht; [|done].
      destruct (t_pc th); try done. simpl. split; [done|].
      intros t2 th2 Hlk. destruct (decide (t2 = t)) as [->|Hne].
      + rewrite lookup_insert_eq in Hlk. simplify_eq. by destruct o.
      + rewrite lookup_insert_ne in Hlk by done. by eapply Hpc.
    - destruct (k_threads s !! t) as [th|] eqn:Ht; [|done].
      pose proof (Hpc t th Ht) as Hcv. unfold exec.
      destruct (t_pc th); try done; simpl; (split; [done|]);
        intros t2 th2 Hlk; (destruct (decide (t2 = t)) as [->|Hne];
          [rewrite lookup_insert_eq in Hlk; by simplify_eq
          |rewrite lookup_insert_ne in Hlk by done; by eapply Hpc]). }
  destruct (step lb s) as [s1| | |]; try done.
  destruct Hstep as [Hh Hpc1]. simpl.
  specialize (IH s1 Hpc1 Hls).
  destruct (run ls s1); try done. congruence.
Qed.

Lemma cv_operations_touch_nothing_witness :
  match run [Call 1%nat true (OpCvWait None (Some 0%nat)); Run 1%nat 0%nat;
             Call 2%nat false (OpCvBroadcast (Some 5%nat) None); Run 2%nat 0%nat]
            free_lock_state with
  | Next s' => k_heap s' = k_heap free_lock_state
  | Blocked => True
  | _ => False
  end.
Proof.
  apply cv_operations_touch_nothing.
  - intros t th Hlk. by rewrite (two_idle_threads_quiescent _ _ t th Hlk).
  - reflexivity.
Defined.

(** ** One thread on its own *)

Lemma run_cons (lb : label) (ls : list label) (s : kstate) :
  run (lb :: ls) s = obind (step lb s) (run ls).
Proof. reflexivity. Qed.

Lemma run_app (ls1 ls2 : list label) (s : kstate) :
  run (ls1 ++ ls2) s = obind (run ls1 s) (run ls2).
Proof.
  revert s. induction ls1 as [|lb ls1 IH]; intros s; [done|].
  simpl. destruct (step lb s); try done. apply IH.
Qed.

Lemma step_Call (t : tid) (intr : bool) (o : op) (h : heap) (ths : gmap tid thread)
  (log : list event) (th : thread) :
  ths !! t = Some th -> t_pc th = Idle ->
  step (Call t intr o) (mk_kstate h ths log)
  = Next (mk_kstate h (<[t := mk_thread intr (t_curspl th) (entry o)]> ths) log).
Proof. intros Ht Hpc. simpl. by rewrite Ht, Hpc. Qed.

Lemma step_Run (t : tid) (k : nat) (h : heap) (ths : gmap tid thread)
  (log : list event) (th th' : thread) (h' : heap) (ev : option event) :
  ths !! t = Some th ->
  exec k t th h = Next (th', h', ev) ->
  step (Run t k) (mk_kstate h ths log)
  = Next (mk_kstate h' (<[t := th']> ths) (option_list ev ++ log)).
Proof. intros Ht Hx. simpl. by rewrite Ht, Hx. Qed.

(** Look a block up in a heap built by inserts. *)
Ltac heap_find :=
  repeat first [rewrite lookup_insert_eq | rewrite lookup_insert_ne by done].

(** Run the call and then the statements of a thread one by one. *)
Ltac call_now :=
  rewrite run_cons; erewrite step_Call by eassumption; cbn [obind entry].

Ltac run_now tac :=
  rewrite run_cons;
  erewrite step_Run;
    [ cbn [obind option_list app]
    | by heap_find
    | unfold exec; cbn [t_pc]; simpl;
      unfold load_sem, load_lock, load_wchan;
      repeat (progress (simpl; heap_find; tac));
      reflexivity ];
  rewrite ?insert_insert_eq;
  cbn [goto splx t_in_interrupt t_curspl t_pc option_list app].

Lemma P_solo (a : addr) (sm : semaphore) (s : kstate) (t : tid)
  (th : thread) (k : nat) :
  k_heap s !! a = Some (BSem sm) ->
  sem_lock sm = None ->
  0 < sem_count sm <= UINT_MAX ->
  k_threads s !! t = Some th -> t_pc th = Idle ->
  run (Call t false (OpP (Some a)) :: solo t k 7) s
  = Next (mk_kstate (<[a := BSem (set_sem_count sm (sem_count sm - 1))]> (k_heap s))
            (<[t := mk_thread false (t_curspl th) Idle]> (k_threads s))
            (RetP t a :: k_log s)).
Proof.
  destruct s as [h ths log]. cbn [k_heap k_threads k_log]. intros Ha Hg Hc Ht Hpc.
  assert ((sem_count sm =? 0) = false) as E0 by (apply Z.eqb_neq; lia).
  assert ((0 <? sem_count sm) = true) as E1 by (apply Z.ltb_lt; lia).
  unfold solo. cbn [repeat].
  call_now.
  run_now idtac.
  run_now idtac.
  run_now ltac:(rewrite ?Ha, ?Hg).
  run_now ltac:(rewrite ?E0).
  run_now ltac:(rewrite ?E1).
  run_now idtac.
  run_now idtac.
  simpl. do 3 f_equal.
  unfold set_sem_count, set_sem_lock. simpl.
  rewrite Hg, wrap_small by lia. done.
Qed.

(** X14: when the count is positive and the guard free, a thread that
    calls [P] outside interrupt handlers and runs on its own returns after
    seven statements without having slept: the count is one less, the guard
    is free again, and nothing else has changed. *)
Theorem P_takes_a_unit (a : addr) (sm : semaphore) (s : kstate) (t : tid)
  (th : thread) (k : nat) :
  k_heap s !! a = Some (BSem sm) ->
  sem_lock sm = None ->
  0 < sem_count sm <= UINT_MAX ->
  k_threads s !! t = Some th -> t_pc th = Idle ->
  run (Call t false (OpP (Some a)) :: solo t k 7) s
  = Next (mk_kstate (<[a := BSem (set_sem_count sm (sem_count sm - 1))]> (k_heap s))
            (<[t := mk_thread false (t_curspl th) Idle]> (k_threads s))
            (RetP t a :: k_log s)).
Proof. apply P_solo. Qed.

Lemma step_Run_blocked (t : tid) (k : nat) (h : heap) (ths : gmap tid thread)
  (log : list event) (th : thread) :
  ths !! t = Some th ->
  exec k t th h = Blocked ->
  step (Run t k) (mk_kstate h ths log) = Blocked.
Proof. intros Ht Hx. simpl. by rewrite Ht, Hx. Qed.

Lemma sem_guard_round (sm : semaphore) (g : spinlock) :
  sem_lock sm = None -> set_sem_lock (set_sem_lock sm g) None = sm.
Proof. destruct sm. simpl. by intros ->. Qed.

Lemma lock_guard_round (l : lock) (g : spinlock) :
  lock_lock l = None -> set_lock_lock (set_lock_lock l g) None = l.
Proof. destruct l. simpl. by intros ->. Qed.

Lemma asleep_after_enqueue (t : tid) (q : list tid) :
  bool_decide (t ∈ wchan_enqueue t q) = true.
Proof.
  apply bool_decide_eq_true_2. unfold wchan_enqueue. apply elem_of_app. right.
  by apply list_elem_of_singleton.
Qed.

Lemma P_sleep_solo (a w : addr) (sm : semaphore) (n : ptr) (q : list tid)
  (s : kstate) (t : tid) (th : thread) (k : nat) :
  k_heap s !! a = Some (BSem sm) ->
  sem_lock sm = None -> sem_count sm = 0 ->
  sem_wchan sm = Some w -> k_heap s !! w = Some (BWchan n q) ->
  k_threads s !! t = Some th -> t_pc th = Idle ->
  run (Call t false (OpP (Some a)) :: solo t k 5) s
  = Next (mk_kstate (<[w := BWchan n (q ++ [t])]> (k_heap s))
            (<[t := mk_thread false (t_curspl th) (InP P_asleep (Some a))]> (k_threads s))
            (k_log s)) /\
  run (Call t false (OpP (Some a)) :: solo t k 6) s = Blocked.
Proof.
  destruct s as [h ths log]. cbn [k_heap k_threads k_log].
  intros Ha Hg Hc Hw Hhw Ht Hpc.
  assert (a <> w) by (intros ->; congruence).
  assert (w <> a) by done.
  assert (run (Call t false (OpP (Some a)) :: solo t k 5) (mk_kstate h ths log)
          = Next (mk_kstate (<[w := BWchan n (q ++ [t])]> h)
                    (<[t := mk_thread false (t_curspl th) (InP P_asleep (Some a))]> ths)
                    log)) as Hrun.
  { unfold solo. cbn [repeat].
    call_now.
    run_now idtac.
    run_now idtac.
    run_now ltac:(rewrite ?Ha, ?Hg).
    run_now ltac:(rewrite ?Hc).
    run_now ltac:(rewrite ?Hw, ?Hhw).
    simpl. do 2 f_equal.
    unfold spinlock_release, wchan_enqueue. rewrite sem_guard_round by done.
    apply map_eq. intros i.
    repeat (rewrite lookup_insert). repeat case_decide; simplify_eq; congruence. }
  split; [exact Hrun|].
  change (Call t false (OpP (Some a)) :: solo t k 6)
    with ((Call t false (OpP (Some a)) :: solo t k 5) ++ [Run t k]).
  rewrite run_app, Hrun. cbn [obind].
  rewrite run_cons. erewrite step_Run_blocked; [done|by rewrite lookup_insert_eq|].
  unfold exec; cbn [t_pc]; simpl. unfold load_sem, load_wchan.
  repeat (progress (simpl; heap_find; rewrite ?Ha, ?Hw)).
  change (q ++ [t]) with (wchan_enqueue t q). by rewrite asleep_after_enqueue.
Qed.

(** X15: when the count is 0 and the guard free, a thread that calls [P]
    and runs on its own is, after five statements, asleep on the
    semaphore's wait channel, behind the threads already there: the count
    is still 0, the guard is free again, and the thread cannot take another
    step until it is woken. *)
Theorem P_sleeps_on_zero (a w : addr) (sm : semaphore) (n : ptr) (q : list tid)
  (s : kstate) (t : tid) (th : thread) (k : nat) :
  k_heap s !! a = Some (BSem sm) ->
  sem_lock sm = None -> sem_count sm = 0 ->
  sem_wchan sm = Some w -> k_heap s !! w = Some (BWchan n q) ->
  k_threads s !! t = Some th -> t_pc th = Idle ->
  run (Call t false (OpP (Some a)) :: solo t k 5) s
  = Next (mk_kstate (<[w := BWchan n (q ++ [t])]> (k_heap s))
            (<[t := mk_thread false (t_curspl th) (InP P_asleep (Some a))]> (k_threads s))
            (k_log s)) /\
  run (Call t false (OpP (Some a)) :: solo t k 6) s = Blocked.
Proof. apply P_sleep_solo. Qed.

Lemma V_solo (a w : addr) (sm : semaphore) (n : ptr) (q : list tid)
  (s : kstate) (t : tid) (th : thread) (intr : bool) (k : nat) :
  k_heap s !! a = Some (BSem sm) ->
  sem_lock sm = None -> 0 <= sem_count sm < UINT_MAX ->
  sem_wchan sm = Some w -> k_heap s !! w = Some (BWchan n q) ->
  k_threads s !! t = Some th -> t_pc th = Idle ->
  run (Call t intr (OpV (Some a)) :: solo t k 6) s
  = Next (mk_kstate
            (<[w := BWchan n (wchan_wakeone k q)]>
               (<[a := BSem (set_sem_count sm (sem_count sm + 1))]> (k_heap s)))
            (<[t := mk_thread intr (t_curspl th) Idle]> (k_threads s))
            (RetV t a :: k_log s)).
Proof.
  destruct s as [h ths log]. cbn [k_heap k_threads k_log].
  intros Ha Hg Hc Hw Hhw Ht Hpc.
  assert (a <> w) by (intros ->; congruence).
  assert (w <> a) by done.
  assert (wrap (sem_count sm + 1) = sem_count sm + 1) as EW
    by (apply wrap_small; lia).
  assert ((0 <? sem_count sm + 1) = true) as E1 by (apply Z.ltb_lt; lia).
  unfold solo. cbn [repeat].
  call_now.
  run_now idtac.
  run_now ltac:(rewrite ?Ha, ?Hg).
  run_now idtac.
  run_now ltac:(rewrite ?EW, ?E1).
  run_now ltac:(rewrite ?Hw, ?Hhw).
  run_now idtac.
  simpl. do 2 f_equal.
  unfold spinlock_release. rewrite ?EW.
  apply map_eq. intros i.
  repeat (rewrite lookup_insert). repeat case_decide; simplify_eq; try done.
  do 2 f_equal. destruct sm. simpl in *. by subst.
Qed.

(** X16: when the guard is free and the count below [UINT_MAX], a thread
    that calls [V], from an interrupt handler or not, and runs on its own
    returns after six statements: the count is one more, one of the threads
    asleep on the wait channel, the scheduler's choice, has been taken off
    it if there was any, the guard is free again, and nothing else has
    changed.  [V] never sleeps. *)
Theorem V_adds_a_unit (a w : addr) (sm : semaphore) (n : ptr) (q : list tid)
  (s : kstate) (t : tid) (th : thread) (intr : bool) (k : nat) :
  k_heap s !! a = Some (BSem sm) ->
  sem_lock sm = None -> 0 <= sem_count sm < UINT_MAX ->
  sem_wchan sm = Some w -> k_heap s !! w = Some (BWchan n q) ->
  k_threads s !! t = Some th -> t_pc th = Idle ->
  run (Call t intr (OpV (Some a)) :: solo t k 6) s
  = Next (mk_kstate
            (<[w := BWchan n (wchan_wakeone k q)]>
               (<[a := BSem (set_sem_count sm (sem_count sm + 1))]> (k_heap s)))
            (<[t := mk_thread intr (t_curspl th) Idle]> (k_threads s))
            (RetV t a :: k_log s)).
Proof. apply V_solo. Qed.

Lemma lock_acquire_solo (a : addr) (l : lock) (s : kstate) (t : tid)
  (th : thread) (k : nat) :
  k_heap s !! a = Some (BLock l) ->
  lock_lock l = None -> holding_thread l = None ->
  k_threads s !! t = Some th -> t_pc th = Idle ->
  run (Call t false (OpLockAcquire (Some a)) :: solo t k 9) s
  = Next (mk_kstate (<[a := BLock (set_holding_thread l (Some t))]> (k_heap s))
            (<[t := mk_thread false (t_curspl th) Idle]> (k_threads s))
            (RetAcquire t a :: k_log s)).
Proof.
  destruct s as [h ths log]. cbn [k_heap k_threads k_log].
  intros Ha Hg Hh Ht Hpc.
  assert (holds l t = false) as EH
    by (unfold holds; rewrite Hh; by apply bool_decide_eq_false_2).
  unfold solo. cbn [repeat].
  call_now.
  run_now idtac.
  run_now idtac.
  run_now ltac:(rewrite ?Ha, ?EH).
  run_now ltac:(rewrite ?Ha, ?Hg).
  run_now idtac.
  run_now ltac:(rewrite ?Hh).
  run_now idtac.
  run_now idtac.
  run_now idtac.
  simpl. do 3 f_equal.
  unfold spinlock_release. destruct l. simpl in *. by subst.
Qed.

(** X17: when the lock is free and so is its guard, a thread that calls
    [lock_acquire] outside interrupt handlers and runs on its own returns
    after nine statements without having slept: it is the holder, the guard
    is free again, its interrupt priority level is the one it had, and
    nothing else has changed. *)
Theorem lock_acquire_takes_free_lock (a : addr) (l : lock) (s : kstate) (t : tid)
  (th : thread) (k : nat) :
  k_heap s !! a = Some (BLock l) ->
  lock_lock l = None -> holding_thread l = None ->
  k_threads s !! t = Some th -> t_pc th = Idle ->
  run (Call t false (OpLockAcquire (Some a)) :: solo t k 9) s
  = Next (mk_kstate (<[a := BLock (set_holding_thread l (Some t))]> (k_heap s))
            (<[t := mk_thread false (t_curspl th) Idle]> (k_threads s))
            (RetAcquire t a :: k_log s)).
Proof. apply lock_acquire_solo. Qed.

Lemma lock_acquire_sleep_solo (a w : addr) (l : lock) (n : ptr)
  (q : list tid) (s : kstate) (t g : tid) (th : thread) (k : nat) :
  k_heap s !! a = Some (BLock l) ->
  lock_lock l = None -> holding_thread l = Some g -> g <> t ->
  lock_wchan l = Some w -> k_heap s !! w = Some (BWchan n q) ->
  k_threads s !! t = Some th -> t_pc th = Idle ->
  run (Call t false (OpLockAcquire (Some a)) :: solo t k 7) s
  = Next (mk_kstate (<[w := BWchan n (q ++ [t])]> (k_heap s))
            (<[t := mk_thread false IPL_HIGH (InLA LA_asleep (Some a) (t_curspl th))]>
               (k_threads s))
            (k_log s)) /\
  run (Call t false (OpLockAcquire (Some a)) :: solo t k 8) s = Blocked.
Proof.
  destruct s as [h ths log]. cbn [k_heap k_threads k_log].
  intros Ha Hg Hh Hne Hw Hhw Ht Hpc.
  assert (a <> w) by (intros ->; congruence).
  assert (w <> a) by done.
  assert (holds l t = false) as EH.
  { unfold holds. rewrite Hh. apply bool_decide_eq_false_2. congruence. }
  assert (run (Call t false (OpLockAcquire (Some a)) :: solo t k 7) (mk_kstate h ths log)
          = Next (mk_kstate (<[w := BWchan n (q ++ [t])]> h)
                    (<[t := mk_thread false IPL_HIGH
                               (InLA LA_asleep (Some a) (t_curspl th))]> ths)
                    log)) as Hrun.
  { unfold solo. cbn [repeat].
    call_now.
    run_now idtac.
    run_now idtac.
    run_now ltac:(rewrite ?Ha, ?EH).
    run_now ltac:(rewrite ?Ha, ?Hg).
    run_now idtac.
    run_now ltac:(rewrite ?Hh).
    run_now ltac:(rewrite ?Hw, ?Hhw).
    simpl. do 2 f_equal.
    unfold spinlock_release, wchan_enqueue. rewrite lock_guard_round by done.
    apply map_eq. intros i.
    repeat (rewrite lookup_insert). repeat case_decide; simplify_eq; congruence. }
  split; [exact Hrun|].
  change (Call t false (OpLockAcquire (Some a)) :: solo t k 8)
    with ((Call t false (OpLockAcquire (Some a)) :: solo t k 7) ++ [Run t k]).
  rewrite run_app, Hrun. cbn [obind].
  rewrite run_cons. erewrite step_Run_blocked; [done|by rewrite lookup_insert_eq|].
  unfold exec; cbn [t_pc]; simpl. unfold load_lock, load_wchan.
  repeat (progress (simpl; heap_find; rewrite ?Ha, ?Hw)).
  change (q ++ [t]) with (wchan_enqueue t q). by rewrite asleep_after_enqueue.
Qed.

(** X18: when the lock is held by another thread and its guard is free, a
    thread that calls [lock_acquire] and runs on its own is, after seven
    statements, asleep on the lock's wait channel, behind the threads
    already there, with the interrupt priority level raised: the holder is
    unchanged, the guard is free again, and the thread cannot take another
    step until it is woken. *)
Theorem lock_acquire_sleeps_on_held_lock (a w : addr) (l : lock) (n : ptr)
  (q : list tid) (s : kstate) (t g : tid) (th : thread) (k : nat) :
  k_heap s !! a = Some (BLock l) ->
  lock_lock l = None -> holding_thread l = Some g -> g <> t ->
  lock_wchan l = Some w -> k_heap s !! w = Some (BWchan n q) ->
  k_threads s !! t = Some th -> t_pc th = Idle ->
  run (Call t false (OpLockAcquire (Some a)) :: solo t k 7) s
  = Next (mk_kstate (<[w := BWchan n (q ++ [t])]> (k_heap s))
            (<[t := mk_thread false IPL_HIGH (InLA LA_asleep (Some a) (t_curspl th))]>
               (k_threads s))
            (k_log s)) /\
  run (Call t false (OpLockAcquire (Some a)) :: solo t k 8) s = Blocked.
Proof. apply lock_acquire_sleep_solo. Qed.

Lemma lock_release_solo (a w : addr) (l : lock) (n : ptr) (q : list tid)
  (s : kstate) (t : tid) (th : thread) (intr : bool) (k : nat) :
  k_heap s !! a = Some (BLock l) ->
  lock_lock l = None -> holding_thread l = Some t ->
  lock_wchan l = Some w -> k_heap s !! w = Some (BWchan n q) ->
  k_threads s !! t = Some th -> t_pc th = Idle ->
  run (Call t intr (OpLockRelease (Some a)) :: solo t k 8) s
  = Next (mk_kstate
            (<[w := BWchan n (wchan_wakeone k q)]>
               (<[a := BLock (set_holding_thread l None)]> (k_heap s)))
            (<[t := mk_thread intr (t_curspl th) Idle]> (k_threads s))
            (RetRelease t a :: k_log s)).
Proof.
  destruct s as [h ths log]. cbn [k_heap k_threads k_log].
  intros Ha Hg Hh Hw Hhw Ht Hpc.
  assert (a <> w) by (intros ->; congruence).
  assert (w <> a) by done.
  assert (holds l t = true) as EH
    by (unfold holds; rewrite Hh; by apply bool_decide_eq_true_2).
  unfold solo. cbn [repeat].
  call_now.
  run_now idtac.
  run_now ltac:(rewrite ?Ha, ?EH).
  run_now ltac:(rewrite ?Ha, ?Hg).
  run_now idtac.
  run_now idtac.
  run_now ltac:(rewrite ?Hw, ?Hhw).
  run_now idtac.
  run_now idtac.
  simpl. do 2 f_equal.
  unfold spinlock_release.
  apply map_eq. intros i.
  repeat (rewrite lookup_insert). repeat case_decide; simplify_eq; try done.
  do 2 f_equal. destruct l. simpl in *. by subst.
Qed.

(** X19: when the guard is free, the holder of the lock that calls
    [lock_release] and runs on its own returns after eight statements: the
    lock has no holder, one of the threads asleep on the wait channel, the
    scheduler's choice, has been taken off it if there was any, the guard is
    free again, the thread's interrupt priority level is the one it had, and
    nothing else has changed.  [lock_release] never sleeps. *)
Theorem lock_release_by_holder (a w : addr) (l : lock) (n : ptr) (q : list tid)
  (s : kstate) (t : tid) (th : thread) (intr : bool) (k : nat) :
  k_heap s !! a = Some (BLock l) ->
  lock_lock l = None -> holding_thread l = Some t ->
  lock_wchan l = Some w -> k_heap s !! w = Some (BWchan n q) ->
  k_threads s !! t = Some th -> t_pc th = Idle ->
  run (Call t intr (OpLockRelease (Some a)) :: solo t k 8) s
  = Next (mk_kstate
            (<[w := BWchan n (wchan_wakeone k q)]>
               (<[a := BLock (set_holding_thread l None)]> (k_heap s)))
            (<[t := mk_thread intr (t_curspl th) Idle]> (k_threads s))
            (RetRelease t a :: k_log s)).
Proof. apply lock_release_solo. Qed.

Lemma P_takes_a_unit_witness :
  run (Call 1%nat false (OpP (Some 0%nat)) :: solo 1%nat 0 7) idle_sem_state
  = Next (mk_kstate
            (<[0%nat := BSem (set_sem_count idle_sem (sem_count idle_sem - 1))]>
               (k_heap idle_sem_state))
            (<[1%nat := mk_thread false (t_curspl idle_thread) Idle]>
               (k_threads idle_sem_state))
            (RetP 1%nat 0%nat :: k_log idle_sem_state)).
Proof.
  apply (P_takes_a_unit 0%nat idle_sem idle_sem_state 1%nat idle_thread 0%nat);
    [reflexivity|reflexivity|unfold UINT_MAX; simpl; lia|reflexivity|reflexivity].
Defined.

Lemma P_sleeps_on_zero_witness :
  run (Call 1%nat false (OpP (Some 0%nat)) :: solo 1%nat 0 5) empty_sem_state
  = Next (mk_kstate (<[2%nat := BWchan (Some 1%nat) ([] ++ [1%nat])]> (k_heap empty_sem_state))
            (<[1%nat := mk_thread false (t_curspl idle_thread) (InP P_asleep (Some 0%nat))]>
               (k_threads empty_sem_state))
            (k_log empty_sem_state)) /\
  run (Call 1%nat false (OpP (Some 0%nat)) :: solo 1%nat 0 6) empty_sem_state = Blocked.
Proof.
  apply (P_sleeps_on_zero 0%nat 2%nat empty_sem (Some 1%nat) [] empty_sem_state 1%nat
           idle_thread 0%nat); reflexivity.
Defined.

Lemma V_adds_a_unit_witness :
  run (Call 2%nat true (OpV (Some 0%nat)) :: solo 2%nat 0 6) idle_sem_state
  = Next (mk_kstate
            (<[2%nat := BWchan (Some 1%nat) (wchan_wakeone 0 [])]>
               (<[0%nat := BSem (set_sem_count idle_sem (sem_count idle_sem + 1))]>
                  (k_heap idle_sem_state)))
            (<[2%nat := mk_thread true (t_curspl idle_thread) Idle]>
               (k_threads idle_sem_state))
            (RetV 2%nat 0%nat :: k_log idle_sem_state)).
Proof.
  apply (V_adds_a_unit 0%nat 2%nat idle_sem (Some 1%nat) [] idle_sem_state 2%nat
           idle_thread true 0%nat);
    [reflexivity|reflexivity|unfold UINT_MAX; simpl; lia|reflexivity..].
Defined.

Lemma lock_acquire_takes_free_lock_witness :
  run (Call 1%nat false (OpLockAcquire (Some 0%nat)) :: solo 1%nat 0 9) free_lock_state
  = Next (mk_kstate
            (<[0%nat := BLock (set_holding_thread free_lock (Some 1%nat))]>
               (k_heap free_lock_state))
            (<[1%nat := mk_thread false (t_curspl idle_thread) Idle]>
               (k_threads free_lock_state))
            (RetAcquire 1%nat 0%nat :: k_log free_lock_state)).
Proof.
  apply (lock_acquire_takes_free_lock 0%nat free_lock free_lock_state 1%nat idle_thread
           0%nat); reflexivity.
Defined.

Lemma lock_acquire_sleeps_on_held_lock_witness :
  run (Call 2%nat false (OpLockAcquire (Some 0%nat)) :: solo 2%nat 0 7) taken_lock_state
  = Next (mk_kstate
            (<[2%nat := BWchan (Some 1%nat) ([3%nat] ++ [2%nat])]> (k_heap taken_lock_state))
            (<[2%nat := mk_thread false IPL_HIGH
                          (InLA LA_asleep (Some 0%nat) (t_curspl idle_thread))]>
               (k_threads taken_lock_state))
            (k_log taken_lock_state)) /\
  run (Call 2%nat false (OpLockAcquire (Some 0%nat)) :: solo 2%nat 0 8) taken_lock_state
  = Blocked.
Proof.
  apply (lock_acquire_sleeps_on_held_lock 0%nat 2%nat taken_lock (Some 1%nat) [3%nat]
           taken_lock_state 2%nat 1%nat idle_thread 0%nat);
    [reflexivity|reflexivity|reflexivity|lia|reflexivity..].
Defined.

Lemma lock_release_by_holder_witness :
  run (Call 1%nat false (OpLockRelease (Some 0%nat)) :: solo 1%nat 0 8) taken_lock_state
  = Next (mk_kstate
            (<[2%nat := BWchan (Some 1%nat) (wchan_wakeone 0 [3%nat])]>
               (<[0%nat := BLock (set_holding_thread taken_lock None)]>
                  (k_heap taken_lock_state)))
            (<[1%nat := mk_thread false (t_curspl idle_thread) Idle]>
               (k_threads taken_lock_state))
            (RetRelease 1%nat 0%nat :: k_log taken_lock_state)).
Proof.
  apply (lock_release_by_holder 0%nat 2%nat taken_lock (Some 1%nat) [3%nat]
           taken_lock_state 1%nat idle_thread false 0%nat); reflexivity.
Defined.

(** ** Calls one after the other *)

(** X20: a thread outside interrupt handlers that takes a free lock and
    releases it, running on its own, leaves the kernel as it found it but
    for the thread it has woken, if any was asleep on the lock's wait
    channel, and for the two returns in the log: the lock is free, so is its
    guard, and the thread is idle at the interrupt priority level it had. *)
Theorem acquire_release_round_trip (a w : addr) (l : lock) (n : ptr) (q : list tid)
  (s : kstate) (t : tid) (th : thread) (k : nat) :
  k_heap s !! a = Some (BLock l) ->
  lock_lock l = None -> holding_thread l = None ->
  lock_wchan l = Some w -> k_heap s !! w = Some (BWchan n q) ->
  k_threads s !! t = Some th -> t_pc th = Idle -> t_in_interrupt th = false ->
  run (Call t false (OpLockAcquire (Some a)) :: solo t k 9 ++
       Call t false (OpLockRelease (Some a)) :: solo t k 8) s
  = Next (mk_kstate (<[w := BWchan n (wchan_wakeone k q)]> (k_heap s))
            (k_threads s)
            (RetRelease t a :: RetAcquire t a :: k_log s)).
Proof.
  intros Ha Hg Hh Hw Hhw Ht Hpc Hi.
  assert (a <> w) by (intros ->; congruence).
  rewrite app_comm_cons, run_app.
  rewrite (lock_acquire_solo a l s t th k) by done. cbn [obind].
  rewrite (lock_release_solo a w (set_holding_thread l (Some t)) n q _ t
             (mk_thread false (t_curspl th) Idle) false k);
    cbn [k_heap k_threads k_log];
    [|by rewrite lookup_insert_eq|by destruct l|by destruct l|by destruct l
     |by rewrite lookup_insert_ne|by rewrite lookup_insert_eq|done].
  cbn [t_curspl]. f_equal. f_equal.
  - f_equal. rewrite insert_insert_eq.
    apply map_eq. intros i. rewrite lookup_insert. case_decide; [|done].
    subst i. rewrite Ha. do 2 f_equal. destruct l. simpl in *. by subst.
  - rewrite insert_insert_eq.
    apply map_eq. intros i. rewrite lookup_insert. case_decide; [|done].
    subst i. rewrite Ht. f_equal. destruct th. simpl in *. by subst.
Qed.

Lemma acquire_release_round_trip_witness :
  run (Call 1%nat false (OpLockAcquire (Some 0%nat)) :: solo 1%nat 0 9 ++
       Call 1%nat false (OpLockRelease (Some 0%nat)) :: solo 1%nat 0 8) free_lock_state
  = Next (mk_kstate (<[2%nat := BWchan (Some 1%nat) (wchan_wakeone 0 [])]>
                       (k_heap free_lock_state))
            (k_threads free_lock_state)
            (RetRelease 1%nat 0%nat :: RetAcquire 1%nat 0%nat :: k_log free_lock_state)).
Proof.
  apply (acquire_release_round_trip 0%nat 2%nat free_lock (Some 1%nat) [] free_lock_state
           1%nat idle_thread 0%nat); reflexivity.
Defined.

(** X21: a thread outside interrupt handlers that takes a unit of a
    semaphore with [P] and gives it back with [V], running on its own,
    leaves the kernel as it found it but for the thread it has woken, if any
    was asleep on the semaphore's wait channel, and for the two returns in
    the log: the count is what it was and the guard is free. *)
Theorem P_V_round_trip (a w : addr) (sm : semaphore) (n : ptr) (q : list tid)
  (s : kstate) (t : tid) (th : thread) (k : nat) :
  k_heap s !! a = Some (BSem sm) ->
  sem_lock sm = None -> 0 < sem_count sm <= UINT_MAX ->
  sem_wchan sm = Some w -> k_heap s !! w = Some (BWchan n q) ->
  k_threads s !! t = Some th -> t_pc th = Idle -> t_in_interrupt th = false ->
  run (Call t false (OpP (Some a)) :: solo t k 7 ++
       Call t false (OpV (Some a)) :: solo t k 6) s
  = Next (mk_kstate (<[w := BWchan n (wchan_wakeone k q)]> (k_heap s))
            (k_threads s)
            (RetV t a :: RetP t a :: k_log s)).
Proof.
  intros Ha Hg Hc Hw Hhw Ht Hpc Hi.
  assert (a <> w) by (intros ->; congruence).
  rewrite app_comm_cons, run_app.
  rewrite (P_solo a sm s t th k) by done. cbn [obind].
  rewrite (V_solo a w (set_sem_count sm (sem_count sm - 1)) n q _ t
             (mk_thread false (t_curspl th) Idle) false k);
    cbn [k_heap k_threads k_log];
    [|by rewrite lookup_insert_eq|by destruct sm
     |destruct sm; simpl in *; lia|by destruct sm
     |by rewrite lookup_insert_ne|by rewrite lookup_insert_eq|done].
  cbn [t_curspl]. f_equal. f_equal.
  - f_equal. rewrite insert_insert_eq.
    apply map_eq. intros i. rewrite lookup_insert. case_decide; [|done].
    subst i. rewrite Ha. do 2 f_equal. destruct sm. simpl in *.
    unfold set_sem_count. simpl. f_equal. lia.
  - rewrite insert_insert_eq.
    apply map_eq. intros i. rewrite lookup_insert. case_decide; [|done].
    subst i. rewrite Ht. f_equal. destruct th. simpl in *. by subst.
Qed.

Lemma P_V_round_trip_witness :
  run (Call 1%nat false (OpP (Some 0%nat)) :: solo 1%nat 0 7 ++
       Call 1%nat false (OpV (Some 0%nat)) :: solo 1%nat 0 6) idle_sem_state
  = Next (mk_kstate (<[2%nat := BWchan (Some 1%nat) (wchan_wakeone 0 [])]>
                       (k_heap idle_sem_state))
            (k_threads idle_sem_state)
            (RetV 1%nat 0%nat :: RetP 1%nat 0%nat :: k_log idle_sem_state)).
Proof.
  apply (P_V_round_trip 0%nat 2%nat idle_sem (Some 1%nat) [] idle_sem_state
           1%nat idle_thread 0%nat);
    [reflexivity|reflexivity|unfold UINT_MAX; simpl; lia|reflexivity..].
Defined.

(** ** Misuse of a lock *)

Lemma step_Run_panic (t : tid) (k : nat) (h : heap) (ths : gmap tid thread)
  (log : list event) (th : thread) (msg : string) :
  ths !! t = Some th ->
  exec k t th h = Panic msg ->
  step (Run t k) (mk_kstate h ths log) = Panic msg.
Proof. intros Ht Hx. simpl. by rewrite Ht, Hx. Qed.

(** In a state the lock's protocol has led to, the holder field is the
    owner according to the log as far as an idle thread is concerned. *)
Lemma idle_holder_is_owner (a : addr) (s : kstate) (l : lock) (t : tid) (th : thread) :
  lock_inv a s -> k_heap s !! a = Some (BLock l) ->
  k_threads s !! t = Some th -> t_pc th = Idle ->
  holds l t = bool_decide (owner a (k_log s) = Some t).
Proof.
  intros (l' & Hl' & Hth & Hlog) Hl Ht Hpc. simplify_eq.
  unfold holds.
  destruct (holder_vs_owner a l' (k_threads s) (k_log s)) as
    [E|[(g & thg & Hg & Hacq & Hh & Ho)|(g & thg & Hg & Hrel & Hh & Ho)]];
    [intros t' th' Hlk; by apply Hth|done| | |].
  - by rewrite E.
  - rewrite Hh, Ho.
    rewrite bool_decide_eq_false_2, bool_decide_eq_false_2; [done|done|].
    intros [= ->]. simplify_eq. by rewrite Hpc in Hacq.
  - rewrite Hh, Ho.
    rewrite bool_decide_eq_false_2, bool_decide_eq_false_2; [done| |done].
    intros [= ->]. simplify_eq. by rewrite Hpc in Hrel.
Qed.

(** X22: however the threads have been scheduled since the lock was
    created, the thread whose [lock_acquire] returned last, with no
    [lock_release] returned since, halts the kernel if it calls
    [lock_acquire] on that lock again: the call fails the assertion that the
    caller does not hold the lock, at its third statement, before it touches
    the guard. *)
Theorem lock_reacquire_is_fatal (a : addr) (ls : list label) (s0 s : kstate) (t : tid)
  (th : thread) (k : nat) :
  lock_initial a s0 -> run ls s0 = Next s ->
  owner a (k_log s) = Some t ->
  k_threads s !! t = Some th -> t_pc th = Idle ->
  run (Call t false (OpLockAcquire (Some a)) :: solo t k 3) s
  = Panic "!lock_do_i_hold(lock)".
Proof.
  intros Hinit Hrun Ho Ht Hpc.
  assert (lock_inv a s) as Hinv
    by (eapply lock_inv_run; [by apply lock_inv_initial|exact Hrun]).
  destruct (Hinv) as (l & Ha & _).
  pose proof (idle_holder_is_owner a s l t th Hinv Ha Ht Hpc) as EH.
  rewrite bool_decide_eq_true_2 in EH by done.
  clear Hinit Hrun Hinv Ho.
  destruct s as [h ths log]. cbn [k_heap k_threads k_log] in *.
  unfold solo. cbn [repeat].
  call_now.
  run_now idtac.
  run_now idtac.
  rewrite run_cons.
  erewrite step_Run_panic; [done|by rewrite lookup_insert_eq|].
  unfold exec; cbn [t_pc]; simpl. unfold load_lock.
  repeat (progress (simpl; heap_find; rewrite ?Ha, ?EH)). done.
Qed.

Lemma lock_reacquire_is_fatal_witness :
  run (Call 1%nat false (OpLockAcquire (Some 0%nat)) :: solo 1%nat 0 3)
      (after acquire_schedule free_lock_state)
  = Panic "!lock_do_i_hold(lock)".
Proof.
  destruct (completes_run acquire_schedule free_lock_state) as [s Hrun];
    [vm_compute; reflexivity|].
  apply (lock_reacquire_is_fatal 0%nat acquire_schedule free_lock_state
           (after acquire_schedule free_lock_state) 1%nat idle_thread 0%nat);
    [exact free_lock_state_initial
    |by rewrite (after_run _ _ _ Hrun)
    |vm_compute; reflexivity
    |vm_compute; reflexivity
    |reflexivity].
Defined.



(** ** A sleeper and the thread that wakes it *)

Lemma wakeone_last (kg : nat) (q : list tid) (t : tid) :
  (kg mod S (length q))%nat = length q ->
  wchan_wakeone kg (wchan_enqueue t q) = q.
Proof.
  intros Hk. unfold wchan_wakeone, wchan_enqueue.
  rewrite length_app. simpl. rewrite Nat.add_1_r, Hk.
  clear Hk. induction q as [|x q IH]; [done|]. simpl. by rewrite IH.
Qed.

(** X24: a thread that called [P] on a semaphore with count 0 and went to
    sleep returns from [P] once another thread's [V], called from an
    interrupt handler or not, has woken it: after the five statements it
    runs when woken, the count is 0 again, the guard is free, the sleepers
    are those there were before, and the log has the return of [V] followed
    by that of [P]. *)
Theorem semaphore_hand_off (a w : addr) (sm : semaphore) (n : ptr) (q : list tid)
  (s : kstate) (t g : tid) (th thg : thread) (intr : bool) (k kg : nat) :
  k_heap s !! a = Some (BSem sm) ->
  sem_lock sm = None -> sem_count sm = 0 ->
  sem_wchan sm = Some w -> k_heap s !! w = Some (BWchan n q) ->
  k_threads s !! t = Some th -> t_pc th = Idle ->
  k_threads s !! g = Some thg -> t_pc thg = Idle -> g <> t ->
  t ∉ q -> (kg mod S (length q))%nat = length q ->
  run (Call t false (OpP (Some a)) :: solo t k 5 ++
       Call g intr (OpV (Some a)) :: solo g kg 6 ++
       solo t k 5) s
  = Next (mk_kstate (k_heap s)
            (<[t := mk_thread false (t_curspl th) Idle]>
               (<[g := mk_thread intr (t_curspl thg) Idle]> (k_threads s)))
            (RetP t a :: RetV g a :: k_log s)).
Proof.
  intros Ha Hg Hc Hw Hhw Ht Hpc Htg Hpcg Hne Hq Hk.
  assert (a <> w) by (intros ->; congruence).
  assert (w <> a) by done.
  assert (t <> g) by done.
  assert (bool_decide (t ∈ q) = false) as EQ by by apply bool_decide_eq_false_2.
  rewrite app_comm_cons, run_app.
  destruct (P_sleep_solo a w sm n q s t th k) as [-> _]; try done. cbn [obind].
  rewrite app_comm_cons, run_app.
  rewrite (V_solo a w sm n (q ++ [t]) _ g thg intr kg);
    cbn [k_heap k_threads k_log];
    [|by rewrite lookup_insert_ne|done|unfold UINT_MAX; rewrite Hc; simpl; lia|done
     |by rewrite lookup_insert_eq|by rewrite lookup_insert_ne|done].
  cbn [obind].
  change (q ++ [t]) with (wchan_enqueue t q). rewrite wakeone_last by done.
  destruct s as [h ths log]. cbn [k_heap k_threads k_log] in *.
  unfold solo. cbn [repeat].
  run_now ltac:(rewrite ?Hg, ?Hw, ?EQ).
  run_now ltac:(rewrite ?Hc).
  run_now ltac:(rewrite ?Hc).
  run_now idtac.
  run_now idtac.
  simpl. f_equal. f_equal.
  - apply map_eq. intros i.
    repeat (rewrite lookup_insert). repeat case_decide; simplify_eq; try done.
    all: repeat match goal with
               | E : ?m !! ?x = Some _ |- context [?m !! ?x] => rewrite E
               end; try done.
    do 2 f_equal. destruct sm. simpl in *. by subst.
  - apply map_eq. intros i.
    repeat (rewrite lookup_insert). by repeat case_decide; simplify_eq.
Qed.

Lemma semaphore_hand_off_witness :
  run (Call 1%nat false (OpP (Some 0%nat)) :: solo 1%nat 0 5 ++
       Call 2%nat true (OpV (Some 0%nat)) :: solo 2%nat 0 6 ++
       solo 1%nat 0 5) empty_sem_state
  = Next (mk_kstate (k_heap empty_sem_state)
            (<[1%nat := mk_thread false (t_curspl idle_thread) Idle]>
               (<[2%nat := mk_thread true (t_curspl idle_thread) Idle]>
                  (k_threads empty_sem_state)))
            (RetP 1%nat 0%nat :: RetV 2%nat 0%nat :: k_log empty_sem_state)).
Proof.
  apply (semaphore_hand_off 0%nat 2%nat empty_sem (Some 1%nat) [] empty_sem_state
           1%nat 2%nat idle_thread idle_thread true 0%nat 0%nat);
    [reflexivity..|lia|apply not_elem_of_nil|reflexivity].
Defined.

(** X25: a thread that called [lock_acquire] on a held lock and went to
    sleep gets the lock once the holder's [lock_release] has woken it:
    after the five statements it runs when woken it is the holder, the guard
    is free, its interrupt priority level is the one it had before the call,
    the sleepers are those there were before, and the log has the return of
    [lock_release] followed by that of [lock_acquire]. *)
Theorem lock_hand_off (a w : addr) (l : lock) (n : ptr) (q : list tid)
  (s : kstate) (t g : tid) (th thg : thread) (intr : bool) (k kg : nat) :
  k_heap s !! a = Some (BLock l) ->
  lock_lock l = None -> holding_thread l = Some g ->
  lock_wchan l = Some w -> k_heap s !! w = Some (BWchan n q) ->
  k_threads s !! t = Some th -> t_pc th = Idle ->
  k_threads s !! g = Some thg -> t_pc thg = Idle -> g <> t ->
  t ∉ q -> (kg mod S (length q))%nat = length q ->
  run (Call t false (OpLockAcquire (Some a)) :: solo t k 7 ++
       Call g intr (OpLockRelease (Some a)) :: solo g kg 8 ++
       solo t k 5) s
  = Next (mk_kstate (<[a := BLock (set_holding_thread l (Some t))]> (k_heap s))
            (<[t := mk_thread false (t_curspl th) Idle]>
               (<[g := mk_thread intr (t_curspl thg) Idle]> (k_threads s)))
            (RetAcquire t a :: RetRelease g a :: k_log s)).
Proof.
  intros Ha Hg Hh Hw Hhw Ht Hpc Htg Hpcg Hne Hq Hk.
  assert (a <> w) by (intros ->; congruence).
  assert (w <> a) by done.
  assert (t <> g) by done.
  assert (bool_decide (t ∈ q) = false) as EQ by by apply bool_decide_eq_false_2.
  rewrite app_comm_cons, run_app.
  destruct (lock_acquire_sleep_solo a w l n q s t g th k) as [-> _]; try done.
  cbn [obind].
  rewrite app_comm_cons, run_app.
  rewrite (lock_release_solo a w l n (q ++ [t]) _ g thg intr kg);
    cbn [k_heap k_threads k_log];
    [|by rewrite lookup_insert_ne|done|done|done
     |by rewrite lookup_insert_eq|by rewrite lookup_insert_ne|done].
  cbn [obind].
  change (q ++ [t]) with (wchan_enqueue t q). rewrite wakeone_last by done.
  destruct s as [h ths log]. cbn [k_heap k_threads k_log] in *.
  unfold solo. cbn [repeat].
  run_now ltac:(rewrite ?Hg, ?Hw, ?EQ).
  run_now idtac.
  run_now idtac.
  run_now idtac.
  run_now idtac.
  simpl. f_equal. f_equal.
  - apply map_eq. intros i.
    repeat (rewrite lookup_insert). repeat case_decide; simplify_eq; try done.
    all: repeat match goal with
               | E : ?m !! ?x = Some _ |- context [?m !! ?x] => rewrite E
               end; try done.
    do 2 f_equal. destruct l. simpl in *. by subst.
  - apply map_eq. intros i.
    repeat (rewrite lookup_insert). by repeat case_decide; simplify_eq.
Qed.

Lemma lock_hand_off_witness :
  run (Call 2%nat false (OpLockAcquire (Some 0%nat)) :: solo 2%nat 0 7 ++
       Call 1%nat false (OpLockRelease (Some 0%nat)) :: solo 1%nat 1 8 ++
       solo 2%nat 0 5) taken_lock_state
  = Next (mk_kstate
            (<[0%nat := BLock (set_holding_thread taken_lock (Some 2%nat))]>
               (k_heap taken_lock_state))
            (<[2%nat := mk_thread false (t_curspl idle_thread) Idle]>
               (<[1%nat := mk_thread false (t_curspl idle_thread) Idle]>
                  (k_threads taken_lock_state)))
            (RetAcquire 2%nat 0%nat :: RetRelease 1%nat 0%nat :: k_log taken_lock_state)).
Proof.
  apply (lock_hand_off 0%nat 2%nat taken_lock (Some 1%nat) [3%nat] taken_lock_state
           2%nat 1%nat idle_thread idle_thread false 0%nat 1%nat);
    [reflexivity..|lia|by apply not_elem_of_cons; split; [lia|apply not_elem_of_nil]
    |reflexivity].
Defined.

(** * Calls of [lock_release] and [V], from entry to return *)

(** ** The statements of [lock_release] one after the other *)

Lemma lock_release_solo_panic (a : addr) (l : lock) (s : kstate) (t : tid) (th : thread)
  (intr : bool) (k : nat) :
  k_heap s !! a = Some (BLock l) -> holding_thread l <> Some t ->
  k_threads s !! t = Some th -> t_pc th = Idle ->
  run (release_by t intr a k 2) s = Panic "lock->holding_thread == curthread".
Proof.
  destruct s as [h ths log]. cbn [k_heap k_threads k_log]. intros Ha Hh Ht Hpc.
  assert (holds l t = false) as EH by (by apply bool_decide_eq_false_2).
  unfold release_by, solo. cbn [repeat].
  call_now.
  run_now idtac.
  rewrite run_cons.
  erewrite step_Run_panic; [done|by rewrite lookup_insert_eq|].
  unfold exec; cbn [t_pc]; simpl. unfold load_lock.
  repeat (progress (simpl; heap_find; rewrite ?Ha, ?EH)). done.
Qed.

Lemma lock_release_solo_spin (a : addr) (l : lock) (s : kstate) (t : tid) (th : thread)
  (intr : bool) (k : nat) :
  k_heap s !! a = Some (BLock l) -> holding_thread l = Some t -> lock_lock l <> None ->
  k_threads s !! t = Some th -> t_pc th = Idle ->
  run (release_by t intr a k 3) s = Blocked.
Proof.
  destruct s as [h ths log]. cbn [k_heap k_threads k_log]. intros Ha Hh Hg Ht Hpc.
  assert (holds l t = true) as EH by (by apply bool_decide_eq_true_2).
  destruct (lock_lock l) as [g|] eqn:Eg; [clear Hg|done].
  unfold release_by, solo. cbn [repeat].
  call_now.
  run_now idtac.
  run_now ltac:(rewrite ?Ha, ?EH).
  rewrite run_cons.
  erewrite step_Run_blocked; [done|by rewrite lookup_insert_eq|].
  unfold exec; cbn [t_pc]; simpl. unfold load_lock.
  repeat (progress (simpl; heap_find; rewrite ?Ha, ?Eg)). done.
Qed.

Lemma lock_release_stages (a w : addr) (l : lock) (n : ptr) (q : list tid)
  (s : kstate) (t : tid) (th : thread) (intr : bool) (k : nat) :
  k_heap s !! a = Some (BLock l) ->
  lock_lock l = None -> holding_thread l = Some t ->
  lock_wchan l = Some w -> k_heap s !! w = Some (BWchan n q) ->
  k_threads s !! t = Some th -> t_pc th = Idle ->
  run (release_by t intr a k 4) s
  = Next (mk_kstate (<[a := BLock (set_lock_lock l (Some t))]> (k_heap s))
            (<[t := mk_thread intr IPL_HIGH (InLR LR_clear (Some a) (t_curspl th))]>
               (k_threads s))
            (k_log s)) /\
  run (release_by t intr a k 5) s
  = Next (mk_kstate
            (<[a := BLock (set_holding_thread (set_lock_lock l (Some t)) None)]> (k_heap s))
            (<[t := mk_thread intr IPL_HIGH (InLR LR_wake (Some a) (t_curspl th))]>
               (k_threads s))
            (k_log s)) /\
  run (release_by t intr a k 6) s
  = Next (mk_kstate
            (<[w := BWchan n (wchan_wakeone k q)]>
               (<[a := BLock (set_holding_thread (set_lock_lock l (Some t)) None)]>
                  (k_heap s)))
            (<[t := mk_thread intr IPL_HIGH (InLR LR_splx (Some a) (t_curspl th))]>
               (k_threads s))
            (k_log s)).
Proof.
  destruct s as [h ths log]. cbn [k_heap k_threads k_log].
  intros Ha Hg Hh Hw Hhw Ht Hpc.
  assert (a <> w) by (intros ->; congruence).
  assert (w <> a) by done.
  assert (holds l t = true) as EH by (by apply bool_decide_eq_true_2).
  assert (run (release_by t intr a k 4) (mk_kstate h ths log)
          = Next (mk_kstate (<[a := BLock (set_lock_lock l (Some t))]> h)
                    (<[t := mk_thread intr IPL_HIGH
                               (InLR LR_clear (Some a) (t_curspl th))]> ths)
                    log)) as H4.
  { unfold release_by, solo. cbn [repeat].
    call_now.
    run_now idtac.
    run_now ltac:(rewrite ?Ha, ?EH).
    run_now ltac:(rewrite ?Ha, ?Hg).
    run_now idtac.
    reflexivity. }
  assert (run (release_by t intr a k 5) (mk_kstate h ths log)
          = Next (mk_kstate
                    (<[a := BLock (set_holding_thread (set_lock_lock l (Some t)) None)]> h)
                    (<[t := mk_thread intr IPL_HIGH
                               (InLR LR_wake (Some a) (t_curspl th))]> ths)
                    log)) as H5.
  { change (release_by t intr a k 5) with (release_by t intr a k 4 ++ [Run t k]).
    rewrite run_app, H4. cbn [obind].
    run_now idtac.
    reflexivity. }
  split; [exact H4|]. split; [exact H5|].
  change (release_by t intr a k 6) with (release_by t intr a k 5 ++ [Run t k]).
  rewrite run_app, H5. cbn [obind].
  run_now ltac:(rewrite ?Hw, ?Hhw).
  reflexivity.
Qed.

(** ** The statements of [V] one after the other *)

Lemma V_solo_spin (a : addr) (sm : semaphore) (s : kstate) (t : tid) (th : thread)
  (intr : bool) (k : nat) :
  k_heap s !! a = Some (BSem sm) -> sem_lock sm <> None ->
  k_threads s !! t = Some th -> t_pc th = Idle ->
  run (V_by t intr a k 2) s = Blocked.
Proof.
  destruct s as [h ths log]. cbn [k_heap k_threads k_log]. intros Ha Hg Ht Hpc.
  destruct (sem_lock sm) as [g|] eqn:Eg; [clear Hg|done].
  unfold V_by, solo. cbn [repeat].
  call_now.
  run_now idtac.
  rewrite run_cons.
  erewrite step_Run_blocked; [done|by rewrite lookup_insert_eq|].
  unfold exec; cbn [t_pc]; simpl. unfold load_sem.
  repeat (progress (simpl; heap_find; rewrite ?Ha, ?Eg)). done.
Qed.

Lemma V_stages (a w : addr) (sm : semaphore) (n : ptr) (q : list tid)
  (s : kstate) (t : tid) (th : thread) (intr : bool) (k : nat) :
  k_heap s !! a = Some (BSem sm) ->
  sem_lock sm = None -> 0 <= sem_count sm <= UINT_MAX ->
  sem_wchan sm = Some w -> k_heap s !! w = Some (BWchan n q) ->
  k_threads s !! t = Some th -> t_pc th = Idle ->
  run (V_by t intr a k 2) s
  = Next (mk_kstate (<[a := BSem (set_sem_lock sm (Some t))]> (k_heap s))
            (<[t := mk_thread intr (t_curspl th) (InV V_inc (Some a))]> (k_threads s))
            (k_log s)) /\
  run (V_by t intr a k 3) s
  = Next (mk_kstate
            (<[a := BSem (set_sem_count (set_sem_lock sm (Some t))
                            (wrap (sem_count sm + 1)))]> (k_heap s))
            (<[t := mk_thread intr (t_curspl th) (InV V_assert (Some a))]> (k_threads s))
            (k_log s)) /\
  (sem_count sm = UINT_MAX -> run (V_by t intr a k 4) s = Panic "sem->sem_count > 0") /\
  (sem_count sm < UINT_MAX ->
     run (V_by t intr a k 4) s
     = Next (mk_kstate
               (<[a := BSem (set_sem_count (set_sem_lock sm (Some t))
                               (wrap (sem_count sm + 1)))]> (k_heap s))
               (<[t := mk_thread intr (t_curspl th) (InV V_wake (Some a))]> (k_threads s))
               (k_log s)) /\
     run (V_by t intr a k 5) s
     = Next (mk_kstate
               (<[w := BWchan n (wchan_wakeone k q)]>
                  (<[a := BSem (set_sem_count (set_sem_lock sm (Some t))
                                  (wrap (sem_count sm + 1)))]> (k_heap s)))
               (<[t := mk_thread intr (t_curspl th) (InV V_release (Some a))]>
                  (k_threads s))
               (k_log s))).
Proof.
  destruct s as [h ths log]. cbn [k_heap k_threads k_log].
  intros Ha Hg Hc Hw Hhw Ht Hpc.
  assert (a <> w) by (intros ->; congruence).
  assert (w <> a) by done.
  assert (run (V_by t intr a k 2) (mk_kstate h ths log)
          = Next (mk_kstate (<[a := BSem (set_sem_lock sm (Some t))]> h)
                    (<[t := mk_thread intr (t_curspl th) (InV V_inc (Some a))]> ths)
                    log)) as H2.
  { unfold V_by, solo. cbn [repeat].
    call_now.
    run_now idtac.
    run_now ltac:(rewrite ?Ha, ?Hg).
    reflexivity. }
  assert (run (V_by t intr a k 3) (mk_kstate h ths log)
          = Next (mk_kstate
                    (<[a := BSem (set_sem_count (set_sem_lock sm (Some t))
                                    (wrap (sem_count sm + 1)))]> h)
                    (<[t := mk_thread intr (t_curspl th) (InV V_assert (Some a))]> ths)
                    log)) as H3.
  { change (V_by t intr a k 3) with (V_by t intr a k 2 ++ [Run t k]).
    rewrite run_app, H2. cbn [obind].
    run_now idtac.
    reflexivity. }
  split; [exact H2|]. split; [exact H3|]. split.
  - intros Hmax.
    change (V_by t intr a k 4) with (V_by t intr a k 3 ++ [Run t k]).
    rewrite run_app, H3. cbn [obind].
    rewrite run_cons.
    erewrite step_Run_panic; [done|by rewrite lookup_insert_eq|].
    unfold exec; cbn [t_pc]; simpl. unfold load_sem.
    repeat (progress (simpl; heap_find)).
    rewrite Hmax, wrap_overflow. done.
  - intros Hlt.
    assert (wrap (sem_count sm + 1) = sem_count sm + 1) as EW
      by (apply wrap_small; lia).
    assert ((0 <? sem_count sm + 1) = true) as E1 by (apply Z.ltb_lt; lia).
    assert (run (V_by t intr a k 4) (mk_kstate h ths log)
            = Next (mk_kstate
                      (<[a := BSem (set_sem_count (set_sem_lock sm (Some t))
                                      (wrap (sem_count sm + 1)))]> h)
                      (<[t := mk_thread intr (t_curspl th) (InV V_wake (Some a))]> ths)
                      log)) as H4.
    { change (V_by t intr a k 4) with (V_by t intr a k 3 ++ [Run t k]).
      rewrite run_app, H3. cbn [obind].
      run_now ltac:(rewrite ?EW, ?E1).
      rewrite ?EW. reflexivity. }
    split; [exact H4|].
    change (V_by t intr a k 5) with (V_by t intr a k 4 ++ [Run t k]).
    rewrite run_app, H4. cbn [obind].
    run_now ltac:(rewrite ?Hw, ?Hhw).
    reflexivity.
Qed.

(** ** Reachable states *)

Lemma run_after (ls : list label) (s : kstate) :
  completes ls s = true -> run ls s = Next (after ls s).
Proof.
  intros Hc. destruct (completes_run ls s Hc) as [s' Hrun].
  by rewrite (after_run ls s s' Hrun).
Qed.

Lemma full_sem_state_initial : sem_initial 0%nat UINT_MAX full_sem_state.
Proof.
  split_and!; try done.
  - exists full_sem. split_and!; reflexivity.
  - intros t th Hlk.
    by rewrite (two_idle_threads_quiescent _ _ t th Hlk).
Qed.

Lemma full_sem_state_wired : sem_wired 0%nat 2%nat (Some 1%nat) full_sem_state.
Proof. exists full_sem, []. split_and!; reflexivity. Qed.

(** ** What a call of [lock_release] does *)

(** C5, amended: in every state a lock can reach from its creation, a call
    of [lock_release] by a thread that is in no other call halts the kernel
    at the holder check unless the thread is the holder.  The holder's call
    waits for the lock's guard, then, with the guard held and the interrupt
    priority level at its highest, an atomic region, sets the holder to
    none and after that wakes one of the threads asleep on the lock's wait
    channel when there is any, and none when there is not; it returns with
    the guard free and the level restored.  The same holds statement by
    statement for a thread that the others interleave with. *)
Theorem lock_release_discipline (a w : addr) (n : ptr) (s0 s : kstate) (ls : list label) :
  lock_initial a s0 ->
  lock_wired a w n s0 ->
  run ls s0 = Next s ->
  release_discipline a s /\
  forall t th intr k, k_threads s !! t = Some th -> t_pc th = Idle ->
    release_call a w n s t th intr k.
Proof.
  intros Hinit Hwired Hrun.
  split; [by eapply release_discipline_run|].
  intros t th intr k Ht Hpc.
  destruct (lock_wired_run a w n ls s0 s Hwired Hrun) as (l & q & Hl & Hlw & Hq).
  exists l, q. split_and!; try done.
  - intros Hh. by eapply lock_release_solo_panic.
  - intros Hh Hg. by eapply lock_release_solo_spin.
  - intros Hh Hg. cbv zeta.
    destruct (lock_release_stages a w l n q s t th intr k) as (H4 & H5 & H6); try done.
    split_and!; try done.
    + apply woken_one.
    + by apply lock_release_solo.
Qed.

Lemma lock_release_discipline_witness :
  lock_initial 0%nat free_lock_state /\
  lock_wired 0%nat 2%nat (Some 1%nat) free_lock_state /\
  (* the holder, thread 1, releases the lock thread 2 is asleep on *)
  run sleeper_schedule free_lock_state = Next queued_lock_state /\
  release_discipline 0%nat queued_lock_state /\
  run (release_by 1%nat false 0%nat 0 4) queued_lock_state
  = Next (mk_kstate
            (<[0%nat := BLock (set_lock_lock taken_lock (Some 1%nat))]>
               (k_heap queued_lock_state))
            (<[1%nat := mk_thread false IPL_HIGH
                          (InLR LR_clear (Some 0%nat) (t_curspl idle_thread))]>
               (k_threads queued_lock_state))
            (k_log queued_lock_state)) /\
  run (release_by 1%nat false 0%nat 0 5) queued_lock_state
  = Next (mk_kstate
            (<[0%nat := BLock (set_holding_thread
                                 (set_lock_lock taken_lock (Some 1%nat)) None)]>
               (k_heap queued_lock_state))
            (<[1%nat := mk_thread false IPL_HIGH
                          (InLR LR_wake (Some 0%nat) (t_curspl idle_thread))]>
               (k_threads queued_lock_state))
            (k_log queued_lock_state)) /\
  run (release_by 1%nat false 0%nat 0 6) queued_lock_state
  = Next (mk_kstate
            (<[2%nat := BWchan (Some 1%nat) (wchan_wakeone 0 [2%nat])]>
               (<[0%nat := BLock (set_holding_thread
                                    (set_lock_lock taken_lock (Some 1%nat)) None)]>
                  (k_heap queued_lock_state)))
            (<[1%nat := mk_thread false IPL_HIGH
                          (InLR LR_splx (Some 0%nat) (t_curspl idle_thread))]>
               (k_threads queued_lock_state))
            (k_log queued_lock_state)) /\
  woken [2%nat] (wchan_wakeone 0 [2%nat]) = 1%nat /\
  run (release_by 1%nat false 0%nat 0 8) queued_lock_state
  = Next (mk_kstate
            (<[2%nat := BWchan (Some 1%nat) (wchan_wakeone 0 [2%nat])]>
               (<[0%nat := BLock (set_holding_thread taken_lock None)]>
                  (k_heap queued_lock_state)))
            (<[1%nat := mk_thread false (t_curspl idle_thread) Idle]>
               (k_threads queued_lock_state))
            (RetRelease 1%nat 0%nat :: k_log queued_lock_state)) /\
  (* the holder's call while thread 2 has the guard *)
  run guarding_schedule free_lock_state = Next guarded_lock_state /\
  run (release_by 1%nat false 0%nat 0 3) guarded_lock_state = Blocked /\
  (* a call by thread 2, which does not hold the lock *)
  run (release_by 2%nat false 0%nat 0 2) free_lock_state
  = Panic "lock->holding_thread == curthread".
Proof.
  assert (run sleeper_schedule free_lock_state = Next queued_lock_state) as R1
    by (apply run_after; vm_compute; reflexivity).
  assert (run guarding_schedule free_lock_state = Next guarded_lock_state) as R2
    by (apply run_after; vm_compute; reflexivity).
  split; [exact free_lock_state_initial|].
  split; [exact free_lock_state_wired|].
  split; [exact R1|].
  destruct (lock_release_discipline 0%nat 2%nat (Some 1%nat) free_lock_state
              queued_lock_state sleeper_schedule
              free_lock_state_initial free_lock_state_wired R1) as [D1 C1].
  split; [exact D1|].
  destruct (C1 1%nat idle_thread false 0%nat) as (l & q & Hl & _ & Hq & _ & _ & Hgo);
    [vm_compute; reflexivity|reflexivity|].
  assert (k_heap queued_lock_state !! 0%nat = Some (BLock taken_lock)) as El
    by (vm_compute; reflexivity).
  assert (k_heap queued_lock_state !! 2%nat = Some (BWchan (Some 1%nat) [2%nat])) as Eq
    by (vm_compute; reflexivity).
  injection (eq_trans (eq_sym El) Hl) as <-. injection (eq_trans (eq_sym Eq) Hq) as <-.
  destruct (Hgo eq_refl eq_refl) as (H4 & H5 & H6 & Hw & H8).
  split; [exact H4|]. split; [exact H5|]. split; [exact H6|].
  split; [exact Hw|]. split; [exact H8|].
  split; [exact R2|].
  split.
  - destruct (lock_release_discipline 0%nat 2%nat (Some 1%nat) free_lock_state
                guarded_lock_state guarding_schedule
                free_lock_state_initial free_lock_state_wired R2) as [_ C2].
    destruct (C2 1%nat idle_thread false 0%nat) as (l2 & q2 & Hl2 & _ & _ & _ & Hspin & _);
      [vm_compute; reflexivity|reflexivity|].
    assert (k_heap guarded_lock_state !! 0%nat
            = Some (BLock (set_lock_lock taken_lock (Some 2%nat)))) as El2
      by (vm_compute; reflexivity).
    injection (eq_trans (eq_sym El2) Hl2) as <-.
    apply Hspin; [reflexivity|discriminate].
  - destruct (lock_release_discipline 0%nat 2%nat (Some 1%nat) free_lock_state
                free_lock_state [] free_lock_state_initial free_lock_state_wired eq_refl)
      as [_ C3].
    destruct (C3 2%nat idle_thread false 0%nat) as (l3 & q3 & Hl3 & _ & _ & Hpanic & _);
      [reflexivity|reflexivity|].
    assert (k_heap free_lock_state !! 0%nat = Some (BLock free_lock)) as El3
      by reflexivity.
    injection (eq_trans (eq_sym El3) Hl3) as <-.
    apply Hpanic. discriminate.
Defined.

(** ** What a call of [V] does *)

(** C8: in every state a semaphore can reach from its creation, a call of
    [V] by a thread that is in no other call waits for the semaphore's
    guard and, with the guard held, increments the count; when the count
    was [UINT_MAX] the increment wraps to 0 and the assertion that follows
    halts the kernel, so the wrapped count is never left behind; otherwise
    the count is one more than before, after the increment at most one of
    the threads asleep on the wait channel is woken, and the call returns
    with the guard free.  The same holds statement by statement for a
    thread that the others interleave with, the count before the increment
    being the one the completed calls account for. *)
Theorem V_increment_discipline (c0 : Z) (a w : addr) (n : ptr) (s0 s : kstate)
  (ls : list label) :
  sem_initial a c0 s0 ->
  sem_wired a w n s0 ->
  run ls s0 = Next s ->
  V_discipline c0 a s /\
  forall t th intr k, k_threads s !! t = Some th -> t_pc th = Idle ->
    V_call a w n s t th intr k.
Proof.
  intros Hinit Hwired Hrun.
  split; [by eapply V_discipline_run|].
  intros t th intr k Ht Hpc.
  pose proof (sem_inv_run c0 a ls s0 s (sem_inv_initial a c0 s0 Hinit) Hrun)
    as (sm & Hsm & _ & (R & _)).
  destruct (sem_wired_run a w n ls s0 s Hwired Hrun) as (sm2 & q & Hsm2 & Hsw & Hq).
  simplify_eq.
  exists sm, q. split_and!; try done; try apply R.
  - intros Hg. by eapply V_solo_spin.
  - intros Hg. cbv zeta.
    destruct (V_stages a w sm n q s t th intr k) as (H2 & H3 & Hmax & Hlt); try done.
    split_and!; try done.
    + intros E. split; [|by apply Hmax].
      simpl. rewrite E. apply wrap_overflow.
    + intros E. destruct (Hlt E) as [H4 H5].
      split_and!; try done.
      * simpl. apply wrap_small. lia.
      * rewrite woken_one. destruct q; lia.
      * apply V_solo; try done. lia.
Qed.

Lemma V_increment_discipline_witness :
  sem_initial 0%nat 0 empty_sem_state /\
  sem_wired 0%nat 2%nat (Some 1%nat) empty_sem_state /\
  (* thread 2 calls V, from an interrupt handler, while thread 1 is asleep in P *)
  run P_asleep_schedule empty_sem_state = Next queued_sem_state /\
  V_discipline 0 0%nat queued_sem_state /\
  run (V_by 2%nat true 0%nat 0 2) queued_sem_state
  = Next (mk_kstate
            (<[0%nat := BSem (set_sem_lock empty_sem (Some 2%nat))]>
               (k_heap queued_sem_state))
            (<[2%nat := mk_thread true (t_curspl idle_thread) (InV V_inc (Some 0%nat))]>
               (k_threads queued_sem_state))
            (k_log queued_sem_state)) /\
  run (V_by 2%nat true 0%nat 0 3) queued_sem_state
  = Next (mk_kstate
            (<[0%nat := BSem (set_sem_count (set_sem_lock empty_sem (Some 2%nat))
                                (wrap (sem_count empty_sem + 1)))]>
               (k_heap queued_sem_state))
            (<[2%nat := mk_thread true (t_curspl idle_thread) (InV V_assert (Some 0%nat))]>
               (k_threads queued_sem_state))
            (k_log queued_sem_state)) /\
  sem_count (set_sem_count (set_sem_lock empty_sem (Some 2%nat))
               (wrap (sem_count empty_sem + 1))) = sem_count empty_sem + 1 /\
  run (V_by 2%nat true 0%nat 0 5) queued_sem_state
  = Next (mk_kstate
            (<[2%nat := BWchan (Some 1%nat) (wchan_wakeone 0 [1%nat])]>
               (<[0%nat := BSem (set_sem_count (set_sem_lock empty_sem (Some 2%nat))
                                   (wrap (sem_count empty_sem + 1)))]>
                  (k_heap queued_sem_state)))
            (<[2%nat := mk_thread true (t_curspl idle_thread) (InV V_release (Some 0%nat))]>
               (k_threads queued_sem_state))
            (k_log queued_sem_state)) /\
  (woken [1%nat] (wchan_wakeone 0 [1%nat]) <= 1)%nat /\
  run (V_by 2%nat true 0%nat 0 6) queued_sem_state
  = Next (mk_kstate
            (<[2%nat := BWchan (Some 1%nat) (wchan_wakeone 0 [1%nat])]>
               (<[0%nat := BSem (set_sem_count empty_sem (sem_count empty_sem + 1))]>
                  (k_heap queued_sem_state)))
            (<[2%nat := mk_thread true (t_curspl idle_thread) Idle]>
               (k_threads queued_sem_state))
            (RetV 2%nat 0%nat :: k_log queued_sem_state)) /\
  (* a call while thread 1 has the guard *)
  run P_guarding_schedule empty_sem_state = Next guarded_sem_state /\
  run (V_by 2%nat false 0%nat 0 2) guarded_sem_state = Blocked /\
  (* a call on a semaphore whose count is UINT_MAX *)
  sem_initial 0%nat UINT_MAX full_sem_state /\
  sem_wired 0%nat 2%nat (Some 1%nat) full_sem_state /\
  sem_count (set_sem_count (set_sem_lock full_sem (Some 1%nat))
               (wrap (sem_count full_sem + 1))) = 0 /\
  run (V_by 1%nat false 0%nat 0 4) full_sem_state = Panic "sem->sem_count > 0".
Proof.
  assert (run P_asleep_schedule empty_sem_state = Next queued_sem_state) as R1
    by (apply run_after; vm_compute; reflexivity).
  assert (run P_guarding_schedule empty_sem_state = Next guarded_sem_state) as R2
    by (apply run_after; vm_compute; reflexivity).
  split; [exact empty_sem_state_initial|].
  split; [exact empty_sem_state_wired|].
  split; [exact R1|].
  destruct (V_increment_discipline 0 0%nat 2%nat (Some 1%nat) empty_sem_state
              queued_sem_state P_asleep_schedule
              empty_sem_state_initial empty_sem_state_wired R1) as [D1 C1].
  split; [exact D1|].
  destruct (C1 2%nat idle_thread true 0%nat) as (sm & q & Hsm & _ & Hq & _ & _ & Hgo);
    [vm_compute; reflexivity|reflexivity|].
  assert (k_heap queued_sem_state !! 0%nat = Some (BSem empty_sem)) as Es
    by (vm_compute; reflexivity).
  assert (k_heap queued_sem_state !! 2%nat = Some (BWchan (Some 1%nat) [1%nat])) as Eq
    by (vm_compute; reflexivity).
  injection (eq_trans (eq_sym Es) Hsm) as <-. injection (eq_trans (eq_sym Eq) Hq) as <-.
  destruct (Hgo eq_refl) as (H2 & H3 & _ & Hlt).
  destruct Hlt as (Hc & _ & H5 & Hw & H6); [unfold UINT_MAX; simpl; lia|].
  split; [exact H2|]. split; [exact H3|]. split; [exact Hc|].
  split; [exact H5|]. split; [exact Hw|]. split; [exact H6|].
  split; [exact R2|].
  split.
  { destruct (V_increment_discipline 0 0%nat 2%nat (Some 1%nat) empty_sem_state
                guarded_sem_state P_guarding_schedule
                empty_sem_state_initial empty_sem_state_wired R2) as [_ C2].
    destruct (C2 2%nat idle_thread false 0%nat) as (sm2 & q2 & Hsm2 & _ & _ & _ & Hspin & _);
      [vm_compute; reflexivity|reflexivity|].
    assert (k_heap guarded_sem_state !! 0%nat
            = Some (BSem (set_sem_lock empty_sem (Some 1%nat)))) as Es2
      by (vm_compute; reflexivity).
    injection (eq_trans (eq_sym Es2) Hsm2) as <-.
    apply Hspin. discriminate. }
  split; [exact full_sem_state_initial|].
  split; [exact full_sem_state_wired|].
  destruct (V_increment_discipline UINT_MAX 0%nat 2%nat (Some 1%nat) full_sem_state
              full_sem_state [] full_sem_state_initial full_sem_state_wired eq_refl)
    as [_ C3].
  destruct (C3 1%nat idle_thread false 0%nat) as (sm3 & q3 & Hsm3 & _ & _ & _ & _ & Hgo3);
    [reflexivity|reflexivity|].
  assert (k_heap full_sem_state !! 0%nat = Some (BSem full_sem)) as Es3 by reflexivity.
  injection (eq_trans (eq_sym Es3) Hsm3) as <-.
  destruct (Hgo3 eq_refl) as (_ & _ & Hmax & _).
  exact (Hmax eq_refl).
Defined.
